(** * A character-level GPT notebook, embedded and verified

    Shallow embedding of [seminars/seminar-9-gpt/transformers.ipynb]:
    the character tokenizer, the 90/10 split, the batch sampler, the
    transformer decoder (Head, MultiHeadAttention, FeedFoward, Block,
    GPTLanguageModel) with its forward pass and autoregressive
    generation, and the loss estimator.

    Conventions of the embedding.
    - A Python [str] is a list of Unicode code points ([pystr]); token
      indices, offsets and sizes are [nat].
    - Tensors are nested lists, outermost dimension first.  Elements are
      ideal real numbers: rounding, overflow and the IEEE special values
      are not modelled, except where the notebook itself produces them
      ([float('-inf')] in the attention mask) or where an operation
      divides by a count that can be zero (a mean over no elements is
      [NaN]).
    - A batch is the list of its rows, so an empty batch carries no
      sequence length; operations that torch would refuse for
      mismatched shapes are checked where the layers check them
      ([nn.Linear], [nn.LayerNorm], [masked_fill], [torch.stack],
      [F.cross_entropy]) and are otherwise applied to shapes that agree
      by construction.
    - A Python exception is the [Raise] outcome.
    - The globals [model] (parameters and train/eval mode) and torch's
      random generator form the [world] threaded through every call. *)

From Stdlib Require Import Reals Lra Lia QArith Qround Ascii String.
From Stdlib Require Uint63 PrimFloat SpecFloat FloatOps.
From stdpp Require Import base list gmap strings sorting.

Open Scope nat_scope.

(** ** Exceptions *)

Inductive exn : Set :=
| KeyError
| IndexError
| RuntimeError
| ZeroDivisionError
| ValueError
| AttributeError.

Inductive outcome (A : Type) : Type :=
| Ok (a : A)
| Raise (e : exn).
Arguments Ok {A} a.
Arguments Raise {A} e.

#[global] Instance outcome_ret : MRet outcome := fun A a => Ok a.
#[global] Instance outcome_bind : MBind outcome := fun A B f m =>
  match m with
  | Ok a => f a
  | Raise e => Raise e
  end.
#[global] Instance outcome_fmap : FMap outcome := fun A B f m =>
  match m with
  | Ok a => Ok (f a)
  | Raise e => Raise e
  end.

(** ** Tokenizer (cells 8 and 9) *)

(** A Python string: its code points, in order. *)
Abbreviation pystr := (list N).

(** String literals of the notebook, as code points. *)
Definition py (s : string) : pystr :=
  map N_of_ascii (String.list_ascii_of_string s).

(** [enumerate(l)]. *)
Definition enumerate {A} (l : list A) : list (nat * A) :=
  zip (seq 0 (length l)) l.

(** A dict comprehension [{k: v for ...}]: entries are stored in
    iteration order, a later entry replacing an earlier one. *)
Definition dict_of `{Countable K} {V} (kvs : list (K * V)) : gmap K V :=
  fold_left (fun m kv => <[kv.1 := kv.2]> m) kvs ∅.

(** [dict[k]]. *)
Definition getitem `{Countable K} {V} (d : gmap K V) (k : K) : outcome V :=
  match d !! k with
  | Some v => Ok v
  | None => Raise KeyError
  end.

Section tokenizer.
Variable text : pystr.

(** [chars = sorted(list(set(text)))] *)
Definition chars : list N :=
  merge_sort N.le (elements (list_to_set text : gset N)).

(** [vocab_size = len(chars)] *)
Definition vocab_size : nat := length chars.

(** [stoi = { ch:i for i,ch in enumerate(chars) }] *)
Definition stoi : gmap N nat :=
  dict_of ((fun '(i, ch) => (ch, i)) <$> enumerate chars).

(** [itos = { i:ch for i,ch in enumerate(chars) }]; a character is a
    string of length one. *)
Definition itos : gmap nat pystr :=
  dict_of ((fun '(i, ch) => (i, [ch])) <$> enumerate chars).

(** [encode = lambda s: [stoi[c] for c in s]] *)
Definition encode (s : pystr) : outcome (list nat) :=
  mapM (getitem stoi) s.

(** [decode = lambda l: ''.join([itos[i] for i in l])] *)
Definition decode (l : list nat) : outcome pystr :=
  (fun parts => concat parts) <$> mapM (getitem itos) l.

(** [data = torch.tensor(encode(text), dtype=torch.long)] (cell 10).
    Every symbol of [text] is in the vocabulary, so the encoding never
    raises ([encode_text] below); the other branch is unreachable. *)
Definition data : list nat :=
  match encode text with
  | Ok l => l
  | Raise _ => []
  end.

(** [n = int(0.9*len(data))]: the product taken in exact arithmetic,
    then truncated. *)
Definition n : nat :=
  Z.to_nat (Qfloor (0.9 * inject_Z (Z.of_nat (length data)))).

(** [train_data = data[:n]] and [val_data = data[n:]] (cell 11). *)
Definition train_data : list nat := take n data.
Definition val_data : list nat := drop n data.
End tokenizer.

(** *** The split point in binary64

    Python evaluates [0.9*len(data)] in IEEE binary64: the length is
    converted to a float, multiplied by the double nearest to 0.9, and
    [int] truncates the product.  [n_binary64] is that computation, for
    the finite non-negative values that occur here; [agree_range k s]
    checks that it gives the exact [floor(0.9 * len)] for every length
    in [s, s + k). *)

Module Binary64.
Import Uint63 PrimFloat SpecFloat FloatOps.

Definition float_of_int (z : Z) : float := PrimFloat.of_uint63 (Uint63.of_Z z).

Definition int_of_float (f : float) : Z :=
  match Prim2SF f with
  | S754_finite false m e => Z.shiftl (Zpos m) e
  | _ => 0%Z
  end.

Definition n_binary64 (len : Z) : Z :=
  int_of_float (PrimFloat.mul 0x1.ccccccccccccdp-1%float (float_of_int len)).

Definition agrees (len : Z) : bool :=
  (n_binary64 len =? Qfloor (0.9 * inject_Z len))%Z.

Fixpoint agree_range (k : positive) (start : Z) : bool :=
  match k with
  | xH => agrees start
  | xO k' => agree_range k' start && agree_range k' (start + Zpos k')
  | xI k' =>
      agrees start && agree_range k' (start + 1)
      && agree_range k' (start + 1 + Zpos k')
  end.
End Binary64.

(** ** State and exceptions

    [ST S A] is a computation over a mutable state [S] that returns an
    [A] or raises; the state reached before a [Raise] is kept. *)

Definition ST (S A : Type) : Type := S → outcome A * S.

#[global] Instance ST_ret {S} : MRet (ST S) := fun A a s => (Ok a, s).
#[global] Instance ST_bind {S} : MBind (ST S) := fun A B f m s =>
  match m s with
  | (Ok a, s') => f a s'
  | (Raise e, s') => (Raise e, s')
  end.

(** A pure, possibly raising, step inside a stateful computation. *)
Definition lift {S A} (o : outcome A) : ST S A := fun s => (o, s).

(** A [for] loop that threads an accumulator. *)
Fixpoint foldM {S A B} (f : B → A → ST S B) (b : B) (l : list A) : ST S B :=
  match l with
  | [] => mret b
  | a :: l => b' ← f b a; foldM f b' l
  end.

(** [yields m s Q]: from state [s], [m] returns normally, with a
    result and a final state related by [Q]. *)
Definition yields {S A} (m : ST S A) (s : S) (Q : A → S → Prop) : Prop :=
  ∃ a s', m s = (Ok a, s') ∧ Q a s'.

(** ** Tensors over ideal reals *)

Abbreviation vec := (list R).
Abbreviation mat := (list (list R)).
Abbreviation tensor3 := (list (list (list R))).

(** Sizes of the second and third dimension, read off the first
    element (a nested list with no first element carries none). *)
Definition dim1 {A} (x : list (list A)) : nat := length (default [] (head x)).

Definition Rsum (l : list R) : R := foldr Rplus 0%R l.
Definition dot (a b : list R) : R := Rsum (zip_with Rmult a b).
Definition vadd (a b : list R) : list R := zip_with Rplus a b.
Definition vmul (a b : list R) : list R := zip_with Rmult a b.
Definition vscale (c : R) (a : list R) : list R := Rmult c <$> a.
Definition madd (a b : mat) : mat := zip_with vadd a b.
(** [x + y] on (B,T,C) tensors. *)
Definition tadd (x y : tensor3) : tensor3 := zip_with madd x y.

(** A function applied to every row (last dimension), or to every
    element, of a (B,T,C) tensor. *)
Definition rows {A B} (f : list A → list B) (x : list (list (list A)))
  : list (list (list B)) :=
  (fun m : list (list A) => f <$> m) <$> x.
Definition elems {A B} (f : A → B) (x : list (list (list A)))
  : list (list (list B)) :=
  rows (fun row : list A => f <$> row) x.

(** [a @ b.transpose(-2,-1)] on matrices: entry (i,j) is the dot
    product of row i of [a] and row j of [b]. *)
Definition matmul_nt (a b : mat) : mat := (fun r => dot r <$> b) <$> a.

(** A row of weights times a matrix: the weighted sum of its rows. *)
Definition weighted_sum (w : list R) (b : mat) : list R :=
  foldr vadd (replicate (dim1 b) 0%R) (zip_with vscale w b).

(** [a @ b] on matrices. *)
Definition matmul (a b : mat) : mat := (fun w => weighted_sum w b) <$> a.

(** Values a masked score can take: a real or [float('-inf')]. *)
Inductive xreal : Type :=
| Finite (r : R)
| NegInf.

Definition xexp (x : xreal) : R :=
  match x with
  | Finite r => exp r
  | NegInf => 0%R
  end.

(** [F.softmax(row, dim=-1)] on one row: [exp(x_i) / sum_j exp(x_j)],
    with [exp(-inf) = 0].  (A row without any finite entry, which torch
    turns into NaN, does not occur: see [softmax_denominator_pos].) *)
Definition softmax (row : list xreal) : list R :=
  let e := xexp <$> row in
  (fun ei => (ei / Rsum e)%R) <$> e.

(** No weight on a later position. *)
Definition causal (w : mat) : Prop :=
  ∀ i row j, w !! i = Some row → i < j → j < length row → row !! j = Some 0%R.

(** Every row is a probability distribution. *)
Definition distributions (w : mat) : Prop :=
  Forall (fun row => Forall (fun p => (0 <= p)%R) row ∧ Rsum row = 1%R) w.

(** The mask [tril[:t, :t] == 0] in closed form: true above the
    diagonal. *)
Definition causal_mask (t : nat) : list (list bool) :=
  (fun i => (fun j => bool_decide (i < j)) <$> seq 0 t) <$> seq 0 t.

(** [torch.ones(n, m)] and [torch.tril]. *)
Definition ones (n m : nat) : mat := replicate n (replicate m 1%R).
Definition torch_tril (a : mat) : mat :=
  imap (fun i row => imap (fun j x => if decide (j ≤ i) then x else 0%R) row) a.

(** [a[:t, :t] == 0] *)
Definition eq0 (r : R) : bool := if Req_dec_T r 0 then true else false.
Definition mask_of (a : mat) (t : nat) : list (list bool) :=
  (fun row => eq0 <$> take t row) <$> take t a.

(** [wei.masked_fill(mask, float('-inf'))] for a (B,T,T) tensor and a
    two-dimensional mask, which is broadcast over the batch; a 1x1 mask
    is broadcast over all positions, any other size mismatch raises. *)
Definition fill_row (ms : list bool) (row : list R) : list xreal :=
  zip_with (fun (m : bool) x => if m then NegInf else Finite x) ms row.
Definition masked_fill (wei : tensor3) (mask : list (list bool))
  : outcome (list (list (list xreal))) :=
  let t := dim1 wei in
  if decide (length mask = t ∧ Forall (fun ms => length ms = t) mask)
  then Ok ((fun w => zip_with fill_row mask w) <$> wei)
  else
    match mask with
    | [[m]] =>
        Ok ((fun w : mat =>
               (fun row : list R => fill_row (replicate (length row) m) row) <$> w)
            <$> wei)
    | _ => Raise RuntimeError
    end.

(** [n ** -0.5] for a Python [int] n: zero cannot be raised to a
    negative power. *)
Definition pow_neg_half (k : nat) : outcome R :=
  if decide (k = 0) then Raise ZeroDivisionError else Ok (/ sqrt (INR k))%R.

(** A Python float that may be [nan]. *)
Inductive pyfloat : Type :=
| Float (r : R)
| NaN.

(** [t.mean()] of a one-dimensional tensor. *)
Definition floats (l : list pyfloat) : option (list R) :=
  mapM (fun f => match f with Float r => Some r | NaN => None end) l.
Definition mean (l : list pyfloat) : pyfloat :=
  match floats l with
  | Some (r :: rs) => Float (Rsum (r :: rs) / INR (length (r :: rs)))
  | _ => NaN
  end.

(** [dropped p x y]: [y] is [x] after a dropout with probability [p]
    (or after none). *)
Definition dropped1 (p : R) (xi yi : R) : Prop :=
  yi = xi ∨ yi = 0%R ∨ yi = (xi / (1 - p))%R.
Definition dropped (p : R) (x y : tensor3) : Prop :=
  Forall2 (Forall2 (Forall2 (dropped1 p))) x y.

(** A loss that [cross_entropy] can return for [k] rows. *)
Definition loss_of (k : nat) (l : pyfloat) : Prop :=
  match k with
  | 0 => l = NaN
  | S _ => ∃ r, l = Float r ∧ (0 <= r)%R
  end.

(** ** Hyperparameters (cell 13) and torch's random generator *)

Class Hyper := {
  batch_size : nat;
  block_size : nat;
  max_iters : nat;
  eval_interval : nat;
  learning_rate : R;
  eval_iters : nat;
  n_embd : nat;
  n_head : nat;
  n_layer : nat;
  dropout : R;
}.

(** The values the notebook assigns. *)
Definition notebook_hyper : Hyper := {|
  batch_size := 64;
  block_size := 256;
  max_iters := 5000;
  eval_interval := 500;
  learning_rate := 3e-4;
  eval_iters := 200;
  n_embd := 384;
  n_head := 6;
  n_layer := 6;
  dropout := 0.2;
|}.

(** The random generator is an external collaborator.  Its interface
    fixes the shape and the range of what is drawn, not the
    distribution. *)
Class TorchRandom := {
  rng : Type;
  (** [k] Bernoulli draws with success probability [p] *)
  bernoulli : R → nat → rng → list bool * rng;
  (** [torch.randint(high, (size,))] for [0 < high] *)
  randint : nat → nat → rng → list nat * rng;
  (** one draw of [torch.multinomial(probs, num_samples=1)] for a
      non-empty row of probabilities *)
  multinomial : list R → rng → nat * rng;
  (** an [o] x [i] tensor filled by [torch.nn.init.normal_] *)
  normal_ : nat → nat → rng → list (list R) * rng;
  length_bernoulli p k g : length (bernoulli p k g).1 = k;
  length_randint high size g : length (randint high size g).1 = size;
  randint_lt high size g :
    0 < high → Forall (fun i => i < high) (randint high size g).1;
  multinomial_lt probs g :
    probs ≠ [] → (multinomial probs g).1 < length probs;
  shape_normal_ o i g :
    length (normal_ o i g).1 = o ∧
    Forall (fun row => length row = i) (normal_ o i g).1;
}.

(** A generator for running the definitions: a linear congruential
    sequence (the constants of Numerical Recipes), reduced to the range
    asked for. *)
Definition lcg_next (s : N) : N := ((1664525 * s + 1013904223) mod 4294967296)%N.

Fixpoint lcg_draws (k : nat) (s : N) : list N * N :=
  match k with
  | 0 => ([], s)
  | S k =>
      let s' := lcg_next s in
      let '(l, s'') := lcg_draws k s' in (s' :: l, s'')
  end.

Definition lcg_unit (r : N) : R := (IZR (Z.of_N r) / 4294967296)%R.

Definition lcg_bernoulli (p : R) (k : nat) (s : N) : list bool * N :=
  let '(l, s') := lcg_draws k s in
  ((fun r => if Rlt_dec (lcg_unit r) p then true else false) <$> l, s').

Definition lcg_randint (high size : nat) (s : N) : list nat * N :=
  let '(l, s') := lcg_draws size s in
  ((fun r => N.to_nat r mod high) <$> l, s').

(** Inversion of the cumulative distribution. *)
Fixpoint pick (u : R) (probs : list R) : nat :=
  match probs with
  | [] => 0
  | p :: ps =>
      if Rlt_dec u p then 0
      else match ps with
           | [] => 0
           | _ => S (pick (u - p) ps)
           end
  end.
Definition lcg_multinomial (probs : list R) (s : N) : nat * N :=
  let s' := lcg_next s in (pick (lcg_unit s' * Rsum probs) probs, s').

Fixpoint lcg_normal_ (o i : nat) (s : N) : list (list R) * N :=
  match o with
  | 0 => ([], s)
  | S o =>
      let '(l, s') := lcg_draws i s in
      let '(rows, s'') := lcg_normal_ o i s' in
      (((fun r => ((lcg_unit r - 0.5) * 0.04)%R) <$> l) :: rows, s'')
  end.

(** ** Modules and their parameters *)

Record Linear := {
  in_features : nat;
  out_features : nat;
  weight : list (list R);       (* out_features x in_features *)
  bias : option (list R);
}.

Record Embedding := {
  emb_weight : list (list R);   (* num_embeddings x embedding_dim *)
}.

Record LayerNorm := {
  normalized_shape : nat;
  ln_weight : list R;
  ln_bias : list R;
  eps : R;
}.

Record Head := {
  key : Linear;
  query : Linear;
  value : Linear;
  tril : list (list R);         (* buffer *)
  head_dropout : R;
}.

Record MultiHeadAttention := {
  heads : list Head;
  proj : Linear;
  mha_dropout : R;
}.

(** [nn.Sequential(Linear, ReLU, Linear, Dropout)] *)
Record FeedFoward := {
  net_0 : Linear;
  net_2 : Linear;
  net_3 : R;
}.

Record Block := {
  sa : MultiHeadAttention;
  ffwd : FeedFoward;
  ln1 : LayerNorm;
  ln2 : LayerNorm;
}.

Record GPTLanguageModel := {
  token_embedding_table : Embedding;
  position_embedding_table : Embedding;
  blocks : list Block;
  ln_f : LayerNorm;
  lm_head : Linear;
}.

(** What [forward] returns as logits: a (B,T,C) tensor, or the
    (B*T,C) view of it. *)
Inductive logits_t : Type :=
| Logits3 (x : tensor3)
| Logits2 (x : mat).

(** Automatic differentiation and the optimizer are external
    collaborators too.  [adamw_step] stands for
    [optimizer.zero_grad(set_to_none=True); loss.backward();
    optimizer.step()] after the forward pass of a training iteration:
    from the parameters, the batch, the generator state the pass
    started from (it fixes the dropout masks) and AdamW's own state, it
    gives the parameters and the state after the step. *)
Class Optimizer (G : Type) := {
  opt_state : Type;
  adamw_step :
    GPTLanguageModel → list (list nat) → list (list nat) → G → opt_state →
    GPTLanguageModel * opt_state;
}.

(** An optimizer for the examples: it leaves the parameters in place. *)
Definition frozen (G : Type) : Optimizer G :=
  {| opt_state := unit; adamw_step := fun m _ _ _ o => (m, o) |}.

Section notebook.
Context `{Hyper} `{TorchRandom} `{!Optimizer rng}.
(** The corpus read in cell 3. *)
Variable text : list N.

(** ** The mutable globals *)

Record world := {
  model : GPTLanguageModel;   (* the parameters of [model] *)
  training : bool;            (* [model.training], set by [train()] and [eval()] *)
  gen : rng;                  (* torch's default generator *)
  optimizer : opt_state;      (* the state of [optimizer] *)
}.

(** Computations of the notebook, and of the constructors (which run
    before [model] exists and only draw initial values). *)
Definition M : Type → Type := ST world.
Definition Init : Type → Type := ST rng.

Definition draw {A} (f : rng → A * rng) : Init A :=
  fun g => let '(a, g') := f g in (Ok a, g').
Definition with_gen {A} (f : rng → A * rng) : M A :=
  fun w =>
    let '(a, g') := f (gen w) in
    (Ok a, {| model := model w; training := training w; gen := g';
              optimizer := optimizer w |}).
Definition get_model : M GPTLanguageModel := fun w => (Ok (model w), w).
Definition is_training : M bool := fun w => (Ok (training w), w).
Definition set_training (b : bool) : M unit :=
  fun w => (Ok tt, {| model := model w; training := b; gen := gen w;
                      optimizer := optimizer w |}).
Definition get_gen : M rng := fun w => (Ok (gen w), w).
(** The one operation that writes the parameters. *)
Definition optimizer_step (xb yb : list (list nat)) (g : rng) : M unit :=
  fun w =>
    let '(m, o) := adamw_step (model w) xb yb g (optimizer w) in
    (Ok tt, {| model := m; training := training w; gen := gen w;
               optimizer := o |}).

(** The part of the state a forward pass leaves alone. *)
Definition frame (w w' : world) : Prop :=
  model w' = model w ∧ training w' = training w ∧
  optimizer w' = optimizer w.

(** [runs m w Q]: [m] returns normally from [w], its result satisfies
    [Q], and only the random generator has advanced. *)
Definition runs {A} (m : M A) (w : world) (Q : A → Prop) : Prop :=
  yields m w (fun a w' => Q a ∧ frame w w').

(** [m] never changes the parameters of the model, whether it
    returns or raises. *)
Definition keeps_model {A} (m : M A) : Prop :=
  ∀ w, model (m w).2 = model w.

(** [m] changes nothing but the state of the random generator,
    whether it returns or raises. *)
Definition only_draws {A} (m : M A) : Prop := ∀ w, frame w (m w).2.

(** In eval mode [m] is a function of its arguments: it has the same
    outcome in every world and leaves the world as it was. *)
Definition pure_in_eval {A} (m : M A) : Prop :=
  ∃ o, ∀ w, training w = false → m w = (o, w).

(** [built m g Q]: the constructor [m] returns normally from the
    generator state [g], with a module that satisfies [Q]. *)
Definition built {A} (m : Init A) (g : rng) (Q : A → Prop) : Prop :=
  yields m g (fun a _ => Q a).

(** ** Constructors *)

(** [nn.Linear(i, o, bias=b)] after [_init_weights]: normal weights,
    zero bias. *)
Definition Linear_init (i o : nat) (b : bool) : Init Linear :=
  w ← draw (normal_ o i);
  mret {| in_features := i; out_features := o; weight := w;
          bias := if b then Some (replicate o 0%R) else None |}.

(** [nn.Embedding(num, dim)] after [_init_weights]. *)
Definition Embedding_init (num dim : nat) : Init Embedding :=
  w ← draw (normal_ num dim);
  mret {| emb_weight := w |}.

(** [nn.LayerNorm(d)]: unit scale, zero shift, [eps = 1e-5]. *)
Definition LayerNorm_init (d : nat) : LayerNorm :=
  {| normalized_shape := d; ln_weight := replicate d 1%R;
     ln_bias := replicate d 0%R; eps := 1e-5%R |}.

(** [nn.Dropout(p)] refuses a probability outside [0, 1]. *)
Definition Dropout_init (p : R) : Init R :=
  if Rle_dec 0 p then
    if Rle_dec p 1 then mret p else lift (Raise ValueError)
  else lift (Raise ValueError).

(** [Head.__init__(self, head_size)]; [n_embd], [block_size] and
    [dropout] are the globals. *)
Definition Head_init (head_size : nat) : Init Head :=
  k ← Linear_init n_embd head_size false;
  q ← Linear_init n_embd head_size false;
  v ← Linear_init n_embd head_size false;
  p ← Dropout_init dropout;
  mret {| key := k; query := q; value := v;
          tril := torch_tril (ones block_size block_size);
          head_dropout := p |}.

(** [MultiHeadAttention.__init__(self, num_heads, head_size)] *)
Definition MultiHeadAttention_init (num_heads head_size : nat)
  : Init MultiHeadAttention :=
  hs ← mapM (fun _ => Head_init head_size) (seq 0 num_heads);
  pr ← Linear_init (head_size * num_heads) n_embd true;
  p ← Dropout_init dropout;
  mret {| heads := hs; proj := pr; mha_dropout := p |}.

(** [FeedFoward.__init__(self, n_embd)] *)
Definition FeedFoward_init (n_embd : nat) : Init FeedFoward :=
  l0 ← Linear_init n_embd (4 * n_embd) true;
  l2 ← Linear_init (4 * n_embd) n_embd true;
  p ← Dropout_init dropout;
  mret {| net_0 := l0; net_2 := l2; net_3 := p |}.

(** [a // b] on Python ints that are not negative. *)
Definition floordiv (a b : nat) : outcome nat :=
  if decide (b = 0) then Raise ZeroDivisionError else Ok (a / b).

(** [Block.__init__(self, n_embd, n_head)] *)
Definition Block_init (n_embd n_head : nat) : Init Block :=
  head_size ← lift (floordiv n_embd n_head);
  s ← MultiHeadAttention_init n_head head_size;
  f ← FeedFoward_init n_embd;
  mret {| sa := s; ffwd := f;
          ln1 := LayerNorm_init n_embd; ln2 := LayerNorm_init n_embd |}.

(** [GPTLanguageModel.__init__(self)] *)
Definition GPTLanguageModel_init : Init GPTLanguageModel :=
  tok ← Embedding_init (vocab_size text) n_embd;
  pos ← Embedding_init block_size n_embd;
  bs ← mapM (fun _ => Block_init n_embd n_head) (seq 0 n_layer);
  lm ← Linear_init n_embd (vocab_size text) true;
  mret {| token_embedding_table := tok; position_embedding_table := pos;
          blocks := bs; ln_f := LayerNorm_init n_embd; lm_head := lm |}.

(** ** Forward passes *)

(** [F.linear]: [x @ weight.T + bias] on the last dimension; the
    width of the input must be [in_features]. *)
Definition Linear_row (l : Linear) (row : list R) : list R :=
  let y := dot row <$> weight l in
  match bias l with
  | Some b => vadd y b
  | None => y
  end.
Definition Linear_forward (l : Linear) (x : tensor3) : outcome tensor3 :=
  if decide (Forall (Forall (fun row => length row = in_features l)) x)
  then Ok (rows (Linear_row l) x)
  else Raise RuntimeError.

(** [nn.Embedding] on a one-dimensional index tensor. *)
Definition Embedding_forward (e : Embedding) (idx : list nat) : outcome mat :=
  mapM (fun i => match emb_weight e !! i with
                 | Some row => Ok row
                 | None => Raise IndexError
                 end) idx.

(** [nn.LayerNorm] over the last dimension (biased variance). *)
Definition LayerNorm_row (ln : LayerNorm) (row : list R) : list R :=
  let k := INR (length row) in
  let mu := (Rsum row / k)%R in
  let var := (Rsum ((fun xi => (xi - mu) * (xi - mu)) <$> row) / k)%R in
  vadd (vmul ((fun xi => (xi - mu) / sqrt (var + eps ln)) <$> row)%R
             (ln_weight ln))
       (ln_bias ln).
Definition LayerNorm_forward (ln : LayerNorm) (x : tensor3) : outcome tensor3 :=
  if decide (Forall (Forall (fun row => length row = normalized_shape ln)) x)
  then Ok (rows (LayerNorm_row ln) x)
  else Raise RuntimeError.

(** [nn.Dropout(p)]: the identity in eval mode; in training mode
    each element is zeroed or scaled by [1/(1-p)]. *)
Definition Dropout_row (p : R) (row : list R) : M (list R) :=
  keep ← with_gen (bernoulli (1 - p) (length row));
  mret (zip_with (fun (k : bool) xi => if k then (xi / (1 - p))%R else 0%R)
                 keep row).
Definition Dropout_forward (p : R) (x : tensor3) : M tensor3 :=
  tr ← is_training;
  if tr : bool then mapM (mapM (Dropout_row p)) x else mret x.

(** [Head.forward], in three steps.  [attention_weights] is the part
    up to the softmax ([k.shape[-1]] is the [out_features] of [key]);
    [Head_forward_trace] is the whole method and also hands back the
    weights it applied (after dropout) and the values it combined;
    [Head_forward] keeps the output only. *)
Definition attention_weights (h : Head) (x : tensor3) : outcome tensor3 :=
  let t := dim1 x in
  k ← Linear_forward (key h) x;
  q ← Linear_forward (query h) x;
  scale ← pow_neg_half (out_features (key h));
  let wei := elems (fun s => (s * scale)%R) (zip_with matmul_nt q k) in
  wei ← masked_fill wei (mask_of (tril h) t);
  mret (rows softmax wei).

Definition Head_forward_trace (h : Head) (x : tensor3)
  : M (tensor3 * tensor3 * tensor3) :=
  wei ← lift (attention_weights h x);
  wei ← Dropout_forward (head_dropout h) wei;
  v ← lift (Linear_forward (value h) x);
  mret (wei, v, zip_with matmul wei v).

Definition Head_forward (h : Head) (x : tensor3) : M tensor3 :=
  '(_, _, out) ← Head_forward_trace h x;
  mret out.

(** [torch.cat(outs, dim=-1)] of tensors that agree on the first two
    dimensions; an empty list raises. *)
Definition torch_cat (outs : list tensor3) : outcome tensor3 :=
  match outs with
  | [] => Raise RuntimeError
  | o :: os => Ok (foldl (zip_with (zip_with app)) o os)
  end.

Definition MultiHeadAttention_forward (m : MultiHeadAttention) (x : tensor3)
  : M tensor3 :=
  outs ← mapM (fun h => Head_forward h x) (heads m);
  out ← lift (torch_cat outs);
  out ← lift (Linear_forward (proj m) out);
  Dropout_forward (mha_dropout m) out.

Definition ReLU (x : tensor3) : tensor3 := elems (Rmax 0) x.

Definition FeedFoward_forward (f : FeedFoward) (x : tensor3) : M tensor3 :=
  x ← lift (Linear_forward (net_0 f) x);
  x ← lift (Linear_forward (net_2 f) (ReLU x));
  Dropout_forward (net_3 f) x.

Definition Block_forward (b : Block) (x : tensor3) : M tensor3 :=
  a ← lift (LayerNorm_forward (ln1 b) x);
  a ← MultiHeadAttention_forward (sa b) a;
  let x := tadd x a in
  f ← lift (LayerNorm_forward (ln2 b) x);
  f ← FeedFoward_forward (ffwd b) f;
  mret (tadd x f).

(** [nn.Sequential] of the blocks, applied in order *)
Fixpoint Sequential_forward (bs : list Block) (x : tensor3) : M tensor3 :=
  match bs with
  | [] => mret x
  | b :: bs => x ← Block_forward b x; Sequential_forward bs x
  end.

(** [F.cross_entropy(logits, targets)] for (N,C) logits and N class
    indices: the mean over the rows of minus the log-softmax at the
    target.  (Targets are not negative here, so [ignore_index] plays no
    part.) *)
Definition log_softmax (row : list R) : list R :=
  (fun x => (x - ln (Rsum (exp <$> row)))%R) <$> row.
Definition nll (row : list R) (t : nat) : outcome pyfloat :=
  match log_softmax row !! t with
  | Some l => Ok (Float (- l))
  | None => Raise IndexError
  end.
Definition cross_entropy (logits : mat) (targets : list nat)
  : outcome pyfloat :=
  if decide (length logits = length targets)
  then mean <$> mapM (fun '(row, t) => nll row t) (zip logits targets)
  else Raise ValueError.

(** [targets.view(k)] of a (B,T) tensor. *)
Definition view1 (targets : list (list nat)) (k : nat) : outcome (list nat) :=
  if decide (length (concat targets) = k) then Ok (concat targets)
  else Raise RuntimeError.

(** [GPTLanguageModel.forward(self, idx, targets=None)] *)
Definition forward (self : GPTLanguageModel) (idx : list (list nat))
    (targets : option (list (list nat))) : M (logits_t * option pyfloat) :=
  let t := dim1 idx in
  tok_emb ← lift (mapM (Embedding_forward (token_embedding_table self)) idx);
  pos_emb ← lift (Embedding_forward (position_embedding_table self) (seq 0 t));
  let x := (fun tb => madd tb pos_emb) <$> tok_emb in
  x ← Sequential_forward (blocks self) x;
  x ← lift (LayerNorm_forward (ln_f self) x);
  logits ← lift (Linear_forward (lm_head self) x);
  match targets with
  | None => mret (Logits3 logits, None)
  | Some targets =>
      let logits := concat logits in
      targets ← lift (view1 targets (length logits));
      loss ← lift (cross_entropy logits targets);
      mret (Logits2 logits, Some loss)
  end.

(** A call [model(...)] of the global model. *)
Definition call_model (idx : list (list nat))
    (targets : option (list (list nat))) : M (logits_t * option pyfloat) :=
  self ← get_model; forward self idx targets.

(** ** Generation *)

(** [row[-k:]]; note that [-0] is [0], so [row[-0:]] is the whole row. *)
Definition crop (k : nat) (row : list nat) : list nat :=
  if decide (k = 0) then row else drop (length row - k) row.

(** [logits[:, -1, :]] *)
Definition last_step (logits : logits_t) : outcome mat :=
  match logits with
  | Logits3 x =>
      mapM (fun m : mat => match last m with
                           | Some row => Ok row
                           | None => Raise IndexError
                           end) x
  | Logits2 _ => Raise IndexError
  end.

(** [torch.multinomial(probs, num_samples=1)]: one index per row. *)
Definition torch_multinomial (probs : mat) : M (list (list nat)) :=
  mapM (fun row : list R =>
          match row with
          | [] => lift (Raise RuntimeError)
          | _ => i ← with_gen (multinomial row); mret [i]
          end) probs.

(** The part of the loop body that looks at the tokens: crop, forward,
    last step, softmax, sample. *)
Definition sample_next (idx_cond : list (list nat)) : M (list (list nat)) :=
  '(logits, loss) ← call_model idx_cond None;
  logits ← lift (last_step logits);
  let probs := (fun row : list R => softmax (Finite <$> row)) <$> logits in
  torch_multinomial probs.

(** One iteration of the loop of [generate]. *)
Definition generate_body (idx : list (list nat)) : M (list (list nat)) :=
  let idx_cond := crop block_size <$> idx in
  idx_next ← sample_next idx_cond;
  mret (zip_with app idx idx_next).

(** [GPTLanguageModel.generate(self, idx, max_new_tokens)] on the
    global model. *)
Fixpoint generate (idx : list (list nat)) (max_new_tokens : nat)
  : M (list (list nat)) :=
  match max_new_tokens with
  | 0 => mret idx
  | S k => idx ← generate_body idx; generate idx k
  end.

(** ** Batches (cell 14) *)

(** [torch.randint(high, (size,))] *)
Definition torch_randint (high : Z) (size : nat) : M (list nat) :=
  if decide (high ≤ 0)%Z then lift (Raise RuntimeError)
  else with_gen (randint (Z.to_nat high) size).

(** [torch.stack(rows)] of one-dimensional tensors. *)
Definition torch_stack (rs : list (list nat)) : outcome (list (list nat)) :=
  match rs with
  | [] => Raise RuntimeError
  | r :: _ =>
      if decide (Forall (fun r' => length r' = length r) rs) then Ok rs
      else Raise RuntimeError
  end.

(** [d[a:b]] for [0 <= a <= b]. *)
Definition slice (d : list nat) (a b : nat) : list nat := take (b - a) (drop a d).

(** [train_data if split == 'train' else val_data] *)
Definition split_data (split : string) : list nat :=
  if String.eqb split "train" then train_data text else val_data text.

(** [get_batch(split)]; [.to(device)] moves the data and is the
    identity here. *)
Definition get_batch (split : string) : M (list (list nat) * list (list nat)) :=
  let data := split_data split in
  ix ← torch_randint (Z.of_nat (length data) - Z.of_nat block_size) batch_size;
  x ← lift (torch_stack ((fun i => slice data i (i + block_size)) <$> ix));
  y ← lift (torch_stack ((fun i => slice data (i + 1) (i + block_size + 1)) <$> ix));
  mret (x, y).

(** ** Loss estimation (cell 16) *)

(** [loss.item()] *)
Definition item (loss : option pyfloat) : outcome pyfloat :=
  match loss with
  | Some l => Ok l
  | None => Raise AttributeError
  end.

(** [estimate_loss()]; [@torch.no_grad()] turns off the recording of
    gradients and changes no value. *)
Definition estimate_loss : M (gmap string pyfloat) :=
  _ ← set_training false;
  out ← foldM (fun (out : gmap string pyfloat) split =>
           losses ← foldM (fun (losses : list pyfloat) k =>
                       '(X, Y) ← get_batch split;
                       '(logits, loss) ← call_model X (Some Y);
                       l ← lift (item loss);
                       mret (<[k := l]> losses))
                     (replicate eval_iters (Float 0)) (seq 0 eval_iters);
           mret (<[split := mean losses]> out))
         ∅ ["train"; "val"]%string;
  _ ← set_training true;
  mret out.

(** ** Training (cell 25) *)

(** [a % b] on Python ints that are not negative. *)
Definition pymod (a b : nat) : outcome nat :=
  if decide (b = 0) then Raise ZeroDivisionError else Ok (a mod b).

(** The body of the training loop; what it prints is not kept. *)
Definition train_iteration (iter : nat) : M unit :=
  r ← lift (pymod iter eval_interval);
  _ ← (if decide (r = 0 ∨ iter = max_iters - 1)
       then losses ← estimate_loss; mret tt
       else mret tt);
  '(xb, yb) ← get_batch "train";
  g ← get_gen;
  '(logits, loss) ← call_model xb (Some yb);
  optimizer_step xb yb g.

(** [for iter in range(max_iters): ...] *)
Definition train : M unit :=
  foldM (fun _ iter => train_iteration iter) tt (seq 0 max_iters).

(** ** The parameter count (cell 24) *)

(** [sum(p.numel() for p in m.parameters())]: the weights and biases
    of every layer; the buffer [tril] is not a parameter. *)
Definition numel2 (w : list (list R)) : N := N.of_nat (length (concat w)).
Definition sumN (l : list N) : N := foldr N.add 0%N l.
Definition Linear_numel (l : Linear) : N :=
  (numel2 (weight l)
   + match bias l with Some b => N.of_nat (length b) | None => 0 end)%N.
Definition LayerNorm_numel (ln : LayerNorm) : N :=
  (N.of_nat (length (ln_weight ln)) + N.of_nat (length (ln_bias ln)))%N.
Definition Head_numel (h : Head) : N :=
  (Linear_numel (key h) + Linear_numel (query h) + Linear_numel (value h))%N.
Definition MultiHeadAttention_numel (m : MultiHeadAttention) : N :=
  (sumN (Head_numel <$> heads m) + Linear_numel (proj m))%N.
Definition FeedFoward_numel (f : FeedFoward) : N :=
  (Linear_numel (net_0 f) + Linear_numel (net_2 f))%N.
Definition Block_numel (b : Block) : N :=
  (MultiHeadAttention_numel (sa b) + FeedFoward_numel (ffwd b)
   + LayerNorm_numel (ln1 b) + LayerNorm_numel (ln2 b))%N.
Definition num_parameters (m : GPTLanguageModel) : N :=
  (numel2 (emb_weight (token_embedding_table m))
   + numel2 (emb_weight (position_embedding_table m))
   + sumN (Block_numel <$> blocks m)
   + LayerNorm_numel (ln_f m) + Linear_numel (lm_head m))%N.

(** ** Sampling (cells 26 and 27) *)

(** [decode(m.generate(context, max_new_tokens=k)[0].tolist())] for
    [context = torch.tensor(encode(prompt), dtype=torch.long)[None, ...]] *)
Definition sample_text (prompt : pystr) (max_new_tokens : nat) : M pystr :=
  context ← lift (encode text prompt);
  out ← generate [context] max_new_tokens;
  row ← lift (match out !! 0 with
              | Some row => Ok row
              | None => Raise IndexError
              end);
  lift (decode text row).

(** ** Shapes

    What the constructors establish, and training preserves. *)

Definition Linear_ok (i o : nat) (b : bool) (l : Linear) : Prop :=
  in_features l = i ∧ out_features l = o ∧
  length (weight l) = o ∧ Forall (fun row => length row = i) (weight l) ∧
  match bias l with
  | Some bv => b = true ∧ length bv = o
  | None => b = false
  end.

Definition Embedding_ok (num dim : nat) (e : Embedding) : Prop :=
  length (emb_weight e) = num ∧
  Forall (fun row => length row = dim) (emb_weight e).

Definition LayerNorm_ok (d : nat) (ln : LayerNorm) : Prop :=
  normalized_shape ln = d ∧ length (ln_weight ln) = d ∧ length (ln_bias ln) = d.

Definition Head_ok (head_size : nat) (h : Head) : Prop :=
  Linear_ok n_embd head_size false (key h) ∧
  Linear_ok n_embd head_size false (query h) ∧
  Linear_ok n_embd head_size false (value h) ∧
  tril h = torch_tril (ones block_size block_size).

Definition MultiHeadAttention_ok (num_heads head_size : nat)
    (m : MultiHeadAttention) : Prop :=
  length (heads m) = num_heads ∧
  Forall (Head_ok head_size) (heads m) ∧
  Linear_ok (head_size * num_heads) n_embd true (proj m).

Definition FeedFoward_ok (d : nat) (f : FeedFoward) : Prop :=
  Linear_ok d (4 * d) true (net_0 f) ∧ Linear_ok (4 * d) d true (net_2 f).

Definition Block_ok (d nh : nat) (b : Block) : Prop :=
  MultiHeadAttention_ok nh (d / nh) (sa b) ∧
  FeedFoward_ok d (ffwd b) ∧
  LayerNorm_ok d (ln1 b) ∧ LayerNorm_ok d (ln2 b).

Definition GPTLanguageModel_ok (m : GPTLanguageModel) : Prop :=
  Embedding_ok (vocab_size text) n_embd (token_embedding_table m) ∧
  Embedding_ok block_size n_embd (position_embedding_table m) ∧
  length (blocks m) = n_layer ∧
  Forall (Block_ok n_embd n_head) (blocks m) ∧
  LayerNorm_ok n_embd (ln_f m) ∧
  Linear_ok n_embd (vocab_size text) true (lm_head m).

(** An index tensor of shape (B,T), and one whose entries are below
    a bound. *)
Definition shape2 {A} (b t : nat) (x : list (list A)) : Prop :=
  length x = b ∧ Forall (fun row => length row = t) x.
Definition shape3 {A} (b t c : nat) (x : list (list (list A))) : Prop :=
  length x = b ∧ Forall (shape2 t c) x.
Definition below (v : nat) (x : list (list nat)) : Prop :=
  Forall (Forall (fun i => i < v)) x.

(** What [forward] returns for a (B,T) input, without and with
    targets. *)
Definition forward_result (b t : nat) (targets : option (list (list nat)))
    (r : logits_t * option pyfloat) : Prop :=
  match targets with
  | None => ∃ x, r = (Logits3 x, None) ∧ shape3 b t (vocab_size text) x
  | Some _ =>
      ∃ x l, r = (Logits2 x, Some l) ∧
             shape2 (b * t) (vocab_size text) x ∧ loss_of (b * t) l
  end.

(** One more token per row, below the vocabulary size. *)
Definition extends (v : nat) (idx idx' : list (list nat)) : Prop :=
  Forall2 (fun row row' => ∃ tok, row' = row ++ [tok] ∧ tok < v) idx idx'.

(** A batch made of the windows that start at the offsets [ix]. *)
Definition windows (d : list nat) (ix : list nat)
    (x y : list (list nat)) : Prop :=
  shape2 batch_size block_size x ∧ shape2 batch_size block_size y ∧
  Forall (fun off => off < length d - block_size) ix ∧
  ∀ i off, ix !! i = Some off →
    ∃ xr yr, x !! i = Some xr ∧ y !! i = Some yr ∧
      ∀ j, j < block_size →
        ∃ a c, d !! (off + j) = Some a ∧ d !! (off + j + 1) = Some c ∧
               xr !! j = Some a ∧ yr !! j = Some c.

(** The shape of returned logits. *)
Definition has_shape (l : logits_t) (dims : list nat) : Prop :=
  match l, dims with
  | Logits3 x, [b; t; c] => shape3 b t c x
  | Logits2 x, [k; c] => shape2 k c x
  | _, _ => False
  end.

(** ** Example inputs

    A model of the constructed shape with every weight equal to [c]. *)

Definition filled_Linear (c : R) (i o : nat) (b : bool) : Linear :=
  {| in_features := i; out_features := o;
     weight := replicate o (replicate i c);
     bias := if b then Some (replicate o c) else None |}.

Definition filled_Head (c : R) (head_size : nat) : Head :=
  {| key := filled_Linear c n_embd head_size false;
     query := filled_Linear c n_embd head_size false;
     value := filled_Linear c n_embd head_size false;
     tril := torch_tril (ones block_size block_size);
     head_dropout := dropout |}.

Definition filled_Block (c : R) (d nh : nat) : Block :=
  {| sa := {| heads := replicate nh (filled_Head c (d / nh));
              proj := filled_Linear c (d / nh * nh) n_embd true;
              mha_dropout := dropout |};
     ffwd := {| net_0 := filled_Linear c d (4 * d) true;
                net_2 := filled_Linear c (4 * d) d true;
                net_3 := dropout |};
     ln1 := LayerNorm_init d; ln2 := LayerNorm_init d |}.

Definition filled_model (c : R) : GPTLanguageModel :=
  {| token_embedding_table :=
       {| emb_weight := replicate (vocab_size text) (replicate n_embd c) |};
     position_embedding_table :=
       {| emb_weight := replicate block_size (replicate n_embd c) |};
     blocks := replicate n_layer (filled_Block c n_embd n_head);
     ln_f := LayerNorm_init n_embd;
     lm_head := filled_Linear c n_embd (vocab_size text) true |}.

(** The notebook right after cell 24: the model in training mode. *)
Definition start (m : GPTLanguageModel) (g : rng) (o : opt_state) : world :=
  {| model := m; training := true; gen := g; optimizer := o |}.

(** The same after [model.eval()]. *)
Definition evaluating (m : GPTLanguageModel) (g : rng) (o : opt_state)
  : world :=
  {| model := m; training := false; gen := g; optimizer := o |}.
End notebook.

(** A configuration small enough to run, one whose embedding width is
    not a multiple of the head count, and a corpus. *)
Definition tiny_hyper : Hyper := {|
  batch_size := 2;
  block_size := 2;
  max_iters := 1;
  eval_interval := 1;
  learning_rate := 3e-4;
  eval_iters := 1;
  n_embd := 2;
  n_head := 1;
  n_layer := 1;
  dropout := 0;
|}.

Definition odd_hyper : Hyper := {|
  batch_size := 2;
  block_size := 2;
  max_iters := 1;
  eval_interval := 1;
  learning_rate := 3e-4;
  eval_iters := 1;
  n_embd := 3;
  n_head := 2;
  n_layer := 1;
  dropout := 0;
|}.

(** A configuration that never evaluates and has no evaluation
    interval. *)
Definition no_eval_hyper : Hyper := {|
  batch_size := 2;
  block_size := 2;
  max_iters := 1;
  eval_interval := 0;
  learning_rate := 3e-4;
  eval_iters := 0;
  n_embd := 2;
  n_head := 1;
  n_layer := 1;
  dropout := 0;
|}.

Definition abab : list N := py "abababababababababababababababababababab".

(** A corpus with the 65 symbols that cell 8 prints: the line feed and
    the 64 printable ones. *)
Definition symbols65 : list N :=
  10%N :: py " !$&',-.3:;?ABCDEFGHIJKLMNOPQRSTUVWXYZabcdefghijklmnopqrstuvwxyz".

(** * Proofs

    ** Tokenizer *)

Lemma fold_insert_list_to_map `{Countable K} {V} (kvs : list (K * V)) (acc : gmap K V) :
  fold_left (fun m kv => <[kv.1 := kv.2]> m) kvs acc = list_to_map (reverse kvs) ∪ acc.
Proof.
  revert acc. induction kvs as [|[k v] kvs IH]; intros acc; simpl.
  - change (acc = ∅ ∪ acc). by rewrite (left_id_L ∅ (∪)).
  - rewrite IH, reverse_cons, list_to_map_app. simpl.
    rewrite <- (assoc_L (∪)). f_equal.
    by rewrite insert_empty, <- insert_union_singleton_l.
Qed.

Lemma dict_of_lookup `{Countable K} {V} (kvs : list (K * V)) k v :
  NoDup (kvs.*1) → (k, v) ∈ kvs → dict_of kvs !! k = Some v.
Proof.
  intros Hnd Hin. unfold dict_of. rewrite fold_insert_list_to_map, (right_id_L ∅ (∪)).
  apply elem_of_list_to_map_1.
  - by rewrite fmap_reverse, reverse_Permutation.
  - by apply elem_of_reverse_2.
Qed.

Lemma getitem_Some `{Countable K} {V} (d : gmap K V) k v :
  d !! k = Some v → getitem d k = Ok v.
Proof. intros Hk. unfold getitem. by rewrite Hk. Qed.

Lemma mapM_outcome_cons {A B} (f : A → outcome B) x l :
  mapM f (x :: l) = y ← f x; k ← mapM f l; mret (y :: k).
Proof. reflexivity. Qed.

Section tokenizer_facts.
Variable text : pystr.

Lemma chars_perm : chars text ≡ₚ elements (list_to_set text : gset N).
Proof. apply merge_sort_Permutation. Qed.

Lemma NoDup_chars : NoDup (chars text).
Proof. rewrite chars_perm. apply NoDup_elements. Qed.

Lemma elem_of_chars c : c ∈ chars text ↔ c ∈ text.
Proof. rewrite chars_perm, elem_of_elements. apply elem_of_list_to_set. Qed.

Lemma enumerate_lookup {A} (l : list A) i x :
  l !! i = Some x → (i, x) ∈ enumerate l.
Proof.
  intros Hi. unfold enumerate. apply list_elem_of_lookup. exists i.
  apply lookup_zip_with_Some. exists i, x. split; [done|]. split; [|done].
  apply lookup_seq. split; [done|]. by eapply lookup_lt_Some.
Qed.

Lemma enumerate_fst {A} (l : list A) : (enumerate l).*1 = seq 0 (length l).
Proof. unfold enumerate. apply fst_zip. by rewrite length_seq. Qed.

Lemma enumerate_snd {A} (l : list A) : (enumerate l).*2 = l.
Proof. unfold enumerate. apply snd_zip. by rewrite length_seq. Qed.

Lemma stoi_lookup i c : chars text !! i = Some c → stoi text !! c = Some i.
Proof.
  intros Hi. unfold stoi. apply dict_of_lookup.
  - rewrite <- list_fmap_compose.
    rewrite (list_fmap_ext _ snd) by (by intros ? [??]).
    rewrite enumerate_snd. apply NoDup_chars.
  - apply list_elem_of_fmap. exists (i, c). split; [done|]. by apply enumerate_lookup.
Qed.

Lemma itos_lookup i c : chars text !! i = Some c → itos text !! i = Some [c].
Proof.
  intros Hi. unfold itos. apply dict_of_lookup.
  - rewrite <- list_fmap_compose.
    rewrite (list_fmap_ext _ fst) by (by intros ? [??]).
    rewrite enumerate_fst. apply NoDup_seq.
  - apply list_elem_of_fmap. exists (i, c). split; [done|]. by apply enumerate_lookup.
Qed.

Lemma encode_in_vocab (s : pystr) :
  Forall (λ c, c ∈ text) s →
  ∃ l, encode text s = Ok l ∧ Forall2 (λ c i, chars text !! i = Some c) s l.
Proof.
  unfold encode. induction 1 as [|c s Hc _ (l & Hl & IH)].
  - exists []. by split.
  - apply elem_of_chars, list_elem_of_lookup in Hc as [i Hi].
    exists (i :: l). split; [|by constructor].
    rewrite mapM_outcome_cons, (getitem_Some _ _ _ (stoi_lookup _ _ Hi)), Hl.
    reflexivity.
Qed.

Lemma decode_of_chars (s : pystr) (l : list nat) :
  Forall2 (λ c i, chars text !! i = Some c) s l → decode text l = Ok s.
Proof.
  unfold decode. induction 1 as [|c i s l Hi _ IH]; [done|].
  rewrite mapM_outcome_cons. erewrite getitem_Some by (by apply itos_lookup).
  destruct (mapM (getitem (itos text)) l) as [parts|e]; [|discriminate IH].
  injection IH as <-. reflexivity.
Qed.
End tokenizer_facts.

(** ** Split *)

Lemma Qfloor_nine_tenths (z : Z) :
  Qfloor (0.9 * inject_Z z) = (9 * z / 10)%Z.
Proof. unfold Qfloor, Qmult, inject_Z. simpl. f_equal. Qed.

Lemma encode_text (text : pystr) : encode text text = Ok (data text).
Proof.
  unfold data.
  destruct (encode_in_vocab text text) as (l & -> & _); [|done].
  by apply Forall_forall.
Qed.

Lemma length_data (text : pystr) : length (data text) = length text.
Proof.
  unfold data.
  destruct (encode_in_vocab text text) as (l & -> & Hl); [by apply Forall_forall|].
  symmetry. by eapply Forall2_length.
Qed.

Lemma n_floor (text : pystr) :
  Z.of_nat (n text) = (9 * Z.of_nat (length (data text)) / 10)%Z.
Proof.
  unfold n. rewrite Qfloor_nine_tenths, Z2Nat.id; [done|].
  apply Z.div_pos; lia.
Qed.

Lemma n_le (text : pystr) : n text ≤ length (data text).
Proof.
  pose proof (n_floor text) as Hn.
  assert (9 * Z.of_nat (length (data text)) / 10 ≤ Z.of_nat (length (data text)))%Z; [|lia].
  apply Z.div_le_upper_bound; lia.
Qed.

(** The binary64 computation is the exact one on every length below
    65,536 and on the length of the corpus the notebook downloads
    (1,115,394 characters). *)

Import Binary64.

Lemma agree_range_sound k start :
  agree_range k start = true →
  ∀ len, (start <= len < start + Zpos k)%Z → agrees len = true.
Proof.
  revert start. induction k as [k IH|k IH|]; intros start Hk len Hlen; simpl in Hk.
  - apply andb_prop in Hk as [Hk H2]. apply andb_prop in Hk as [H0 H1].
    destruct (decide (len = start)) as [->|]; [done|].
    destruct (decide (len < start + 1 + Zpos k)%Z).
    + apply (IH _ H1). lia.
    + apply (IH _ H2). lia.
  - apply andb_prop in Hk as [H1 H2].
    destruct (decide (len < start + Zpos k)%Z).
    + apply (IH _ H1). lia.
    + apply (IH _ H2). lia.
  - by replace len with start by lia.
Qed.

Lemma agree_short_corpora : agree_range 65536 0 = true.
Proof. vm_cast_no_check (eq_refl true). Qed.

Lemma agree_tiny_shakespeare : agrees 1115394 = true.
Proof. vm_cast_no_check (eq_refl true). Qed.

Lemma n_binary64_exact (len : Z) :
  (0 <= len < 65536)%Z ∨ len = 1115394%Z →
  n_binary64 len = Qfloor (0.9 * inject_Z len).
Proof.
  intros [Hlen| ->]; apply Z.eqb_eq.
  - apply (agree_range_sound 65536 0 agree_short_corpora). lia.
  - apply agree_tiny_shakespeare.
Qed.

Lemma n_as_python_computes (text : list N) :
  (Z.of_nat (length text) < 65536)%Z ∨ Z.of_nat (length text) = 1115394%Z →
  Z.of_nat (n text) = n_binary64 (Z.of_nat (length (data text))).
Proof.
  intros Hlen. rewrite n_binary64_exact by (rewrite length_data; lia).
  rewrite Qfloor_nine_tenths. apply n_floor.
Qed.

(** ** Reasoning about computations *)

Lemma bind_Ok {S A B} (m : ST S A) (f : A → ST S B) s a s' :
  m s = (Ok a, s') → (m ≫= f) s = f a s'.
Proof. intros Hm. unfold mbind, ST_bind. by rewrite Hm. Qed.

Lemma bind_Raise {S A B} (m : ST S A) (f : A → ST S B) s e s' :
  m s = (Raise e, s') → (m ≫= f) s = (Raise e, s').
Proof. intros Hm. unfold mbind, ST_bind. by rewrite Hm. Qed.

Lemma bind_Ok_inv {S A B} (m : ST S A) (f : A → ST S B) s b s' :
  (m ≫= f) s = (Ok b, s') → ∃ a s1, m s = (Ok a, s1) ∧ f a s1 = (Ok b, s').
Proof.
  unfold mbind, ST_bind. destruct (m s) as [[a|e] s1]; [|done].
  intros Hf. by exists a, s1.
Qed.

Lemma obind_Ok {A B} (m : outcome A) (f : A → outcome B) a :
  m = Ok a → m ≫= f = f a.
Proof. by intros ->. Qed.

Lemma yields_ret {S A} (a : A) (s : S) (Q : A → S → Prop) :
  Q a s → yields (mret a) s Q.
Proof. intros HQ. by exists a, s. Qed.

Lemma yields_bind {S A B} (m : ST S A) (f : A → ST S B) s
    (P : A → S → Prop) (Q : B → S → Prop) :
  yields m s P →
  (∀ a s', P a s' → yields (f a) s' Q) →
  yields (m ≫= f) s Q.
Proof.
  intros (a & s' & Hm & HP) Hf.
  destruct (Hf a s' HP) as (b & s'' & Hfa & HQ).
  exists b, s''. split; [|done]. by rewrite (bind_Ok _ _ _ _ _ Hm).
Qed.

Lemma yields_lift {S A} (o : outcome A) (s : S) a (Q : A → S → Prop) :
  o = Ok a → Q a s → yields (lift o) s Q.
Proof. intros -> HQ. by exists a, s. Qed.

Lemma yields_mono {S A} (m : ST S A) s (P Q : A → S → Prop) :
  yields m s P → (∀ a s', P a s' → Q a s') → yields m s Q.
Proof. intros (a & s' & Hm & HP) HPQ. exists a, s'. auto. Qed.

Lemma mapM_ST_cons {S A B} (f : A → ST S B) x l :
  mapM f (x :: l) = y ← f x; k ← mapM f l; mret (y :: k).
Proof. reflexivity. Qed.

(** A loop over a list whose every step returns, under an invariant
    [I] of the state. *)
Lemma yields_mapM {S A B} (f : A → ST S B) (I : S → Prop)
    (P : A → B → Prop) l s :
  I s →
  (∀ x s0, x ∈ l → I s0 → yields (f x) s0 (fun y s1 => P x y ∧ I s1)) →
  yields (mapM f l) s (fun out s1 => Forall2 P l out ∧ I s1).
Proof.
  revert s. induction l as [|x l IH]; intros s HI Hf.
  - apply yields_ret. by split.
  - rewrite mapM_ST_cons.
    eapply yields_bind; [apply Hf; [left|done]|].
    intros y s1 [Hy HI1].
    eapply yields_bind; [apply IH; [done|]|].
    + intros x' s0 Hx'. apply Hf. by right.
    + intros k s2 [Hk HI2]. apply yields_ret. split; [by constructor|done].
Qed.

Lemma yields_foldM {S A B} (f : B → A → ST S B) (I : B → S → Prop) l b s :
  I b s →
  (∀ b0 x s0, x ∈ l → I b0 s0 → yields (f b0 x) s0 I) →
  yields (foldM f b l) s I.
Proof.
  revert b s. induction l as [|x l IH]; intros b s HI Hf; simpl.
  - by apply yields_ret.
  - eapply yields_bind; [apply Hf; [left|done]|].
    intros b' s' HI'. apply IH; [done|].
    intros b0 x' s0 Hx'. apply Hf. by right.
Qed.

(** The same for pure, possibly raising, loops. *)
Lemma mapM_outcome_Ok {A B} (f : A → outcome B) (P : A → B → Prop) l :
  (∀ x, x ∈ l → ∃ y, f x = Ok y ∧ P x y) →
  ∃ out, mapM f l = Ok out ∧ Forall2 P l out.
Proof.
  induction l as [|x l IH]; intros Hf.
  - exists []. by split.
  - destruct (Hf x) as (y & Hy & HP); [left|].
    destruct IH as (out & Hout & HF); [intros x' Hx'; apply Hf; by right|].
    exists (y :: out). split; [|by constructor].
    by rewrite mapM_outcome_cons, Hy, Hout.
Qed.

(** ** Shapes of the tensor operations *)

Lemma shape2_rows_length {A} b t (x : list (list A)) row :
  shape2 b t x → row ∈ x → length row = t.
Proof. intros [_ Hx] Hin. by eapply Forall_forall in Hx. Qed.

Lemma shape3_Forall {A} b t c (x : list (list (list A))) :
  shape3 b t c x → Forall (Forall (fun row => length row = c)) x.
Proof.
  intros [_ Hx]. eapply Forall_impl; [exact Hx|]. by intros m [_ Hm].
Qed.

Lemma shape3_rows {A B} (f : list A → list B) b t c c' x :
  (∀ row, length row = c → length (f row) = c') →
  shape3 b t c x → shape3 b t c' (rows f x).
Proof.
  intros Hf [Hb Hx]. split; [unfold rows; by rewrite length_fmap|].
  unfold rows. apply Forall_fmap. eapply Forall_impl; [exact Hx|].
  intros m [Ht Hm]. split; [by rewrite length_fmap|].
  apply Forall_fmap. eapply Forall_impl; [exact Hm|]. intros row. apply Hf.
Qed.

Lemma shape3_elems {A B} (f : A → B) b t c x :
  shape3 b t c x → shape3 b t c (elems f x).
Proof. apply shape3_rows. intros row <-. apply length_fmap. Qed.

Lemma shape2_zip_with {A B C} (f : A → B → C) b t (x : list (list A)) (y : list (list B)) :
  shape2 b t x → shape2 b t y → shape2 b t (zip_with (zip_with f) x y).
Proof.
  intros [Hb Hx] [Hb' Hy]. split; [rewrite length_zip_with; lia|].
  apply Forall_forall. intros r Hr.
  apply list_elem_of_lookup in Hr as [i Hi].
  apply lookup_zip_with_Some in Hi as (rx & ry & -> & Hrx & Hry).
  rewrite length_zip_with.
  apply list_elem_of_lookup_2 in Hrx, Hry.
  rewrite Forall_forall in Hx. rewrite Forall_forall in Hy.
  rewrite (Hx _ Hrx), (Hy _ Hry). lia.
Qed.

Lemma shape3_tadd b t c x y :
  shape3 b t c x → shape3 b t c y → shape3 b t c (tadd x y).
Proof.
  intros [Hb Hx] [Hb' Hy]. split; [unfold tadd; rewrite length_zip_with; lia|].
  apply Forall_forall. intros m Hm.
  apply list_elem_of_lookup in Hm as [i Hi].
  apply lookup_zip_with_Some in Hi as (mx & my & -> & Hmx & Hmy).
  apply list_elem_of_lookup_2 in Hmx, Hmy.
  rewrite Forall_forall in Hx. rewrite Forall_forall in Hy.
  apply (shape2_zip_with Rplus); auto.
Qed.

Lemma length_Linear_row i o b l row :
  Linear_ok i o b l → length (Linear_row l row) = o.
Proof.
  intros (_ & _ & Hw & _ & Hb). unfold Linear_row.
  destruct (bias l) as [bv|].
  - destruct Hb as [_ Hbv]. unfold vadd. rewrite length_zip_with, length_fmap. lia.
  - by rewrite length_fmap.
Qed.

Lemma Linear_forward_shape i o bb l b t x :
  Linear_ok i o bb l → shape3 b t i x →
  ∃ y, Linear_forward l x = Ok y ∧ y = rows (Linear_row l) x ∧ shape3 b t o y.
Proof.
  intros Hl Hx. exists (rows (Linear_row l) x). split; [|split; [done|]].
  - unfold Linear_forward. rewrite decide_True; [done|].
    destruct Hl as (-> & _). by eapply shape3_Forall.
  - eapply shape3_rows; [|exact Hx]. intros row _. by eapply length_Linear_row.
Qed.

Lemma length_LayerNorm_row d ln row :
  LayerNorm_ok d ln → length row = d → length (LayerNorm_row ln row) = d.
Proof.
  intros (_ & Hw & Hb) Hrow. unfold LayerNorm_row, vadd, vmul.
  rewrite !length_zip_with, length_fmap. lia.
Qed.

Lemma LayerNorm_forward_shape d ln b t x :
  LayerNorm_ok d ln → shape3 b t d x →
  ∃ y, LayerNorm_forward ln x = Ok y ∧ shape3 b t d y.
Proof.
  intros Hl Hx. exists (rows (LayerNorm_row ln) x). split.
  - unfold LayerNorm_forward. rewrite decide_True; [done|].
    destruct Hl as (-> & _). by eapply shape3_Forall.
  - eapply shape3_rows; [|exact Hx]. intros row. by apply length_LayerNorm_row.
Qed.

(** ** Sums of reals *)

Lemma Rsum_cons x l : Rsum (x :: l) = (x + Rsum l)%R.
Proof. reflexivity. Qed.

Lemma Rsum_app l k : Rsum (l ++ k) = (Rsum l + Rsum k)%R.
Proof. induction l as [|x l IH]; simpl; [lra|]. rewrite IH. lra. Qed.

Lemma Rsum_nonneg l : Forall (fun x => (0 <= x)%R) l → (0 <= Rsum l)%R.
Proof. induction 1; simpl; lra. Qed.

Lemma Rsum_ge_elem l i x :
  Forall (fun y => (0 <= y)%R) l → l !! i = Some x → (x <= Rsum l)%R.
Proof.
  intros Hl. revert i. induction Hl as [|y l Hy Hl IH]; intros i Hi; [done|].
  pose proof (Rsum_nonneg l Hl).
  destruct i as [|i]; simpl in *.
  - injection Hi as ->. lra.
  - specialize (IH i Hi). lra.
Qed.

Lemma Rsum_div l s : Rsum ((fun e => (e / s)%R) <$> l) = (Rsum l / s)%R.
Proof.
  induction l as [|x l IH]; [simpl; lra|].
  rewrite fmap_cons, !Rsum_cons, IH. lra.
Qed.

Lemma xexp_nonneg x : (0 <= xexp x)%R.
Proof. destruct x; simpl; [left; apply exp_pos|lra]. Qed.

(** ** Softmax *)

Lemma length_softmax row : length (softmax row) = length row.
Proof. unfold softmax. by rewrite !length_fmap. Qed.

Lemma softmax_lookup row j x :
  row !! j = Some x →
  softmax row !! j = Some (xexp x / Rsum (xexp <$> row))%R.
Proof. intros Hj. unfold softmax. by rewrite !list_lookup_fmap, Hj. Qed.

Lemma softmax_NegInf row j :
  row !! j = Some NegInf → softmax row !! j = Some 0%R.
Proof.
  intros Hj. rewrite (softmax_lookup _ _ _ Hj). simpl. f_equal.
  unfold Rdiv. apply Rmult_0_l.
Qed.

Lemma softmax_denominator_pos row i r :
  row !! i = Some (Finite r) → (0 < Rsum (xexp <$> row))%R.
Proof.
  intros Hi. eapply Rlt_le_trans; [apply (exp_pos r)|].
  apply (Rsum_ge_elem _ i).
  - apply Forall_fmap, Forall_forall. intros x _. apply xexp_nonneg.
  - by rewrite list_lookup_fmap, Hi.
Qed.

Lemma softmax_nonneg row i r :
  row !! i = Some (Finite r) → Forall (fun p => (0 <= p)%R) (softmax row).
Proof.
  intros Hi. pose proof (softmax_denominator_pos _ _ _ Hi) as Hs.
  unfold softmax. apply Forall_fmap, Forall_fmap, Forall_forall.
  intros x _. simpl. apply Rmult_le_pos; [apply xexp_nonneg|].
  left. by apply Rinv_0_lt_compat.
Qed.

Lemma softmax_sum row i r :
  row !! i = Some (Finite r) → Rsum (softmax row) = 1%R.
Proof.
  intros Hi. pose proof (softmax_denominator_pos _ _ _ Hi) as Hs.
  unfold softmax. rewrite Rsum_div. field. lra.
Qed.

Lemma softmax_le_1 row i r j p :
  row !! i = Some (Finite r) → softmax row !! j = Some p → (0 <= p <= 1)%R.
Proof.
  intros Hi Hj. pose proof (softmax_nonneg _ _ _ Hi) as Hnn. split.
  - eapply Forall_forall in Hnn; [exact Hnn|]. by eapply list_elem_of_lookup_2.
  - rewrite <- (softmax_sum _ _ _ Hi). by eapply Rsum_ge_elem.
Qed.

(** ** The causal mask *)

Lemma eq0_1 : eq0 1 = false.
Proof. unfold eq0. destruct (Req_dec_T 1 0) as [E|_]; [lra|done]. Qed.

Lemma eq0_0 : eq0 0 = true.
Proof. unfold eq0. by destruct (Req_dec_T 0 0). Qed.

Lemma tril_ones_row bs i :
  i < bs →
  torch_tril (ones bs bs) !! i
  = Some (imap (fun j x => if decide (j ≤ i) then x else 0%R) (replicate bs 1%R)).
Proof.
  intros Hi. unfold torch_tril, ones.
  by rewrite list_lookup_imap, lookup_replicate_2.
Qed.

Lemma tril_row_lookup bs i j :
  j < bs →
  imap (fun j x => if decide (j ≤ i) then x else 0%R) (replicate bs 1%R) !! j
  = Some (if decide (j ≤ i) then 1%R else 0%R).
Proof. intros Hj. by rewrite list_lookup_imap, lookup_replicate_2. Qed.

Lemma mask_of_tril bs t :
  t ≤ bs →
  mask_of (torch_tril (ones bs bs)) t
  = (fun i => (fun j => bool_decide (i < j)) <$> seq 0 t) <$> seq 0 t.
Proof.
  intros Ht. unfold mask_of. apply list_eq. intros i.
  rewrite !list_lookup_fmap.
  destruct (decide (i < t)) as [Hi|Hi].
  - rewrite lookup_take_lt, lookup_seq_lt by done.
    rewrite tril_ones_row by lia.
    simpl. f_equal. apply list_eq. intros j.
    rewrite !list_lookup_fmap.
    destruct (decide (j < t)) as [Hj|Hj].
    + rewrite lookup_take_lt, lookup_seq_lt by done.
      rewrite tril_row_lookup by lia.
      simpl. f_equal. case_decide.
      * rewrite eq0_1. symmetry. apply bool_decide_eq_false. lia.
      * rewrite eq0_0. symmetry. apply bool_decide_eq_true. lia.
    + rewrite lookup_take_ge, lookup_seq_ge by lia. done.
  - rewrite lookup_take_ge, lookup_seq_ge by lia. done.
Qed.

(** ** Masked softmax *)

Lemma fill_row_lookup t i (row : list R) j x :
  length row = t → row !! j = Some x →
  fill_row ((fun j => bool_decide (i < j)) <$> seq 0 t) row !! j
  = Some (if bool_decide (i < j) then NegInf else Finite x).
Proof.
  intros Hlen Hj. unfold fill_row. apply lookup_zip_with_Some.
  exists (bool_decide (i < j)), x. split; [done|]. split; [|done].
  rewrite list_lookup_fmap, lookup_seq_lt; [done|].
  apply lookup_lt_Some in Hj. lia.
Qed.

Lemma length_fill_row t i (row : list R) :
  length row = t →
  length (fill_row ((fun j => bool_decide (i < j)) <$> seq 0 t) row) = t.
Proof.
  intros Hlen. unfold fill_row.
  rewrite length_zip_with, length_fmap, length_seq. lia.
Qed.

Lemma masked_softmax_row t i (row0 : list R) :
  length row0 = t → i < t →
  let row := softmax (fill_row ((fun j => bool_decide (i < j)) <$> seq 0 t) row0) in
  length row = t ∧
  (∀ j, i < j → j < t → row !! j = Some 0%R) ∧
  Forall (fun p => (0 <= p)%R) row ∧ Rsum row = 1%R.
Proof.
  intros Hlen Hi row.
  destruct (lookup_lt_is_Some_2 row0 i) as [x Hx]; [lia|].
  pose proof (fill_row_lookup t i row0 i x Hlen Hx) as Hdiag.
  rewrite bool_decide_eq_false_2 in Hdiag by lia.
  repeat split.
  - unfold row. rewrite length_softmax. by apply length_fill_row.
  - intros j Hij Hj.
    destruct (lookup_lt_is_Some_2 row0 j) as [y Hy]; [lia|].
    apply softmax_NegInf.
    rewrite (fill_row_lookup t i row0 j y Hlen Hy).
    by rewrite bool_decide_eq_true_2.
  - by eapply softmax_nonneg.
  - by eapply softmax_sum.
Qed.

Lemma masked_softmax_mat t (w0 : mat) :
  shape2 t t w0 →
  let w := softmax <$> zip_with fill_row (causal_mask t) w0 in
  shape2 t t w ∧ causal w ∧ distributions w.
Proof.
  intros [Hlen Hrows] w.
  assert (Hrow : ∀ i row, w !! i = Some row →
            ∃ row0, w0 !! i = Some row0 ∧ length row0 = t ∧ i < t ∧
              row = softmax (fill_row ((fun j => bool_decide (i < j)) <$> seq 0 t) row0)).
  { intros i row Hi. unfold w in Hi. rewrite list_lookup_fmap in Hi.
    apply fmap_Some in Hi as (fr & Hfr & ->).
    apply lookup_zip_with_Some in Hfr as (ms & row0 & -> & Hms & Hrow0).
    unfold causal_mask in Hms. rewrite list_lookup_fmap in Hms.
    apply fmap_Some in Hms as (i' & Hi' & ->).
    apply lookup_seq in Hi' as [-> Hit]. simpl.
    exists row0. repeat split; [done| |done].
    eapply Forall_forall in Hrows; [exact Hrows|]. by eapply list_elem_of_lookup_2. }
  repeat split.
  - unfold w, causal_mask.
    rewrite length_fmap, length_zip_with, length_fmap, length_seq. lia.
  - apply Forall_forall. intros row Hin.
    apply list_elem_of_lookup in Hin as [i Hi].
    destruct (Hrow i row Hi) as (row0 & _ & Hl0 & Hit & ->).
    by apply masked_softmax_row.
  - intros i row j Hi Hij Hj.
    destruct (Hrow i row Hi) as (row0 & _ & Hl0 & Hit & ->).
    destruct (masked_softmax_row t i row0 Hl0 Hit) as (Hl & Hz & _).
    apply Hz; [done|]. by rewrite <- Hl.
  - apply Forall_forall. intros row Hin.
    apply list_elem_of_lookup in Hin as [i Hi].
    destruct (Hrow i row Hi) as (row0 & _ & Hl0 & Hit & ->).
    by apply masked_softmax_row.
Qed.

(** ** Shapes that depend on the first element *)

Lemma shape3_nil {A} t c : shape3 0 t c (@nil (list (list A))).
Proof. by split. Qed.

Lemma shape3_dim1 {A} b t c (x : list (list (list A))) :
  shape3 b t c x → shape3 b (dim1 x) c x ∧ (x = [] ∨ dim1 x = t).
Proof.
  intros [Hb Hx]. destruct x as [|m x]; [by split; [split|left]|].
  apply Forall_cons in Hx as [[Hm Hmr] Hx].
  unfold dim1. simpl. rewrite Hm. split; [|by right].
  split; [done|]. constructor; [by split|done].
Qed.

Lemma dim1_shape3 {A} b t c (x : list (list (list A))) :
  shape3 b t c x → 0 < b → dim1 x = t.
Proof.
  intros [Hb Hx] Hpos. destruct x as [|m x]; [simpl in Hb; lia|].
  apply Forall_cons in Hx as [[Hm _] _]. done.
Qed.

Lemma dim1_shape2 {A} b t (x : list (list A)) :
  shape2 b t x → 0 < b → dim1 x = t.
Proof.
  intros [Hb Hx] Hpos. destruct x as [|m x]; [simpl in Hb; lia|].
  by apply Forall_cons in Hx as [Hm _].
Qed.

Lemma shape2_matmul_nt t t' (q k : mat) :
  length q = t → length k = t' → shape2 t t' (matmul_nt q k).
Proof.
  intros Hq Hk. unfold matmul_nt. split; [by rewrite length_fmap|].
  apply Forall_fmap, Forall_forall. intros r _. simpl. by rewrite length_fmap.
Qed.

Lemma shape3_zip_with {A B C} (f : list (list A) → list (list B) → list (list C))
    b t c t' c' t'' c'' x y :
  (∀ mx my, shape2 t c mx → shape2 t' c' my → shape2 t'' c'' (f mx my)) →
  shape3 b t c x → shape3 b t' c' y → shape3 b t'' c'' (zip_with f x y).
Proof.
  intros Hf [Hb Hx] [Hb' Hy]. split; [rewrite length_zip_with; lia|].
  apply Forall_forall. intros m Hm.
  apply list_elem_of_lookup in Hm as [i Hi].
  apply lookup_zip_with_Some in Hi as (mx & my & -> & Hmx & Hmy).
  apply list_elem_of_lookup_2 in Hmx, Hmy.
  rewrite Forall_forall in Hx. rewrite Forall_forall in Hy. auto.
Qed.

Section attention.
Context `{Hyper} `{TorchRandom} `{!Optimizer rng}.

Lemma frame_refl w : frame w w.
Proof. by split. Qed.

Lemma frame_trans w1 w2 w3 : frame w1 w2 → frame w2 w3 → frame w1 w3.
Proof. intros (? & ? & ?) (? & ? & ?). repeat split; congruence. Qed.

Lemma runs_ret {A} (a : A) w (Q : A → Prop) : Q a → runs (mret a) w Q.
Proof. intros HQ. apply yields_ret. split; [done|apply frame_refl]. Qed.

Lemma runs_bind {A B} (m : M A) (f : A → M B) w (P : A → Prop) (Q : B → Prop) :
  runs m w P →
  (∀ a w', frame w w' → P a → runs (f a) w' Q) →
  runs (m ≫= f) w Q.
Proof.
  intros Hm Hf. eapply yields_bind; [exact Hm|].
  intros a w' [HP Hfr]. eapply yields_mono; [by apply Hf|].
  intros b w'' [HQ Hfr']. split; [done|]. by eapply frame_trans.
Qed.

Lemma runs_lift {A} (o : outcome A) w a (Q : A → Prop) :
  o = Ok a → Q a → runs (lift o) w Q.
Proof. intros Ho HQ. eapply yields_lift; [done|]. split; [done|apply frame_refl]. Qed.

Lemma runs_mono {A} (m : M A) w (P Q : A → Prop) :
  runs m w P → (∀ a, P a → Q a) → runs m w Q.
Proof. intros Hm HPQ. eapply yields_mono; [exact Hm|]. intros a w' [??]. auto. Qed.

Lemma runs_with_gen {A} (f : rng → A * rng) w (Q : A → Prop) :
  (∀ g, Q (f g).1) → runs (with_gen f) w Q.
Proof.
  intros HQ. unfold runs, yields, with_gen.
  specialize (HQ (gen w)). destruct (f (gen w)) as [a g'].
  eexists _, _. split; [done|]. split; [done|]. by split.
Qed.

Lemma runs_is_training w (Q : bool → Prop) :
  Q (training w) → runs is_training w Q.
Proof. intros HQ. eexists _, _. split; [done|]. split; [done|apply frame_refl]. Qed.

Lemma runs_get_model w (Q : GPTLanguageModel → Prop) :
  Q (model w) → runs get_model w Q.
Proof. intros HQ. eexists _, _. split; [done|]. split; [done|apply frame_refl]. Qed.

Lemma runs_mapM {A B} (f : A → M B) (P : A → B → Prop) l w :
  (∀ x w', x ∈ l → frame w w' → runs (f x) w' (P x)) →
  runs (mapM f l) w (fun out => Forall2 P l out).
Proof.
  intros Hf. apply (yields_mapM f (frame w) P); [apply frame_refl|].
  intros x w' Hx Hfr. eapply yields_mono; [by apply Hf|].
  intros y w'' [HP Hfr']. split; [done|]. by eapply frame_trans.
Qed.

(** *** Dropout *)

Lemma Dropout_row_spec p row w :
  runs (Dropout_row p row) w (Forall2 (dropped1 p) row).
Proof.
  unfold Dropout_row.
  eapply runs_bind.
  - apply (runs_with_gen _ _ (fun keep => length keep = length row)).
    intros g. apply length_bernoulli.
  - intros keep w' _ Hlen. apply runs_ret.
    revert keep Hlen. induction row as [|xi row IH]; intros keep Hlen.
    + destruct keep; [constructor|done].
    + destruct keep as [|k keep]; [done|]. simpl in Hlen.
      change (Forall2 (dropped1 p) (xi :: row)
                ((if k then (xi / (1 - p))%R else 0%R)
                 :: zip_with (fun (k : bool) xi =>
                                if k then (xi / (1 - p))%R else 0%R) keep row)).
      constructor; [|apply IH; lia].
      destruct k; [right; by right|right; by left].
Qed.

Lemma Dropout_forward_spec p x w :
  runs (Dropout_forward p x) w (dropped p x).
Proof.
  unfold Dropout_forward.
  eapply runs_bind; [by apply (runs_is_training _ (fun _ => True))|].
  intros tr w' _ _. destruct tr.
  - apply runs_mapM. intros m w1 _ _.
    apply runs_mapM. intros row w2 _ _. apply Dropout_row_spec.
  - apply runs_ret.
    apply Forall2_same_length_lookup. split; [done|].
    intros i m m' Hm Hm'. simplify_eq.
    apply Forall2_same_length_lookup. split; [done|].
    intros j r r' Hr Hr'. simplify_eq.
    apply Forall2_same_length_lookup. split; [done|].
    intros k a a' Ha Ha'. simplify_eq. by left.
Qed.

Lemma dropped_shape3 p b t c x y :
  dropped p x y → shape3 b t c x → shape3 b t c y.
Proof.
  intros Hd [Hb Hx]. split; [by rewrite <- (Forall2_length _ _ _ Hd)|].
  apply Forall_forall. intros m' Hm'.
  apply list_elem_of_lookup in Hm' as [i Hi].
  destruct (Forall2_lookup_r _ _ _ _ _ Hd Hi) as (m & Hm & Hmm).
  apply list_elem_of_lookup_2 in Hm.
  rewrite Forall_forall in Hx. destruct (Hx m Hm) as [Ht Hrows].
  split; [by rewrite <- (Forall2_length _ _ _ Hmm)|].
  apply Forall_forall. intros r' Hr'.
  apply list_elem_of_lookup in Hr' as [j Hj].
  destruct (Forall2_lookup_r _ _ _ _ _ Hmm Hj) as (r & Hr & Hrr).
  apply list_elem_of_lookup_2 in Hr.
  rewrite Forall_forall in Hrows.
  rewrite <- (Forall2_length _ _ _ Hrr). by apply Hrows.
Qed.

Lemma dropped_causal p (w w' : mat) :
  Forall2 (Forall2 (dropped1 p)) w w' → causal w → causal w'.
Proof.
  intros Hd Hc i row' j Hi Hij Hj.
  destruct (Forall2_lookup_r _ _ _ _ _ Hd Hi) as (row & Hrow & Hrr).
  pose proof (Forall2_length _ _ _ Hrr) as Hlen.
  specialize (Hc i row j Hrow Hij ltac:(lia)).
  destruct (lookup_lt_is_Some_2 row' j Hj) as [y Hy].
  rewrite Hy. f_equal.
  pose proof (Forall2_lookup_lr _ _ _ _ _ _ Hrr Hc Hy) as [->|[->| ->]];
    [done|done|]. unfold Rdiv. apply Rmult_0_l.
Qed.
End attention.

Ltac ostep E :=
  rewrite E; unfold mbind at 1; unfold outcome_bind at 1; cbv beta iota.

Lemma dim1_same {A B} b c c' (x : list (list (list A))) (y : list (list (list B))) :
  shape3 b (dim1 x) c x → shape3 b (dim1 x) c' y → dim1 y = dim1 x.
Proof.
  intros Hx Hy. destruct b as [|b].
  - destruct Hx as [Hx _], Hy as [Hy _].
    destruct x; [|done]. by destruct y.
  - eapply dim1_shape3; [exact Hy|lia].
Qed.

Lemma shape3_retarget {A B} b t c c' (x : list (list (list A)))
    (y : list (list (list B))) :
  shape3 b t c x → shape3 b (dim1 x) c' y → shape3 b t c' y.
Proof.
  intros Hx Hy. destruct b as [|b].
  - destruct Hy as [Hy _]. destruct y; [|done]. by split.
  - by rewrite (dim1_shape3 _ _ _ _ Hx) in Hy by lia.
Qed.

Lemma shape3_retarget2 {A B} b t (x : list (list (list A)))
    (y : list (list (list B))) c :
  shape3 b t c x → shape3 b (dim1 x) (dim1 x) y → shape3 b t t y.
Proof.
  intros Hx Hy. destruct b as [|b].
  - destruct Hy as [Hy _]. destruct y; [|done]. by split.
  - by rewrite (dim1_shape3 _ _ _ _ Hx) in Hy by lia.
Qed.

Section head.
Context `{Hyper} `{TorchRandom} `{!Optimizer rng}.

Lemma attention_weights_spec hs h b t x :
  Head_ok hs h → 0 < hs → t ≤ block_size → shape3 b t n_embd x →
  ∃ wei, attention_weights h x = Ok wei ∧ shape3 b t t wei ∧
         Forall causal wei ∧ Forall distributions wei.
Proof.
  intros (Hkey & Hquery & _ & Htril) Hhs Ht Hx.
  destruct (shape3_dim1 _ _ _ _ Hx) as [Hx' Hcase].
  assert (Ht' : dim1 x ≤ block_size).
  { destruct Hcase as [->| ->]; [unfold dim1; simpl; lia|done]. }
  destruct (Linear_forward_shape _ _ _ _ _ _ _ Hkey Hx') as (k & Hk & _ & Hks).
  destruct (Linear_forward_shape _ _ _ _ _ _ _ Hquery Hx') as (q & Hq & _ & Hqs).
  set (wei0 := elems (fun s => (s * / sqrt (INR hs))%R) (zip_with matmul_nt q k)).
  assert (Hw0 : shape3 b (dim1 x) (dim1 x) wei0).
  { apply shape3_elems.
    eapply (shape3_zip_with matmul_nt); [|exact Hqs|exact Hks].
    intros mx my [Hmx _] [Hmy _]. by apply shape2_matmul_nt. }
  pose proof (dim1_same _ _ _ _ _ Hx' Hw0) as Hdim.
  exists (rows softmax ((fun w => zip_with fill_row (causal_mask (dim1 x)) w) <$> wei0)).
  split; [|split; [|split]].
  - unfold attention_weights. ostep Hk. ostep Hq.
    destruct Hkey as (_ & -> & _).
    unfold pow_neg_half. rewrite decide_False by lia.
    unfold mbind at 1; unfold outcome_bind at 1; cbv beta iota.
    fold wei0. rewrite Htril, mask_of_tril by done.
    unfold masked_fill. rewrite Hdim. fold (causal_mask (dim1 x)).
    rewrite decide_True; [done|]. split.
    + unfold causal_mask. by rewrite length_fmap, length_seq.
    + unfold causal_mask. apply Forall_fmap, Forall_forall. intros i _. simpl.
      by rewrite length_fmap, length_seq.
  - eapply shape3_retarget2; [exact Hx|].
    destruct Hw0 as [Hb Hw0]. split; [unfold rows; by rewrite !length_fmap|].
    unfold rows. apply Forall_fmap, Forall_fmap.
    eapply Forall_impl; [exact Hw0|]. intros w0 Hw. simpl.
    by apply masked_softmax_mat.
  - destruct Hw0 as [Hb Hw0]. unfold rows. apply Forall_fmap, Forall_fmap.
    eapply Forall_impl; [exact Hw0|]. intros w0 Hw. simpl.
    by apply masked_softmax_mat.
  - destruct Hw0 as [Hb Hw0]. unfold rows. apply Forall_fmap, Forall_fmap.
    eapply Forall_impl; [exact Hw0|]. intros w0 Hw. simpl.
    by apply masked_softmax_mat.
Qed.
End head.

(** ** Weighted sums of value vectors *)

Lemma vadd_zeros c (v : list R) :
  length v = c → vadd v (replicate c 0%R) = v.
Proof.
  revert c. induction v as [|x v IH]; intros c Hc; [by destruct c|].
  destruct c as [|c]; [done|]. simpl in *.
  unfold vadd in *. simpl. rewrite IH by lia. f_equal. lra.
Qed.

Lemma vscale_zero (v : list R) : vscale 0 v = replicate (length v) 0%R.
Proof.
  induction v as [|x v IH]; [done|]. unfold vscale in *.
  rewrite fmap_cons, IH. simpl. f_equal. lra.
Qed.

Lemma length_foldr_vadd c (base : list R) (l : mat) :
  length base = c → Forall (fun r => length r = c) l →
  length (foldr vadd base l) = c.
Proof.
  intros Hb. induction 1 as [|r l Hr _ IH]; [done|]. simpl.
  unfold vadd at 1. rewrite length_zip_with. lia.
Qed.

Lemma Forall_length_zip_vscale c (w : list R) (vb : mat) :
  Forall (fun r => length r = c) vb →
  Forall (fun r => length r = c) (zip_with vscale w vb).
Proof.
  intros Hvb. apply Forall_forall. intros r Hr.
  apply list_elem_of_lookup in Hr as [i Hi].
  apply lookup_zip_with_Some in Hi as (a & v & -> & _ & Hv).
  unfold vscale. rewrite length_fmap.
  eapply Forall_forall in Hvb; [exact Hvb|]. by eapply list_elem_of_lookup_2.
Qed.

Lemma length_weighted_sum c (w : list R) (vb : mat) :
  Forall (fun r => length r = c) vb → dim1 vb = c →
  length (weighted_sum w vb) = c.
Proof.
  intros Hvb Hd. unfold weighted_sum. apply length_foldr_vadd.
  - by rewrite length_replicate.
  - by apply Forall_length_zip_vscale.
Qed.

Lemma shape2_matmul t c (wb vb : mat) :
  length wb = t → shape2 t c vb → shape2 t c (matmul wb vb).
Proof.
  intros Hw [Hlen Hvb]. unfold matmul. split; [by rewrite length_fmap|].
  apply Forall_fmap, Forall_forall. intros w Hin. simpl.
  apply length_weighted_sum; [done|].
  destruct vb as [|r vb]; [|by apply Forall_cons in Hvb as [? _]].
  apply list_elem_of_lookup in Hin as [i Hi]. apply lookup_lt_Some in Hi.
  simpl in Hlen. lia.
Qed.

Lemma foldr_vadd_zero_weights c (z : list R) (vb : mat) :
  Forall (fun x => x = 0%R) z → Forall (fun r => length r = c) vb →
  foldr vadd (replicate c 0%R) (zip_with vscale z vb) = replicate c 0%R.
Proof.
  intros Hz. revert vb. induction Hz as [|x z -> _ IH]; intros vb Hvb; [done|].
  destruct vb as [|v vb]; [done|]. apply Forall_cons in Hvb as [Hv Hvb].
  simpl. rewrite IH by done. rewrite vscale_zero, Hv.
  apply vadd_zeros. by rewrite length_replicate.
Qed.

(** Weights that vanish after position [i] leave a sum over the first
    [i+1] value vectors. *)
Lemma weighted_sum_causal c i (row : list R) (vb : mat) :
  (∀ j, i < j → j < length row → row !! j = Some 0%R) →
  Forall (fun r => length r = c) vb →
  length row = length vb → i < length row →
  weighted_sum row vb = weighted_sum (take (S i) row) (take (S i) vb).
Proof.
  intros Hzero Hvb Hlen Hi. unfold weighted_sum.
  assert (Hd : dim1 (take (S i) vb) = dim1 vb) by (by destruct vb).
  assert (Hc : dim1 vb = c).
  { destruct vb as [|v vb]; [simpl in *; lia|]. by apply Forall_cons in Hvb as [? _]. }
  rewrite Hd, Hc.
  rewrite <- (take_drop (S i) row) at 1. rewrite <- (take_drop (S i) vb) at 1.
  rewrite zip_with_app by (rewrite !length_take; lia).
  rewrite foldr_app. f_equal.
  apply foldr_vadd_zero_weights.
  - apply Forall_forall. intros x Hx.
    apply list_elem_of_lookup in Hx as [j Hj].
    rewrite lookup_drop in Hj.
    pose proof (lookup_lt_Some _ _ _ Hj).
    rewrite Hzero in Hj by lia. congruence.
  - by apply Forall_drop.
Qed.

Section head_forward.
Context `{Hyper} `{TorchRandom} `{!Optimizer rng}.

Lemma Head_forward_trace_spec hs h b t x w :
  Head_ok hs h → 0 < hs → t ≤ block_size → shape3 b t n_embd x →
  runs (Head_forward_trace h x) w (fun '(wei, v, out) =>
    shape3 b t t wei ∧ Forall causal wei ∧
    (∃ wei0, attention_weights h x = Ok wei0 ∧ dropped (head_dropout h) wei0 wei) ∧
    shape3 b t hs v ∧ out = zip_with matmul wei v ∧ shape3 b t hs out).
Proof.
  intros Hh Hhs Ht Hx.
  destruct (attention_weights_spec _ _ _ _ _ Hh Hhs Ht Hx)
    as (wei0 & Hwei0 & Hs0 & Hc0 & _).
  destruct Hh as (_ & _ & Hvalue & _).
  destruct (Linear_forward_shape _ _ _ _ _ _ _ Hvalue Hx) as (v & Hv & _ & Hvs).
  unfold Head_forward_trace.
  eapply runs_bind; [by apply (runs_lift _ _ wei0 (fun a => a = wei0))|].
  intros ? w1 _ ->.
  eapply runs_bind; [apply Dropout_forward_spec|].
  intros wei w2 _ Hd.
  eapply runs_bind; [by apply (runs_lift _ _ v (fun a => a = v))|].
  intros ? w3 _ ->.
  apply runs_ret.
  pose proof (dropped_shape3 _ _ _ _ _ _ Hd Hs0) as Hs.
  repeat split; try done.
  - by destruct Hs.
  - by destruct Hs.
  - apply Forall_forall. intros wb' Hin.
    apply list_elem_of_lookup in Hin as [i Hi].
    destruct (Forall2_lookup_r _ _ _ _ _ Hd Hi) as (wb & Hwb & Hdd).
    eapply dropped_causal; [exact Hdd|].
    eapply Forall_forall in Hc0; [exact Hc0|]. by eapply list_elem_of_lookup_2.
  - by exists wei0.
  - by destruct Hvs.
  - by destruct Hvs.
  - destruct Hs as [Hb _], Hvs as [Hb' _]. rewrite length_zip_with. lia.
  - eapply (shape3_zip_with matmul); [|exact Hs|exact Hvs].
    intros mx my [Hmx _] Hmy. by apply shape2_matmul.
Qed.

Lemma Head_forward_spec hs h b t x w :
  Head_ok hs h → 0 < hs → t ≤ block_size → shape3 b t n_embd x →
  runs (Head_forward h x) w (shape3 b t hs).
Proof.
  intros Hh Hhs Ht Hx. unfold Head_forward.
  eapply runs_bind; [by eapply Head_forward_trace_spec|].
  intros [[wei v] out] w' _ (_ & _ & _ & _ & _ & Hout).
  by apply runs_ret.
Qed.
End head_forward.

Lemma shape2_zip_app {A} t c c' (x y : list (list A)) :
  shape2 t c x → shape2 t c' y → shape2 t (c + c') (zip_with app x y).
Proof.
  intros [Hb Hx] [Hb' Hy]. split; [rewrite length_zip_with; lia|].
  apply Forall_forall. intros r Hr.
  apply list_elem_of_lookup in Hr as [i Hi].
  apply lookup_zip_with_Some in Hi as (rx & ry & -> & Hrx & Hry).
  apply list_elem_of_lookup_2 in Hrx, Hry.
  rewrite Forall_forall in Hx. rewrite Forall_forall in Hy.
  rewrite length_app, (Hx _ Hrx), (Hy _ Hry). done.
Qed.

Lemma shape3_foldl_cat b t c hs (o : tensor3) (os : list tensor3) :
  shape3 b t c o → Forall (shape3 b t hs) os →
  shape3 b t (c + hs * length os) (foldl (zip_with (zip_with app)) o os).
Proof.
  intros Ho Hos. revert c o Ho.
  induction Hos as [|o' os Ho' _ IH]; intros c o Ho; simpl.
  - by rewrite Nat.mul_0_r, Nat.add_0_r.
  - replace (c + hs * S (length os)) with ((c + hs) + hs * length os) by lia.
    apply IH. eapply (shape3_zip_with (zip_with app)); [|exact Ho|exact Ho'].
    intros mx my. apply shape2_zip_app.
Qed.

Lemma torch_cat_shape b t hs (outs : list tensor3) :
  outs ≠ [] → Forall (shape3 b t hs) outs →
  ∃ out, torch_cat outs = Ok out ∧ shape3 b t (hs * length outs) out.
Proof.
  intros Hne Houts. destruct outs as [|o os]; [done|].
  apply Forall_cons in Houts as [Ho Hos].
  eexists. split; [done|].
  replace (hs * length (o :: os)) with (hs + hs * length os) by (simpl; lia).
  by apply shape3_foldl_cat.
Qed.

Lemma shape3_ReLU b t c x : shape3 b t c x → shape3 b t c (ReLU x).
Proof. apply shape3_elems. Qed.

Lemma Embedding_forward_shape num dim e (idx : list nat) :
  Embedding_ok num dim e → Forall (fun i => i < num) idx →
  ∃ y, Embedding_forward e idx = Ok y ∧ shape2 (length idx) dim y ∧
       Forall2 (fun i row => emb_weight e !! i = Some row) idx y.
Proof.
  intros [Hnum Hdim] Hidx. unfold Embedding_forward.
  destruct (mapM_outcome_Ok
              (fun i => match emb_weight e !! i with
                        | Some row => Ok row
                        | None => Raise IndexError
                        end)
              (fun i row => emb_weight e !! i = Some row) idx) as (y & Hy & HF).
  { intros i Hi. eapply Forall_forall in Hidx; [|exact Hi].
    destruct (lookup_lt_is_Some_2 (emb_weight e) i) as [row Hrow]; [lia|].
    exists row. by rewrite Hrow. }
  exists y. split; [done|]. split; [|done]. split.
  - symmetry. by eapply Forall2_length.
  - apply Forall_forall. intros row Hin.
    apply list_elem_of_lookup in Hin as [j Hj].
    destruct (Forall2_lookup_r _ _ _ _ _ HF Hj) as (i & _ & Hi).
    eapply Forall_forall in Hdim; [exact Hdim|]. by eapply list_elem_of_lookup_2.
Qed.

Section layers.
Context `{Hyper} `{TorchRandom} `{!Optimizer rng}.

Lemma MultiHeadAttention_forward_spec nh hs m b t x w :
  MultiHeadAttention_ok nh hs m → 0 < nh → 0 < hs → t ≤ block_size →
  shape3 b t n_embd x →
  runs (MultiHeadAttention_forward m x) w (shape3 b t n_embd).
Proof.
  intros (Hnh & Hheads & Hproj) Hpos Hhs Ht Hx.
  unfold MultiHeadAttention_forward.
  eapply runs_bind.
  { apply (runs_mapM _ (fun _ out => shape3 b t hs out)).
    intros h w' Hin _. eapply Head_forward_spec; try done.
    eapply Forall_forall in Hheads; [exact Hheads|done]. }
  intros outs w1 _ Houts.
  assert (Hlen : length outs = nh) by (by rewrite <- (Forall2_length _ _ _ Houts)).
  assert (Hall : Forall (shape3 b t hs) outs).
  { apply Forall_forall. intros o Ho.
    apply list_elem_of_lookup in Ho as [i Hi].
    by destruct (Forall2_lookup_r _ _ _ _ _ Houts Hi) as (? & _ & ?). }
  destruct (torch_cat_shape b t hs outs) as (cat & Hcat & Hcs); [|done|].
  { intros ->. simpl in Hlen. lia. }
  rewrite Hlen in Hcs.
  destruct (Linear_forward_shape _ _ _ _ _ _ _ Hproj Hcs) as (y & Hy & _ & Hys).
  eapply runs_bind; [by apply (runs_lift _ _ cat (fun a => a = cat))|].
  intros ? w2 _ ->.
  eapply runs_bind; [by apply (runs_lift _ _ y (fun a => a = y))|].
  intros ? w3 _ ->.
  eapply runs_mono; [apply Dropout_forward_spec|].
  intros out Hd. by eapply dropped_shape3.
Qed.

Lemma FeedFoward_forward_spec f b t x w :
  FeedFoward_ok n_embd f → shape3 b t n_embd x →
  runs (FeedFoward_forward f x) w (shape3 b t n_embd).
Proof.
  intros [Hn0 Hn2] Hx. unfold FeedFoward_forward.
  destruct (Linear_forward_shape _ _ _ _ _ _ _ Hn0 Hx) as (y & Hy & _ & Hys).
  destruct (Linear_forward_shape _ _ _ _ _ _ _ Hn2 (shape3_ReLU _ _ _ _ Hys))
    as (z & Hz & _ & Hzs).
  eapply runs_bind; [by apply (runs_lift _ _ y (fun a => a = y))|].
  intros ? w1 _ ->.
  eapply runs_bind; [by apply (runs_lift _ _ z (fun a => a = z))|].
  intros ? w2 _ ->.
  eapply runs_mono; [apply Dropout_forward_spec|].
  intros out Hd. by eapply dropped_shape3.
Qed.

Lemma Block_forward_spec nh blk b t x w :
  Block_ok n_embd nh blk → 0 < nh → 0 < n_embd / nh → t ≤ block_size →
  shape3 b t n_embd x →
  runs (Block_forward blk x) w (shape3 b t n_embd).
Proof.
  intros (Hsa & Hff & Hln1 & Hln2) Hnh Hhs Ht Hx. unfold Block_forward.
  destruct (LayerNorm_forward_shape _ _ _ _ _ Hln1 Hx) as (a & Ha & Has).
  eapply runs_bind; [by apply (runs_lift _ _ a (fun y => y = a))|].
  intros ? w1 _ ->.
  eapply runs_bind; [by eapply MultiHeadAttention_forward_spec|].
  intros a' w2 _ Ha'. cbv zeta.
  pose proof (shape3_tadd _ _ _ _ _ Hx Ha') as Hx1.
  destruct (LayerNorm_forward_shape _ _ _ _ _ Hln2 Hx1) as (f & Hf & Hfs).
  eapply runs_bind; [by apply (runs_lift _ _ f (fun y => y = f))|].
  intros ? w3 _ ->.
  eapply runs_bind; [by eapply FeedFoward_forward_spec|].
  intros f' w4 _ Hf'. apply runs_ret. by apply shape3_tadd.
Qed.

Lemma Sequential_forward_spec nh bs b t x w :
  Forall (Block_ok n_embd nh) bs →
  (bs ≠ [] → 0 < nh ∧ 0 < n_embd / nh) → t ≤ block_size →
  shape3 b t n_embd x →
  runs (Sequential_forward bs x) w (shape3 b t n_embd).
Proof.
  intros Hbs Hcfg Ht. revert x w.
  induction Hbs as [|blk bs Hblk _ IH]; intros x w Hx; simpl.
  - by apply runs_ret.
  - destruct Hcfg as [Hnh Hhs]; [done|].
    eapply runs_bind; [by eapply Block_forward_spec|].
    intros x' w' _ Hx'. apply IH; [|done]. by intros _.
Qed.
End layers.

(** ** Cross entropy *)

Lemma ln_monotone x y : (0 < x)%R → (x <= y)%R → (ln x <= ln y)%R.
Proof.
  intros Hx [Hlt| ->]; [|lra]. left. by apply ln_increasing.
Qed.

Lemma nll_nonneg (row : list R) (t : nat) :
  t < length row → ∃ r, nll row t = Ok (Float r) ∧ (0 <= r)%R.
Proof.
  intros Ht. destruct (lookup_lt_is_Some_2 row t Ht) as [x Hx].
  unfold nll, log_softmax. rewrite list_lookup_fmap, Hx. simpl.
  eexists. split; [done|].
  assert (exp x <= Rsum (exp <$> row))%R.
  { apply (Rsum_ge_elem _ t).
    - apply Forall_fmap, Forall_forall. intros y _. simpl. left. apply exp_pos.
    - by rewrite list_lookup_fmap, Hx. }
  pose proof (ln_monotone _ _ (exp_pos x) H) as Hln.
  rewrite ln_exp in Hln. lra.
Qed.

Lemma floats_Float (rs : list R) : floats (Float <$> rs) = Some rs.
Proof.
  unfold floats. induction rs as [|r rs IH]; [done|].
  rewrite fmap_cons. simpl. simpl in IH. by rewrite IH.
Qed.

Lemma mean_nonneg (rs : list R) :
  Forall (fun r => (0 <= r)%R) rs → loss_of (length rs) (mean (Float <$> rs)).
Proof.
  intros Hrs. unfold mean. rewrite floats_Float.
  destruct rs as [|r rs]; [done|]. simpl.
  eexists. split; [done|].
  apply Rmult_le_pos; [by apply (Rsum_nonneg (r :: rs))|].
  left. apply Rinv_0_lt_compat.
  apply (lt_0_INR (S (length rs))). lia.
Qed.

Lemma cross_entropy_spec k c (logits : mat) (targets : list nat) :
  shape2 k c logits → length targets = k → Forall (fun t => t < c) targets →
  ∃ l, cross_entropy logits targets = Ok l ∧ loss_of k l.
Proof.
  intros [Hk Hrows] Hlen Ht. unfold cross_entropy.
  rewrite decide_True by lia.
  destruct (mapM_outcome_Ok (fun '(row, t) => nll row t)
              (fun _ l => ∃ r, l = Float r ∧ (0 <= r)%R)
              (zip logits targets)) as (ls & Hls & HF).
  { intros [row t] Hin.
    apply list_elem_of_lookup in Hin as [i Hi].
    apply lookup_zip_with_Some in Hi as (row' & t' & [= <- <-] & Hrow & Htt).
    destruct (nll_nonneg row t) as (r & Hr & Hr0).
    - apply list_elem_of_lookup_2 in Hrow, Htt.
      eapply Forall_forall in Hrows; [|exact Hrow].
      eapply Forall_forall in Ht; [|exact Htt]. lia.
    - exists (Float r). split; [done|]. by exists r. }
  rewrite Hls. exists (mean ls). split; [done|].
  assert (Hrs : ∃ rs, ls = Float <$> rs ∧ Forall (fun r => (0 <= r)%R) rs).
  { clear Hls. induction HF as [|x l xs ls' (r & -> & Hr) _ (rs & -> & Hrs)].
    - by exists [].
    - exists (r :: rs). split; [done|]. by constructor. }
  destruct Hrs as (rs & -> & Hrs).
  apply Forall2_length in HF. rewrite length_fmap in HF.
  rewrite length_zip_with in HF.
  replace k with (length rs) by lia. by apply mean_nonneg.
Qed.

Lemma length_concat_shape2 {A} b t (x : list (list A)) :
  shape2 b t x → length (concat x) = b * t.
Proof.
  intros [<- Hx]. induction Hx as [|r x Hr _ IH]; [done|].
  simpl. rewrite length_app, IH, Hr. done.
Qed.

Lemma shape2_concat {A} b t c (x : list (list (list A))) :
  shape3 b t c x → shape2 (b * t) c (concat x).
Proof.
  intros [Hb Hx]. split.
  - apply length_concat_shape2. split; [done|].
    eapply Forall_impl; [exact Hx|]. by intros m [? _].
  - clear Hb. induction Hx as [|m x [_ Hm] _ IH]; [done|].
    simpl. by apply Forall_app.
Qed.

Lemma Forall_concat {A} (P : A → Prop) (x : list (list A)) :
  Forall (Forall P) x → Forall P (concat x).
Proof. induction 1; [done|]. simpl. by apply Forall_app. Qed.

Section forward.
Context `{Hyper} `{TorchRandom} `{!Optimizer rng}.
Variable text : list N.

Lemma forward_spec m idx targets b t w :
  GPTLanguageModel_ok text m → 0 < n_head → n_head ≤ n_embd →
  t ≤ block_size →
  shape2 b t idx → below (vocab_size text) idx →
  (∀ tg, targets = Some tg → shape2 b t tg ∧ below (vocab_size text) tg) →
  runs (forward m idx targets) w (forward_result text b t targets).
Proof.
  intros (Htok & Hpos & Hnl & Hblocks & Hln & Hlm) Hnh Hhs Ht Hidx Hbelow Htg.
  unfold forward.
  (* token embeddings *)
  destruct (mapM_outcome_Ok (Embedding_forward (token_embedding_table m))
              (fun _ y => shape2 t n_embd y) idx) as (tok_emb & Htok_emb & HFtok).
  { intros row Hin.
    destruct (Embedding_forward_shape _ _ _ row Htok) as (y & Hy & Hys & _).
    - eapply Forall_forall in Hbelow; [exact Hbelow|done].
    - exists y. split; [done|].
      by rewrite (shape2_rows_length _ _ _ _ Hidx Hin) in Hys. }
  assert (Htoks : shape3 b t n_embd tok_emb).
  { destruct Hidx as [Hb _]. split; [by rewrite <- (Forall2_length _ _ _ HFtok)|].
    apply Forall_forall. intros y Hy.
    apply list_elem_of_lookup in Hy as [i Hi].
    by destruct (Forall2_lookup_r _ _ _ _ _ HFtok Hi) as (? & _ & ?). }
  (* position embeddings *)
  assert (Hdim : idx = [] ∨ dim1 idx = t).
  { destruct idx as [|row idx]; [by left|right].
    destruct Hidx as [_ Hrows]. by apply Forall_cons in Hrows as [? _]. }
  destruct (Embedding_forward_shape _ _ _ (seq 0 (dim1 idx)) Hpos)
    as (pos_emb & Hpos_emb & Hposs & _).
  { apply Forall_forall. intros i Hi. apply elem_of_seq in Hi.
    destruct Hdim as [->|Hd]; [unfold dim1 in Hi; simpl in Hi; lia|lia]. }
  rewrite length_seq in Hposs.
  assert (Hx : shape3 b t n_embd ((fun tb => madd tb pos_emb) <$> tok_emb)).
  { destruct Htoks as [Hb Htoks]. split; [by rewrite length_fmap|].
    destruct Hdim as [->|Hd].
    - apply Forall2_length in HFtok. simpl in HFtok.
      destruct tok_emb; [constructor|done].
    - apply Forall_fmap. eapply Forall_impl; [exact Htoks|].
      intros tb Htb. simpl.
      rewrite Hd in Hposs. by apply (shape2_zip_with Rplus). }
  eapply runs_bind; [by apply (runs_lift _ _ tok_emb (fun a => a = tok_emb))|].
  intros ? w1 _ ->.
  eapply runs_bind; [by apply (runs_lift _ _ pos_emb (fun a => a = pos_emb))|].
  intros ? w2 _ ->. cbv zeta.
  eapply runs_bind.
  { eapply (Sequential_forward_spec n_head); [done| |done|exact Hx].
    intros _. split; [done|]. apply Nat.div_str_pos. lia. }
  intros x w3 _ Hxs.
  destruct (LayerNorm_forward_shape _ _ _ _ _ Hln Hxs) as (y & Hy & Hys).
  eapply runs_bind; [by apply (runs_lift _ _ y (fun a => a = y))|].
  intros ? w4 _ ->.
  destruct (Linear_forward_shape _ _ _ _ _ _ _ Hlm Hys) as (logits & Hl & _ & Hls).
  eapply runs_bind; [by apply (runs_lift _ _ logits (fun a => a = logits))|].
  intros ? w5 _ ->.
  destruct targets as [tg|].
  - destruct (Htg tg eq_refl) as [Htgs Htgb].
    pose proof (shape2_concat _ _ _ _ Hls) as Hl2.
    assert (Hview : view1 tg (length (concat logits)) = Ok (concat tg)).
    { unfold view1. rewrite decide_True; [done|].
      destruct Hl2 as [-> _]. by apply length_concat_shape2. }
    destruct (cross_entropy_spec (b * t) (vocab_size text) (concat logits) (concat tg))
      as (l & Hce & Hloss); [done|by apply length_concat_shape2|by apply Forall_concat|].
    eapply runs_bind; [by apply (runs_lift _ _ (concat tg) (fun a => a = concat tg))|].
    intros ? w6 _ ->.
    eapply runs_bind; [by apply (runs_lift _ _ l (fun a => a = l))|].
    intros ? w7 _ ->.
    apply runs_ret. by exists (concat logits), l.
  - apply runs_ret. by exists logits.
Qed.
End forward.

Section generation.
Context `{Hyper} `{TorchRandom} `{!Optimizer rng}.
Variable text : list N.

Lemma crop_suffix k (row : list nat) :
  0 < k →
  length (crop k row) = length row `min` k ∧
  row = take (length row - k) row ++ crop k row.
Proof.
  intros Hk. unfold crop. rewrite decide_False by lia. split.
  - rewrite length_drop. lia.
  - by rewrite take_drop.
Qed.

Lemma crop_below v k (row : list nat) :
  Forall (fun i => i < v) row → Forall (fun i => i < v) (crop k row).
Proof. intros Hrow. unfold crop. case_decide; [done|]. by apply Forall_drop. Qed.

Lemma last_step_spec b t c (x : tensor3) :
  0 < t → shape3 b t c x →
  ∃ y, last_step (Logits3 x) = Ok y ∧ shape2 b c y.
Proof.
  intros Ht [Hb Hx]. unfold last_step.
  destruct (mapM_outcome_Ok
              (fun m : mat => match last m with
                              | Some row => Ok row
                              | None => Raise IndexError
                              end)
              (fun _ row => length row = c) x) as (y & Hy & HF).
  { intros m Hm. eapply Forall_forall in Hx; [|exact Hm].
    destruct Hx as [Hlen Hrows].
    destruct (last m) as [row|] eqn:Hlast.
    - exists row. split; [done|].
      eapply Forall_forall in Hrows; [exact Hrows|].
      rewrite last_lookup in Hlast. by eapply list_elem_of_lookup_2.
    - apply last_None in Hlast. subst m. simpl in Hlen. lia. }
  exists y. split; [done|]. split; [by rewrite <- (Forall2_length _ _ _ HF)|].
  apply Forall_forall. intros row Hrow.
  apply list_elem_of_lookup in Hrow as [i Hi].
  by destruct (Forall2_lookup_r _ _ _ _ _ HF Hi) as (? & _ & ?).
Qed.

Lemma torch_multinomial_spec (probs : mat) w :
  Forall (fun row => row ≠ []) probs →
  runs (torch_multinomial probs) w
    (Forall2 (fun row out => ∃ i, out = [i] ∧ i < length row) probs).
Proof.
  intros Hne. unfold torch_multinomial. apply runs_mapM.
  intros row w' Hin _. eapply Forall_forall in Hne; [|exact Hin].
  destruct row as [|p row]; [done|].
  eapply runs_bind.
  - apply (runs_with_gen _ _ (fun i => i < length (p :: row))).
    intros g. by apply multinomial_lt.
  - intros i w'' _ Hi. apply runs_ret. by exists i.
Qed.

Lemma sample_next_spec b t idx_cond w :
  GPTLanguageModel_ok text (model w) → 0 < n_head → n_head ≤ n_embd →
  0 < t → t ≤ block_size →
  shape2 b t idx_cond → below (vocab_size text) idx_cond →
  runs (sample_next idx_cond) w (fun nxt =>
    length nxt = b ∧
    Forall (fun out => ∃ tok, out = [tok] ∧ tok < vocab_size text) nxt).
Proof.
  intros Hm Hnh Hhs Ht Htb Hidx Hbelow.
  unfold sample_next, call_model.
  eapply runs_bind.
  { eapply runs_bind; [by apply (runs_get_model _ (fun m => m = model w))|].
    intros ? w1 _ ->.
    apply (forward_spec text (model w) _ None b t w1 Hm Hnh Hhs Htb Hidx Hbelow).
    intros tg. discriminate. }
  intros [logits loss] w2 _ (x & [= -> ->] & Hx).
  destruct (last_step_spec b t (vocab_size text) x) as (y & Hy & Hys); [lia|done|].
  eapply runs_bind; [by apply (runs_lift _ _ y (fun a => a = y))|].
  intros ? w3 _ ->. cbv zeta.
  destruct Hys as [Hyb Hyrows].
  eapply runs_mono.
  { apply torch_multinomial_spec.
    apply Forall_fmap, Forall_forall. intros row Hrow. simpl.
    eapply Forall_forall in Hyrows; [|exact Hrow].
    intros Hnil. apply (f_equal length) in Hnil.
    rewrite length_softmax, length_fmap, Hyrows in Hnil. simpl in Hnil.
    (* a row exists, so a token exists, so the vocabulary is not empty *)
    destruct Hidx as [Hb Hrows]. destruct idx_cond as [|r idx].
    { simpl in Hb. subst b. destruct y; [by apply elem_of_nil in Hrow|done]. }
    apply Forall_cons in Hrows as [Hr _]. apply Forall_cons in Hbelow as [Hrb _].
    destruct r as [|tok r]; [simpl in Hr; lia|].
    apply Forall_cons in Hrb as [Htok _]. lia. }
  intros nxt HF. split.
  - rewrite <- (Forall2_length _ _ _ HF). by rewrite length_fmap.
  - apply Forall_forall. intros out Hout.
    apply list_elem_of_lookup in Hout as [i Hi].
    destruct (Forall2_lookup_r _ _ _ _ _ HF Hi) as (p & Hp & tok & -> & Htok).
    exists tok. split; [done|].
    rewrite list_lookup_fmap in Hp. apply fmap_Some in Hp as (row & Hrow & ->).
    rewrite length_softmax, length_fmap in Htok.
    eapply Forall_forall in Hyrows; [|by eapply list_elem_of_lookup_2].
    by rewrite <- Hyrows.
Qed.

Lemma generate_body_spec b t idx w :
  GPTLanguageModel_ok text (model w) → 0 < n_head → n_head ≤ n_embd →
  0 < block_size → 0 < t →
  shape2 b t idx → below (vocab_size text) idx →
  runs (generate_body idx) w (extends (vocab_size text) idx).
Proof.
  intros Hm Hnh Hhs Hbs Ht Hidx Hbelow. unfold generate_body. cbv zeta.
  set (t' := t `min` block_size).
  assert (Hcond : shape2 b t' (crop block_size <$> idx)).
  { destruct Hidx as [Hb Hrows]. split; [by rewrite length_fmap|].
    apply Forall_fmap. eapply Forall_impl; [exact Hrows|].
    intros row Hrow. simpl.
    destruct (crop_suffix block_size row Hbs) as [-> _]. by rewrite Hrow. }
  assert (Hcb : below (vocab_size text) (crop block_size <$> idx)).
  { apply Forall_fmap. eapply Forall_impl; [exact Hbelow|].
    intros row. apply crop_below. }
  eapply runs_bind.
  { apply (sample_next_spec b t'); try done; unfold t'; lia. }
  intros nxt w1 _ [Hlen Hnxt]. apply runs_ret.
  destruct Hidx as [Hb _].
  apply Forall2_same_length_lookup. split; [rewrite length_zip_with; lia|].
  intros i row row' Hrow Hrow'.
  apply lookup_zip_with_Some in Hrow' as (r & out & -> & Hr & Hout).
  rewrite Hrow in Hr. injection Hr as <-.
  eapply Forall_forall in Hnxt; [|by eapply list_elem_of_lookup_2].
  destruct Hnxt as (tok & -> & Htok). by exists tok.
Qed.

Lemma extends_shape b t v idx idx' :
  extends v idx idx' → shape2 b t idx → below v idx →
  shape2 b (S t) idx' ∧ below v idx'.
Proof.
  intros He [Hb Hrows] Hbelow. split; [split|].
  - by rewrite <- (Forall2_length _ _ _ He).
  - apply Forall_forall. intros row' Hin.
    apply list_elem_of_lookup in Hin as [i Hi].
    destruct (Forall2_lookup_r _ _ _ _ _ He Hi) as (row & Hrow & tok & -> & _).
    eapply Forall_forall in Hrows; [|by eapply list_elem_of_lookup_2].
    rewrite length_app, Hrows. simpl. lia.
  - apply Forall_forall. intros row' Hin.
    apply list_elem_of_lookup in Hin as [i Hi].
    destruct (Forall2_lookup_r _ _ _ _ _ He Hi) as (row & Hrow & tok & -> & Htok).
    eapply Forall_forall in Hbelow; [|by eapply list_elem_of_lookup_2].
    apply Forall_app. split; [done|]. by repeat constructor.
Qed.

Lemma generate_spec k b t idx w :
  GPTLanguageModel_ok text (model w) → 0 < n_head → n_head ≤ n_embd →
  0 < block_size → k = 0 ∨ 0 < t →
  shape2 b t idx → below (vocab_size text) idx →
  runs (generate idx k) w (fun out =>
    shape2 b (t + k) out ∧ below (vocab_size text) out ∧
    Forall2 (fun row row' => row `prefix_of` row') idx out).
Proof.
  intros Hm Hnh Hhs Hbs. revert t idx w Hm.
  induction k as [|k IH]; intros t idx w Hm Ht Hidx Hbelow; simpl.
  - apply runs_ret. rewrite Nat.add_0_r. split; [done|]. split; [done|].
    apply Forall2_same_length_lookup. split; [done|].
    intros i r r' Hr Hr'. by simplify_eq.
  - destruct Ht as [?|Ht]; [done|].
    eapply runs_bind; [by eapply generate_body_spec|].
    intros idx1 w1 [Hmw _] Hext.
    destruct (extends_shape _ _ _ _ _ Hext Hidx Hbelow) as [Hs1 Hb1].
    eapply runs_mono.
    { apply (IH (S t)); [by rewrite Hmw|right; lia|done|done]. }
    intros out (Hso & Hbo & Hpre).
    replace (t + S k) with (S t + k) by lia.
    split; [done|]. split; [done|].
    apply Forall2_same_length_lookup. split.
    { rewrite (Forall2_length _ _ _ Hext). by apply Forall2_length in Hpre. }
    intros i row row' Hrow Hrow'.
    destruct (Forall2_lookup_l _ _ _ _ _ Hext Hrow) as (r1 & Hr1 & tok & -> & _).
    pose proof (Forall2_lookup_lr _ _ _ _ _ _ Hpre Hr1 Hrow') as Hp.
    etrans; [|exact Hp]. by apply prefix_app_r.
Qed.
End generation.

Lemma slice_window (d : list nat) off k :
  off + k ≤ length d →
  length (slice d off (off + k)) = k ∧
  ∀ j, j < k → slice d off (off + k) !! j = d !! (off + j).
Proof.
  intros Hlen. unfold slice. replace (off + k - off) with k by lia. split.
  - rewrite length_take, length_drop. lia.
  - intros j Hj. by rewrite lookup_take_lt, lookup_drop.
Qed.

Lemma torch_stack_same k (rs : list (list nat)) :
  rs ≠ [] → Forall (fun r => length r = k) rs → torch_stack rs = Ok rs.
Proof.
  intros Hne Hrs. destruct rs as [|r rs]; [done|]. unfold torch_stack.
  rewrite decide_True; [done|].
  pose proof Hrs as Hrs'. apply Forall_cons in Hrs' as [-> _]. done.
Qed.

Section batches.
Context `{Hyper} `{TorchRandom} `{!Optimizer rng}.
Variable text : list N.

Lemma get_batch_spec split w :
  block_size < length (split_data text split) → 0 < batch_size →
  ∃ ix x y w',
    get_batch text split w = (Ok (x, y), w') ∧ frame w w' ∧
    randint (length (split_data text split) - block_size) batch_size (gen w)
      = (ix, gen w') ∧
    windows (split_data text split) ix x y.
Proof.
  intros Hlen Hbs. unfold get_batch. cbv zeta.
  generalize dependent (split_data text split). intros d Hlen.
  assert (Hpos : 0 < length d - block_size) by lia.
  pose proof (length_randint (length d - block_size) batch_size (gen w)) as Hl.
  pose proof (randint_lt (length d - block_size) batch_size (gen w) Hpos) as Hlt.
  destruct (randint (length d - block_size) batch_size (gen w))
    as [ix g'] eqn:Hix. simpl in Hl, Hlt.
  set (x := (fun i => slice d i (i + block_size)) <$> ix).
  set (y := (fun i => slice d (i + 1) (i + block_size + 1)) <$> ix).
  assert (Hxs : shape2 batch_size block_size x).
  { split; [unfold x; by rewrite length_fmap|].
    apply Forall_fmap. eapply Forall_impl; [exact Hlt|].
    intros off Hoff. simpl. apply slice_window. simpl in Hoff. lia. }
  assert (Hys : shape2 batch_size block_size y).
  { split; [unfold y; by rewrite length_fmap|].
    apply Forall_fmap. eapply Forall_impl; [exact Hlt|].
    intros off Hoff. simpl.
    replace (off + block_size + 1) with (off + 1 + block_size) by lia.
    apply slice_window. simpl in Hoff. lia. }
  assert (Hne : ∀ z : list (list nat), length z = batch_size → z ≠ []).
  { intros z Hz ->. simpl in Hz. clear -Hz Hbs. lia. }
  exists ix, x, y, {| model := model w; training := training w; gen := g';
                     optimizer := optimizer w |}.
  split; [|split; [by split|split; [done|]]].
  - unfold torch_randint. rewrite decide_False by (clear -Hlen; lia).
    rewrite <- Nat2Z.inj_sub, Nat2Z.id by (clear -Hlen; lia).
    unfold mbind, ST_bind, with_gen, lift. rewrite Hix. cbv beta iota zeta.
    fold x. rewrite (torch_stack_same block_size x); [|apply Hne, Hxs|apply Hxs].
    fold y. rewrite (torch_stack_same block_size y); [|apply Hne, Hys|apply Hys].
    done.
  - split; [done|]. split; [done|]. split; [done|].
    intros i off Hoff.
    eapply Forall_forall in Hlt; [|by eapply list_elem_of_lookup_2].
    simpl in Hlt.
    exists (slice d off (off + block_size)),
           (slice d (off + 1) (off + block_size + 1)).
    split; [unfold x; by rewrite list_lookup_fmap, Hoff|].
    split; [unfold y; by rewrite list_lookup_fmap, Hoff|].
    intros j Hj.
    destruct (lookup_lt_is_Some_2 d (off + j)) as [a Ha]; [clear -Hlt Hj Hlen; lia|].
    destruct (lookup_lt_is_Some_2 d (off + j + 1)) as [c Hc]; [clear -Hlt Hj Hlen; lia|].
    exists a, c. split; [done|]. split; [done|]. split.
    + destruct (slice_window d off block_size) as [_ Hw];
        [clear -Hlt Hlen; lia|].
      by rewrite Hw.
    + replace (off + block_size + 1) with (off + 1 + block_size) by lia.
      destruct (slice_window d (off + 1) block_size) as [_ Hw];
        [clear -Hlt Hlen; lia|].
      rewrite Hw by done.
      by replace (off + 1 + j) with (off + j + 1) by lia.
Qed.

Lemma split_data_train : split_data text "train" = train_data text.
Proof. reflexivity. Qed.


Lemma get_batch_short split w :
  length (split_data text split) ≤ block_size →
  get_batch text split w = (Raise RuntimeError, w).
Proof.
  intros Hlen. unfold get_batch. cbv zeta.
  unfold torch_randint. rewrite decide_True by lia. done.
Qed.

End batches.

Section parameters.
Context `{Hyper} `{TorchRandom} `{!Optimizer rng}.
Variable text : list N.

Lemma keeps_ret {A} (a : A) : keeps_model (mret a).
Proof. by intros w. Qed.

Lemma keeps_lift {A} (o : outcome A) : keeps_model (lift o).
Proof. by intros w. Qed.

Lemma keeps_bind {A B} (m : M A) (f : A → M B) :
  keeps_model m → (∀ a, keeps_model (f a)) → keeps_model (m ≫= f).
Proof.
  intros Hm Hf w. specialize (Hm w). unfold mbind, ST_bind.
  destruct (m w) as [[a|e] w']; simpl in *; [|done].
  by rewrite Hf.
Qed.

Lemma keeps_with_gen {A} (f : rng → A * rng) : keeps_model (with_gen f).
Proof. intros w. unfold with_gen. by destruct (f (gen w)). Qed.

Lemma keeps_get_model : keeps_model get_model.
Proof. by intros w. Qed.

Lemma keeps_is_training : keeps_model is_training.
Proof. by intros w. Qed.

Lemma keeps_set_training b : keeps_model (set_training b).
Proof. by intros w. Qed.

Lemma keeps_mapM {A B} (f : A → M B) l :
  (∀ x, keeps_model (f x)) → keeps_model (mapM f l).
Proof.
  intros Hf. induction l as [|x l IH]; [apply keeps_ret|].
  change (keeps_model (y ← f x; k ← mapM f l; mret (y :: k))).
  apply keeps_bind; [done|]. intros y.
  apply keeps_bind; [done|]. intros k. apply keeps_ret.
Qed.

Lemma keeps_foldM {A B} (f : B → A → M B) b l :
  (∀ b x, keeps_model (f b x)) → keeps_model (foldM f b l).
Proof.
  intros Hf. revert b. induction l as [|x l IH]; intros b; [apply keeps_ret|].
  simpl. by apply keeps_bind.
Qed.

Create HintDb keeps discriminated.
Hint Resolve keeps_ret keeps_lift keeps_with_gen keeps_get_model
  keeps_is_training keeps_set_training : keeps.

Ltac keeps :=
  repeat first
    [ solve [auto with keeps]
    | apply keeps_bind; [|intros]
    | apply keeps_mapM; intros
    | apply keeps_foldM; intros
    | match goal with
      | |- keeps_model (match ?x with _ => _ end) => destruct x
      | |- keeps_model (let '(_, _) := ?x in _) => destruct x
      end ].

Lemma keeps_Dropout_forward p x : keeps_model (Dropout_forward p x).
Proof. unfold Dropout_forward, Dropout_row. keeps. Qed.
Hint Resolve keeps_Dropout_forward : keeps.

Lemma keeps_Head_forward h x : keeps_model (Head_forward h x).
Proof. unfold Head_forward, Head_forward_trace. keeps. Qed.
Hint Resolve keeps_Head_forward : keeps.

Lemma keeps_MultiHeadAttention_forward m x :
  keeps_model (MultiHeadAttention_forward m x).
Proof. unfold MultiHeadAttention_forward. keeps. Qed.
Hint Resolve keeps_MultiHeadAttention_forward : keeps.

Lemma keeps_FeedFoward_forward f x : keeps_model (FeedFoward_forward f x).
Proof. unfold FeedFoward_forward. keeps. Qed.
Hint Resolve keeps_FeedFoward_forward : keeps.

Lemma keeps_Block_forward b x : keeps_model (Block_forward b x).
Proof. unfold Block_forward. keeps. Qed.
Hint Resolve keeps_Block_forward : keeps.

Lemma keeps_Sequential_forward bs x : keeps_model (Sequential_forward bs x).
Proof. revert x. induction bs as [|b bs IH]; intros x; simpl; keeps. Qed.
Hint Resolve keeps_Sequential_forward : keeps.

Lemma keeps_forward self idx targets : keeps_model (forward self idx targets).
Proof. unfold forward. keeps. Qed.
Hint Resolve keeps_forward : keeps.

Lemma keeps_call_model idx targets : keeps_model (call_model idx targets).
Proof. unfold call_model. keeps. Qed.
Hint Resolve keeps_call_model : keeps.

Lemma keeps_generate_body idx : keeps_model (generate_body idx).
Proof. unfold generate_body, sample_next, torch_multinomial. keeps. Qed.
Hint Resolve keeps_generate_body : keeps.

Lemma keeps_generate idx k : keeps_model (generate idx k).
Proof. revert idx. induction k as [|k IH]; intros idx; simpl; keeps. Qed.

Lemma keeps_get_batch split : keeps_model (get_batch text split).
Proof. unfold get_batch, torch_randint. keeps. Qed.
Hint Resolve keeps_get_batch : keeps.

Lemma keeps_estimate_loss : keeps_model (estimate_loss text).
Proof. unfold estimate_loss. keeps. Qed.
Hint Resolve keeps_estimate_loss : keeps.

Lemma keeps_get_gen : keeps_model get_gen.
Proof. by intros w. Qed.

(** A computation that starts with a parameter-preserving step
    either raises there, with the parameters as they were, or goes on
    from a world with the same parameters. *)
Lemma bind_keeps_inv {A B} (m : M A) (f : A → M B) w r w' :
  keeps_model m → (m ≫= f) w = (r, w') →
  (∃ e, r = Raise e ∧ model w' = model w) ∨
  (∃ a w1, model w1 = model w ∧ f a w1 = (r, w')).
Proof.
  intros Hm. specialize (Hm w). unfold mbind, ST_bind.
  destruct (m w) as [[a|e] w1]; simpl in Hm; intros Hrun.
  - right. by exists a, w1.
  - left. exists e. by injection Hrun as <- <-.
Qed.

(** One iteration of the training loop raises before the optimizer
    is reached, or ends with the optimizer step on the parameters it
    started from. *)
Lemma train_iteration_inv iter w r w' :
  train_iteration text iter w = (r, w') →
  (∃ e, r = Raise e ∧ model w' = model w) ∨
  (∃ xb yb g w1,
     model w1 = model w ∧ optimizer_step xb yb g w1 = (r, w')).
Proof.
  unfold train_iteration. intros Hrun.
  destruct (bind_keeps_inv _ _ _ _ _ (keeps_lift _) Hrun)
    as [?|(r0 & w1 & H1 & Hrun1)]; [by left|].
  assert (Hk : keeps_model
    (if decide (r0 = 0 ∨ iter = max_iters - 1)
     then estimate_loss text ≫= λ _, mret tt else mret tt)).
  { destruct (decide _); keeps. }
  destruct (bind_keeps_inv _ _ _ _ _ Hk Hrun1)
    as [(e & -> & He)|(u & w2 & H2 & Hrun2)];
    [left; exists e; split; [done|congruence]|].
  destruct (bind_keeps_inv _ _ _ _ _ (keeps_get_batch _) Hrun2)
    as [(e & -> & He)|([xb yb] & w3 & H3 & Hrun3)];
    [left; exists e; split; [done|congruence]|].
  destruct (bind_keeps_inv _ _ _ _ _ keeps_get_gen Hrun3)
    as [(e & -> & He)|(g & w4 & H4 & Hrun4)];
    [left; exists e; split; [done|congruence]|].
  destruct (bind_keeps_inv _ _ _ _ _ (keeps_call_model _ _) Hrun4)
    as [(e & -> & He)|([lg ls] & w5 & H5 & Hrun5)];
    [left; exists e; split; [done|congruence]|].
  right. exists xb, yb, g, w5. split; [congruence|done].
Qed.
End parameters.

Section constructors.
Context `{Hyper} `{TorchRandom} `{!Optimizer rng}.
Variable text : list N.

Lemma built_bind {A B} (m : Init A) (f : A → Init B) g
    (P : A → Prop) (Q : B → Prop) :
  built m g P → (∀ a g', P a → built (f a) g' Q) → built (m ≫= f) g Q.
Proof. intros Hm Hf. eapply yields_bind; [exact Hm|]. intros a g'. apply Hf. Qed.

Lemma built_ret {A} (a : A) g (Q : A → Prop) : Q a → built (mret a) g Q.
Proof. intros HQ. by apply yields_ret. Qed.

Lemma built_lift {A} (o : outcome A) g a (Q : A → Prop) :
  o = Ok a → Q a → built (lift o) g Q.
Proof. intros Ho HQ. by eapply yields_lift. Qed.

Lemma built_draw {A} (f : rng → A * rng) g (Q : A → Prop) :
  Q (f g).1 → built (draw f) g Q.
Proof.
  intros HQ. unfold built, yields, draw. destruct (f g) as [a g'].
  by exists a, g'.
Qed.

Lemma length_built_mapM {A B} (f : A → Init B) (P : B → Prop) l g :
  (∀ x g', built (f x) g' P) →
  built (mapM f l) g (fun out => length out = length l ∧ Forall P out).
Proof.
  intros Hf.
  eapply yields_mono.
  - apply (yields_mapM f (fun _ => True) (fun _ y => P y)); [done|].
    intros x g' _ _. eapply yields_mono; [apply Hf|]. by intros y g'' ?.
  - intros out g' [HF _]. simpl. split; [symmetry; by eapply Forall2_length|].
    apply Forall_forall. intros y Hy.
    apply list_elem_of_lookup in Hy as [i Hi].
    by destruct (Forall2_lookup_r _ _ _ _ _ HF Hi) as (? & _ & ?).
Qed.

Lemma Linear_init_spec i o b g :
  built (Linear_init i o b) g (Linear_ok i o b).
Proof.
  unfold Linear_init.
  eapply built_bind.
  - apply (built_draw _ _ (fun w => length w = o ∧ Forall (fun r => length r = i) w)).
    apply shape_normal_.
  - intros w g' [Hw Hrows]. apply built_ret.
    repeat split; try done.
    destruct b; simpl; [|done]. split; [done|]. by rewrite length_replicate.
Qed.

Lemma Embedding_init_spec num dim g :
  built (Embedding_init num dim) g (Embedding_ok num dim).
Proof.
  unfold Embedding_init.
  eapply built_bind.
  - apply (built_draw _ _ (fun w => length w = num ∧ Forall (fun r => length r = dim) w)).
    apply shape_normal_.
  - intros w g' Hw. by apply built_ret.
Qed.

Lemma LayerNorm_init_spec d : LayerNorm_ok d (LayerNorm_init d).
Proof. unfold LayerNorm_ok, LayerNorm_init. simpl. by rewrite !length_replicate. Qed.

Lemma Dropout_init_spec p g :
  (0 <= p <= 1)%R → built (Dropout_init p) g (fun q => q = p).
Proof.
  intros [H0p Hp1]. unfold Dropout_init.
  destruct (Rle_dec 0 p); [|done]. destruct (Rle_dec p 1); [|done].
  by apply built_ret.
Qed.

Lemma Head_init_spec hs g :
  (0 <= dropout <= 1)%R → built (Head_init hs) g (Head_ok hs).
Proof.
  intros Hp. unfold Head_init.
  eapply built_bind; [apply Linear_init_spec|]. intros k g1 Hk.
  eapply built_bind; [apply Linear_init_spec|]. intros q g2 Hq.
  eapply built_bind; [apply Linear_init_spec|]. intros v g3 Hv.
  eapply built_bind; [by apply Dropout_init_spec|]. intros p g4 _.
  by apply built_ret.
Qed.

Lemma MultiHeadAttention_init_spec nh hs g :
  (0 <= dropout <= 1)%R →
  built (MultiHeadAttention_init nh hs) g (MultiHeadAttention_ok nh hs).
Proof.
  intros Hp. unfold MultiHeadAttention_init.
  eapply built_bind.
  { apply (length_built_mapM _ (Head_ok hs)). intros _ g'. by apply Head_init_spec. }
  intros heads g1 [Hlen Hheads]. rewrite length_seq in Hlen.
  eapply built_bind; [apply Linear_init_spec|]. intros pr g2 Hpr.
  eapply built_bind; [by apply Dropout_init_spec|]. intros p g3 _.
  by apply built_ret.
Qed.

Lemma FeedFoward_init_spec d g :
  (0 <= dropout <= 1)%R → built (FeedFoward_init d) g (FeedFoward_ok d).
Proof.
  intros Hp. unfold FeedFoward_init.
  eapply built_bind; [apply Linear_init_spec|]. intros l0 g1 Hl0.
  eapply built_bind; [apply Linear_init_spec|]. intros l2 g2 Hl2.
  eapply built_bind; [by apply Dropout_init_spec|]. intros p g3 _.
  by apply built_ret.
Qed.

Lemma Block_init_spec d nh g :
  0 < nh → (0 <= dropout <= 1)%R →
  built (Block_init d nh) g (Block_ok d nh).
Proof.
  intros Hnh Hp. unfold Block_init.
  eapply built_bind.
  { apply (built_lift _ _ (d / nh) (fun a => a = d / nh)); [|done].
    unfold floordiv. by rewrite decide_False by lia. }
  intros ? g1 ->.
  eapply built_bind; [by apply MultiHeadAttention_init_spec|]. intros s g2 Hs.
  eapply built_bind; [by apply FeedFoward_init_spec|]. intros f g3 Hf.
  apply built_ret. split; [done|]. split; [done|].
  split; apply LayerNorm_init_spec.
Qed.

Lemma Block_init_zero_heads d g :
  Block_init d 0 g = (Raise ZeroDivisionError, g).
Proof. reflexivity. Qed.

Lemma GPTLanguageModel_init_spec g :
  0 < n_head → (0 <= dropout <= 1)%R →
  built (GPTLanguageModel_init text) g (GPTLanguageModel_ok text).
Proof.
  intros Hnh Hp. unfold GPTLanguageModel_init.
  eapply built_bind; [apply Embedding_init_spec|]. intros tok g1 Htok.
  eapply built_bind; [apply Embedding_init_spec|]. intros pos g2 Hpos.
  eapply built_bind.
  { apply (length_built_mapM _ (Block_ok n_embd n_head)).
    intros _ g'. by apply Block_init_spec. }
  intros bs g3 [Hlen Hbs]. rewrite length_seq in Hlen.
  eapply built_bind; [apply Linear_init_spec|]. intros lm g4 Hlm.
  apply built_ret. split; [done|]. split; [done|]. split; [done|].
  split; [done|]. split; [apply LayerNorm_init_spec|done].
Qed.
End constructors.

(** ** The linear congruential generator implements the interface *)

Lemma length_lcg_draws k s : length (lcg_draws k s).1 = k.
Proof.
  revert s. induction k as [|k IH]; intros s; [done|]. simpl.
  specialize (IH (lcg_next s)). destruct (lcg_draws k (lcg_next s)). simpl in *.
  by rewrite IH.
Qed.

Lemma pick_lt u probs : probs ≠ [] → pick u probs < length probs.
Proof.
  intros Hne. revert u. induction probs as [|p ps IH]; intros u; [done|].
  simpl. destruct (Rlt_dec u p); [lia|].
  destruct ps as [|q ps]; [simpl; lia|].
  specialize (IH ltac:(done) (u - p)%R). simpl in *. lia.
Qed.

Lemma shape_lcg_normal_ o i s :
  length (lcg_normal_ o i s).1 = o ∧
  Forall (fun row => length row = i) (lcg_normal_ o i s).1.
Proof.
  revert s. induction o as [|o IH]; intros s; [by split|]. simpl.
  pose proof (length_lcg_draws i s) as Hd.
  destruct (lcg_draws i s) as [l s']. simpl in Hd.
  specialize (IH s'). destruct (lcg_normal_ o i s') as [rs s'']. simpl in *.
  destruct IH as [IH1 IH2]. split; [by rewrite IH1|].
  constructor; [by rewrite length_fmap|done].
Qed.

Lemma length_lcg_bernoulli p k g : length (lcg_bernoulli p k g).1 = k.
Proof.
  unfold lcg_bernoulli.
  pose proof (length_lcg_draws k g). destruct (lcg_draws k g). simpl in *.
  by rewrite length_fmap.
Qed.

Lemma length_lcg_randint high size g : length (lcg_randint high size g).1 = size.
Proof.
  unfold lcg_randint.
  pose proof (length_lcg_draws size g). destruct (lcg_draws size g). simpl in *.
  by rewrite length_fmap.
Qed.

Lemma lcg_randint_lt high size g :
  0 < high → Forall (fun i => i < high) (lcg_randint high size g).1.
Proof.
  intros Hhigh. unfold lcg_randint.
  destruct (lcg_draws size g). simpl.
  apply Forall_fmap, Forall_forall. intros r _. simpl.
  apply Nat.mod_upper_bound. lia.
Qed.

Lemma lcg_multinomial_lt probs g :
  probs ≠ [] → (lcg_multinomial probs g).1 < length probs.
Proof. intros Hne. unfold lcg_multinomial. simpl. by apply pick_lt. Qed.

(** The generator used in the examples. *)
Definition lcg : TorchRandom := {|
  rng := N;
  bernoulli := lcg_bernoulli;
  randint := lcg_randint;
  multinomial := lcg_multinomial;
  normal_ := lcg_normal_;
  length_bernoulli := length_lcg_bernoulli;
  length_randint := length_lcg_randint;
  randint_lt := lcg_randint_lt;
  multinomial_lt := lcg_multinomial_lt;
  shape_normal_ := shape_lcg_normal_;
|}.

Definition seed : @rng lcg := 7%N.

(** The state of the optimizer that leaves the parameters in place. *)
Definition idle : @opt_state (@rng lcg) (frozen _) := tt.

Section examples.
Context `{Hyper} `{TorchRandom} `{!Optimizer rng}.
Variable text : list N.

Lemma filled_Linear_ok c i o b : Linear_ok i o b (filled_Linear c i o b).
Proof.
  unfold Linear_ok, filled_Linear. simpl.
  split; [done|]. split; [done|]. split; [by rewrite length_replicate|].
  split.
  - apply Forall_replicate. by rewrite length_replicate.
  - destruct b; [|done]. split; [done|]. by rewrite length_replicate.
Qed.

Lemma filled_Head_ok c hs : Head_ok hs (filled_Head c hs).
Proof. repeat split; apply filled_Linear_ok. Qed.

Lemma filled_Block_ok c d nh : Block_ok d nh (filled_Block c d nh).
Proof.
  split; [|split; [|split]].
  - split; [|split].
    + simpl. by rewrite length_replicate.
    + simpl. apply Forall_replicate, filled_Head_ok.
    + apply filled_Linear_ok.
  - split; apply filled_Linear_ok.
  - apply LayerNorm_init_spec.
  - apply LayerNorm_init_spec.
Qed.

Lemma filled_model_ok c : GPTLanguageModel_ok text (filled_model text c).
Proof.
  unfold GPTLanguageModel_ok, filled_model. simpl.
  split; [|split; [|split; [|split; [|split]]]].
  - split; simpl; [by rewrite length_replicate|].
    apply Forall_replicate. by rewrite length_replicate.
  - split; simpl; [by rewrite length_replicate|].
    apply Forall_replicate. by rewrite length_replicate.
  - by rewrite length_replicate.
  - apply Forall_replicate, filled_Block_ok.
  - apply LayerNorm_init_spec.
  - apply filled_Linear_ok.
Qed.
End examples.

Section claims.
Context `{Hyper} `{TorchRandom} `{!Optimizer rng}.
Variable text : list N.

(** C1. Causal mask.  For a head of the constructed shape, and an
    input of shape (B, T, n_embd) with T at most the context length,
    [Head.forward] returns.  The weights it computes by the softmax
    are a (B,T,T) tensor in which every entry (i, j) with i < j is
    exactly 0 and every row is a probability distribution; the
    weights it applies (after dropout, in either mode) still vanish
    for i < j; and row i of the output is the weighted sum of the
    value vectors at positions 0..i only. *)
Theorem Head_forward_causal hs h b t x w :
  Head_ok hs h → 0 < hs → t ≤ block_size → shape3 b t n_embd x →
  ∃ wei0 wei v out w',
    attention_weights h x = Ok wei0 ∧
    shape3 b t t wei0 ∧ Forall causal wei0 ∧ Forall distributions wei0 ∧
    Head_forward_trace h x w = (Ok (wei, v, out), w') ∧
    Head_forward h x w = (Ok out, w') ∧
    dropped (head_dropout h) wei0 wei ∧ Forall causal wei ∧
    shape3 b t hs out ∧
    ∀ k wb vb i row,
      wei !! k = Some wb → v !! k = Some vb → wb !! i = Some row →
      ∃ ob, out !! k = Some ob ∧
            ob !! i = Some (weighted_sum (take (S i) row) (take (S i) vb)).
Proof.
  intros Hh Hhs Ht Hx.
  destruct (Head_forward_trace_spec hs h b t x w Hh Hhs Ht Hx)
    as ([[wei v] out] & w' & Hrun & (Hws & Hwc & (wei0 & Hwei0 & Hd) & Hvs & Hout & Hos) & _).
  destruct (attention_weights_spec hs h b t x Hh Hhs Ht Hx)
    as (wei0' & Hwei0' & Hs0 & Hc0 & Hdist).
  rewrite Hwei0 in Hwei0'. injection Hwei0' as <-.
  exists wei0, wei, v, out, w'.
  split; [done|]. split; [done|]. split; [done|]. split; [done|].
  split; [done|].
  split; [unfold Head_forward; by rewrite (bind_Ok _ _ _ _ _ Hrun)|].
  split; [done|]. split; [done|]. split; [done|].
  intros k wb vb i row Hwb Hvb Hrow.
  exists (matmul wb vb). split.
  { rewrite Hout. apply lookup_zip_with_Some. by exists wb, vb. }
  unfold matmul. rewrite list_lookup_fmap, Hrow. simpl. f_equal.
  destruct Hws as [_ Hws]. destruct Hvs as [_ Hvs].
  eapply Forall_forall in Hws; [|by eapply list_elem_of_lookup_2].
  eapply Forall_forall in Hvs; [|by eapply list_elem_of_lookup_2].
  eapply Forall_forall in Hwc; [|by eapply list_elem_of_lookup_2].
  destruct Hws as [Hwl Hwrows], Hvs as [Hvl Hvrows].
  eapply Forall_forall in Hwrows; [|by eapply list_elem_of_lookup_2].
  apply (weighted_sum_causal hs); [|done|lia|].
  - intros j Hij Hj. by eapply Hwc.
  - apply lookup_lt_Some in Hrow. lia.
Qed.

(** C2, as the code has it.  Construction does not check that the
    head count divides the embedding width.  With at least one head
    and a dropout probability in [0, 1], [GPTLanguageModel()] always
    returns a model of the constructed shape: every head has width
    floor(n_embd / n_head), the heads of a block concatenate to
    n_head * floor(n_embd / n_head) features, which the projection
    maps back to n_embd, and this concatenated width is strictly
    smaller than n_embd whenever n_head does not divide n_embd. *)
Theorem construction_floors_head_size g :
  0 < n_head → (0 <= dropout <= 1)%R →
  ∃ m g',
    GPTLanguageModel_init text g = (Ok m, g') ∧
    GPTLanguageModel_ok text m ∧
    Forall (fun blk =>
              length (heads (sa blk)) = n_head ∧
              Forall (fun h => out_features (key h) = n_embd / n_head ∧
                               out_features (value h) = n_embd / n_head)
                     (heads (sa blk)) ∧
              in_features (proj (sa blk)) = n_embd / n_head * n_head ∧
              out_features (proj (sa blk)) = n_embd)
           (blocks m) ∧
    (n_embd mod n_head ≠ 0 → n_embd / n_head * n_head < n_embd).
Proof.
  intros Hnh Hp.
  destruct (GPTLanguageModel_init_spec text g Hnh Hp) as (m & g' & Hinit & Hok).
  exists m, g'. split; [done|]. split; [done|]. split.
  - destruct Hok as (_ & _ & _ & Hblocks & _).
    eapply Forall_impl; [exact Hblocks|].
    intros blk ((Hlen & Hheads & Hproj) & _).
    split; [done|]. split.
    + eapply Forall_impl; [exact Hheads|].
      intros h ((_ & Hk & _) & _ & (_ & Hv & _) & _). by split.
    + by destruct Hproj as (Hi & Ho & _).
  - intros Hmod.
    pose proof (Nat.div_mod_eq n_embd n_head). lia.
Qed.

(** C3, as the code has it.  For a model of the constructed shape,
    an input of shape (B, T) with T at most the context length and
    tokens below the vocabulary size, [forward] returns.  Without
    targets the logits have shape (B, T, vocab_size) and the loss is
    [None].  With targets of the same shape the logits are returned
    as the (B*T, vocab_size) view, and the loss is a non-negative
    real when B*T >= 1 and NaN when the batch is empty. *)
Theorem forward_shapes m idx targets b t w :
  GPTLanguageModel_ok text m → 0 < n_head → n_head ≤ n_embd →
  t ≤ block_size →
  shape2 b t idx → below (vocab_size text) idx →
  (∀ tg, targets = Some tg → shape2 b t tg ∧ below (vocab_size text) tg) →
  ∃ logits loss w',
    forward m idx targets w = (Ok (logits, loss), w') ∧
    match targets with
    | None => has_shape logits [b; t; vocab_size text] ∧ loss = None
    | Some _ =>
        has_shape logits [b * t; vocab_size text] ∧
        ∃ l, loss = Some l ∧ loss_of (b * t) l
    end.
Proof.
  intros Hm Hnh Hhs Ht Hidx Hbelow Htg.
  destruct (forward_spec text m idx targets b t w Hm Hnh Hhs Ht Hidx Hbelow Htg)
    as ([logits loss] & w' & Hrun & Hres & _).
  exists logits, loss, w'. split; [done|].
  unfold forward_result in Hres. destruct targets as [tg|].
  - destruct Hres as (x & l & [= -> ->] & Hx & Hl). split; [done|]. by exists l.
  - by destruct Hres as (x & [= -> ->] & Hx).
Qed.

(** C4. Tokenizer round trip: for every string made of symbols of the
    corpus, [encode] returns and [decode] gives the string back. *)
Theorem decode_encode (s : list N) :
  Forall (fun c => c ∈ text) s →
  ∃ l, encode text s = Ok l ∧ decode text l = Ok s.
Proof.
  intros Hs. destruct (encode_in_vocab text s Hs) as (l & Hl & Hsl).
  exists l. split; [done|]. by apply decode_of_chars.
Qed.

(** C5, as the code has it.  For a model of the constructed shape (in
    the world), a prompt of shape (B, T0) with tokens below the
    vocabulary size, and either n = 0 or T0 >= 1: [generate(idx, n)]
    returns a (B, T0 + n) tensor of tokens below the vocabulary size,
    and every row of the prompt is a prefix of the matching row of
    the result. *)
Theorem generate_extends_prompt k b t idx w :
  GPTLanguageModel_ok text (model w) → 0 < n_head → n_head ≤ n_embd →
  0 < block_size → k = 0 ∨ 0 < t →
  shape2 b t idx → below (vocab_size text) idx →
  ∃ out w',
    generate idx k w = (Ok out, w') ∧
    shape2 b (t + k) out ∧ below (vocab_size text) out ∧
    Forall2 (fun row row' => row `prefix_of` row') idx out.
Proof.
  intros Hm Hnh Hhs Hbs Ht Hidx Hbelow.
  destruct (generate_spec text k b t idx w Hm Hnh Hhs Hbs Ht Hidx Hbelow)
    as (out & w' & Hrun & (Hs & Hb & Hp) & _).
  by exists out, w'.
Qed.


(** C7. The split is deterministic: the train split has
    floor(0.9 * len(data)) elements, which is floor(9 * len / 10);
    the validation split has the others; train is data[0 .. n) and
    validation is data[n ..), so the two do not overlap and their
    concatenation is the encoded corpus. *)
Theorem split_partitions_data :
  Z.of_nat (length (train_data text))
    = Qfloor (0.9 * inject_Z (Z.of_nat (length (data text)))) ∧
  Z.of_nat (length (train_data text))
    = (9 * Z.of_nat (length (data text)) / 10)%Z ∧
  length (val_data text) = length (data text) - length (train_data text) ∧
  train_data text ++ val_data text = data text ∧
  (∀ i, i < length (train_data text) →
        train_data text !! i = data text !! i) ∧
  (∀ i, val_data text !! i = data text !! (length (train_data text) + i)) ∧
  encode text text = Ok (data text) ∧ length (data text) = length text.
Proof.
  pose proof (n_le text) as Hle.
  assert (Hlen : length (train_data text) = n text).
  { unfold train_data. rewrite length_take. lia. }
  rewrite Hlen. repeat split.
  - rewrite Qfloor_nine_tenths. apply n_floor.
  - apply n_floor.
  - unfold val_data. by rewrite length_drop.
  - apply take_drop.
  - intros i Hi. unfold train_data. by apply lookup_take_lt.
  - intros i. unfold val_data. by rewrite lookup_drop.
  - apply encode_text.
  - apply length_data.
Qed.


(** C9. [estimate_loss] and [generate] leave the parameters of the
    model as they were, whether they return or raise; a normal
    return of [estimate_loss] leaves the model in training mode.  In
    the training loop the parameters change by the optimizer step
    alone: an iteration that raises leaves them as they were, and one
    that returns leaves what [optimizer.step()] makes of them. *)
Theorem inference_keeps_parameters w :
  model (estimate_loss text w).2 = model w ∧
  (∀ idx k, model (generate idx k w).2 = model w) ∧
  (∀ out w', estimate_loss text w = (Ok out, w') → training w' = true) ∧
  (∀ iter e w',
     train_iteration text iter w = (Raise e, w') → model w' = model w) ∧
  (∀ iter u w',
     train_iteration text iter w = (Ok u, w') →
     ∃ xb yb g o, model w' = (adamw_step (model w) xb yb g o).1).
Proof.
  split; [apply keeps_estimate_loss|]. split; [|split; [|split]].
  - intros idx k. apply keeps_generate.
  - intros out w' Hrun. unfold estimate_loss in Hrun.
    apply bind_Ok_inv in Hrun as (u1 & w1 & _ & Hrun).
    apply bind_Ok_inv in Hrun as (o & w2 & _ & Hrun).
    apply bind_Ok_inv in Hrun as (u2 & w3 & Hset & Hret).
    injection Hret as _ Hw. injection Hset as _ Hw3. by rewrite <- Hw, <- Hw3.
  - intros iter e w' Hrun.
    apply train_iteration_inv in Hrun
      as [(? & _ & Hm)|(xb & yb & g & w1 & _ & Hstep)]; [done|].
    unfold optimizer_step in Hstep.
    by destruct (adamw_step (model w1) xb yb g (optimizer w1)).
  - intros iter u w' Hrun.
    apply train_iteration_inv in Hrun
      as [(? & [=] & _)|(xb & yb & g & w1 & Hm & Hstep)].
    exists xb, yb, g, (optimizer w1). rewrite <- Hm.
    unfold optimizer_step in Hstep.
    destruct (adamw_step (model w1) xb yb g (optimizer w1)) as [m o].
    by injection Hstep as _ <-.
Qed.

End claims.

(** ** The claims at concrete inputs *)

Lemma vocab_size_abab : vocab_size abab = 2.
Proof. vm_compute. reflexivity. Qed.

Lemma data_abab : length (train_data abab) = 36 ∧ length (val_data abab) = 4.
Proof. vm_compute. by split. Qed.

Lemma below_abab (x : list (list nat)) :
  Forall (Forall (fun i => i < 2)) x → below (vocab_size abab) x.
Proof. unfold below. by rewrite vocab_size_abab. Qed.

Section with_the_notebook_configuration.
#[local] Existing Instance notebook_hyper.
#[local] Existing Instance lcg.
#[local] Existing Instance frozen.

Lemma Head_forward_causal_witness :
  ∃ wei0 out w',
    attention_weights (filled_Head 1 64) [replicate 2 (replicate 384 1%R)]
      = Ok wei0 ∧
    Forall causal wei0 ∧
    Head_forward (filled_Head 1 64) [replicate 2 (replicate 384 1%R)]
      (start (filled_model abab 1) seed idle) = (Ok out, w') ∧
    shape3 1 2 64 out.
Proof.
  destruct (Head_forward_causal 64 (filled_Head 1 64) 1 2
              [replicate 2 (replicate 384 1%R)]
              (start (filled_model abab 1) seed idle))
    as (wei0 & wei & v & out & w' & H1 & _ & H3 & _ & _ & H6 & _ & _ & H9 & _).
  - apply filled_Head_ok.
  - lia.
  - simpl. lia.
  - split; [done|]. repeat constructor.
  - by exists wei0, out, w'.
Defined.

Lemma forward_shapes_witness :
  ∃ logits loss w',
    forward (filled_model abab 1) [[0; 1]] (Some [[1; 0]])
      (start (filled_model abab 1) seed idle) = (Ok (logits, loss), w') ∧
    has_shape logits [1 * 2; vocab_size abab] ∧
    ∃ l, loss = Some l ∧ loss_of (1 * 2) l.
Proof.
  apply (forward_shapes abab (filled_model abab 1) [[0; 1]] (Some [[1; 0]]) 1 2).
  - apply filled_model_ok.
  - simpl. lia.
  - simpl. lia.
  - simpl. lia.
  - split; [done|]. repeat constructor.
  - apply below_abab. repeat constructor.
  - intros tg [= <-]. split; [split; [done|]; repeat constructor|].
    apply below_abab. repeat constructor.
Defined.

Lemma generate_extends_prompt_witness :
  ∃ out w',
    generate [[0; 1; 0]] 3 (start (filled_model abab 1) seed idle) = (Ok out, w') ∧
    shape2 1 (3 + 3) out ∧ below (vocab_size abab) out ∧
    Forall2 (fun row row' => row `prefix_of` row') [[0; 1; 0]] out.
Proof.
  apply (generate_extends_prompt abab 3 1 3 [[0; 1; 0]]).
  - apply filled_model_ok.
  - simpl. lia.
  - simpl. lia.
  - simpl. lia.
  - right. lia.
  - split; [done|]. repeat constructor.
  - apply below_abab. repeat constructor.
Defined.


(** C3 as stated fails: with targets, the logits that [forward]
    returns do not have shape (B, T, vocab_size); and for an empty
    batch the loss is NaN. *)
Lemma forward_with_targets_flattens_logits :
  (∃ logits loss w',
     forward (filled_model abab 1) [[0; 1]] (Some [[1; 0]])
       (start (filled_model abab 1) seed idle) = (Ok (logits, loss), w') ∧
     ¬ has_shape logits [1; 2; vocab_size abab]) ∧
  (∃ logits w',
     forward (filled_model abab 1) [] (Some [])
       (start (filled_model abab 1) seed idle) = (Ok (logits, Some NaN), w')).
Proof.
  split.
  - destruct (forward_spec abab (filled_model abab 1) [[0; 1]] (Some [[1; 0]])
                1 2 (start (filled_model abab 1) seed idle))
      as ([logits loss] & w' & Hrun & (x & l & Heq & _) & _).
    { apply filled_model_ok. }
    { unfold n_head, notebook_hyper. lia. }
    { unfold n_head, n_embd, notebook_hyper. lia. }
    { unfold block_size, notebook_hyper. lia. }
    { split; [reflexivity|]. repeat constructor. }
    { apply below_abab. repeat constructor. }
    { intros tg [= <-]. split; [split; [reflexivity|]; repeat constructor|].
      apply below_abab. repeat constructor. }
    exists logits, loss, w'. split; [exact Hrun|].
    injection Heq as -> _. intros [].
  - destruct (forward_spec abab (filled_model abab 1) [] (Some [])
                0 0 (start (filled_model abab 1) seed idle))
      as ([logits loss] & w' & Hrun & (x & l & Heq & _ & Hl) & _).
    { apply filled_model_ok. }
    { unfold n_head, notebook_hyper. lia. }
    { unfold n_head, n_embd, notebook_hyper. lia. }
    { lia. }
    { split; [reflexivity|]. constructor. }
    { constructor. }
    { intros tg [= <-]. split; [split; [reflexivity|constructor]|constructor]. }
    simpl in Hl. subst l. injection Heq as -> ->.
    exists (Logits2 x), w'. exact Hrun.
Qed.

End with_the_notebook_configuration.

Section with_a_small_configuration.
#[local] Existing Instance tiny_hyper.
#[local] Existing Instance lcg.
#[local] Existing Instance frozen.



Lemma decode_encode_witness :
  ∃ l, encode abab (py "abba") = Ok l ∧ decode abab l = Ok (py "abba").
Proof.
  apply decode_encode. repeat constructor.
Defined.

(** C5 as stated fails: for an empty prompt (B = 1, T0 = 0) and
    n = 1, [generate] raises at [logits[:, -1, :]] instead of
    returning a sequence of length 1. *)
Lemma generate_empty_prompt_raises :
  shape2 1 0 [[] : list nat] ∧
  ∃ w', generate [[]] 1 (start (filled_model abab 1) seed idle)
        = (Raise IndexError, w').
Proof.
  split; [split; [done|repeat constructor]|].
  set (w := start (filled_model abab 1) seed idle).
  destruct (forward_spec abab (filled_model abab 1) [[]] None 1 0 w)
    as ([logits loss] & w1 & Hrun & (x & [= -> ->] & Hx) & _).
  { apply filled_model_ok. } { simpl; lia. } { simpl; lia. } { lia. }
  { split; [done|]. repeat constructor. }
  { repeat constructor. }
  { intros tg. discriminate. }
  exists w1.
  assert (Hcall : call_model [[]] None w = (Ok (Logits3 x, None), w1)).
  { unfold call_model. by rewrite (bind_Ok get_model _ w (model w) w). }
  assert (Hlast : last_step (Logits3 x) = Raise IndexError).
  { destruct Hx as [Hb Hx]. destruct x as [|m [|m' x]]; try done.
    apply Forall_cons in Hx as [[Hm _] _]. by destruct m. }
  assert (Hsample : sample_next [[]] w = (Raise IndexError, w1)).
  { unfold sample_next. rewrite (bind_Ok _ _ _ _ _ Hcall).
    apply bind_Raise. unfold lift. by rewrite Hlast. }
  change (generate [[]] 1 w)
    with ((generate_body [[]] ≫= fun idx => generate idx 0) w).
  apply bind_Raise. unfold generate_body. cbv zeta.
  apply bind_Raise. exact Hsample.
Qed.
End with_a_small_configuration.

Section with_an_indivisible_width.
#[local] Existing Instance odd_hyper.
#[local] Existing Instance lcg.
#[local] Existing Instance frozen.

Lemma construction_floors_head_size_witness :
  ∃ m g',
    GPTLanguageModel_init abab seed = (Ok m, g') ∧
    GPTLanguageModel_ok abab m ∧
    n_embd / n_head * n_head < n_embd.
Proof.
  destruct (construction_floors_head_size abab seed)
    as (m & g' & Hinit & Hok & _ & Hlt).
  - unfold n_head, odd_hyper. lia.
  - unfold dropout, odd_hyper. lra.
  - exists m, g'. split; [exact Hinit|]. split; [exact Hok|].
    apply Hlt. unfold n_embd, n_head, odd_hyper. discriminate.
Defined.

(** C2 as stated fails: with embedding width 3 and 2 heads the
    constructor returns a model; it raises nothing. *)
Lemma construction_accepts_indivisible_width :
  n_embd mod n_head ≠ 0 ∧
  (∃ m g', GPTLanguageModel_init abab seed = (Ok m, g')) ∧
  ¬ (∃ e g', GPTLanguageModel_init abab seed = (Raise e, g')).
Proof.
  destruct (GPTLanguageModel_init_spec abab seed) as (m & g' & Hinit & _).
  { unfold n_head, odd_hyper. lia. }
  { unfold dropout, odd_hyper. lra. }
  split; [unfold n_embd, n_head, odd_hyper; discriminate|].
  split; [by exists m, g'|].
  intros (e & g'' & Hraise). rewrite Hinit in Hraise. discriminate.
Qed.
End with_an_indivisible_width.

(** * Further properties of the notebook

    ** The vocabulary and the two dictionaries *)

Lemma dict_of_lookup_None `{Countable K} {V} (kvs : list (K * V)) k :
  k ∉ kvs.*1 → dict_of kvs !! k = None.
Proof.
  intros Hk. unfold dict_of.
  rewrite fold_insert_list_to_map, (right_id_L ∅ (∪)).
  apply not_elem_of_list_to_map_1. by rewrite fmap_reverse, elem_of_reverse.
Qed.

Lemma StronglySorted_lookup_lt {A} (R : relation A) (l : list A) i j x y :
  StronglySorted R l → l !! i = Some x → l !! j = Some y → i < j → R x y.
Proof.
  intros Hl. revert i j. induction Hl as [|a l Hl IH Ha]; intros i j Hi Hj Hij.
  - done.
  - destruct j as [|j]; [lia|]. simpl in Hj. destruct i as [|i].
    + injection Hi as <-. eapply Forall_forall in Ha; [exact Ha|].
      by eapply list_elem_of_lookup_2.
    + simpl in Hi. apply (IH i j); [done|done|lia].
Qed.

(** A loop over a list raises as soon as one element does, when no
    element can raise anything else. *)
Lemma mapM_outcome_Raise {A B} (f : A → outcome B) (e : exn) l :
  (∀ x, x ∈ l → (∃ y, f x = Ok y) ∨ f x = Raise e) →
  (∃ x, x ∈ l ∧ f x = Raise e) →
  mapM f l = Raise e.
Proof.
  induction l as [|a l IH]; intros Hall (x & Hx & Hfx).
  - by apply elem_of_nil in Hx.
  - rewrite mapM_outcome_cons.
    destruct (Hall a) as [(y & Hy)|Hy]; [by left| |by rewrite Hy].
    rewrite Hy. simpl.
    apply elem_of_cons in Hx as [->|Hx]; [congruence|].
    rewrite IH; [done| |by exists x].
    intros z Hz. apply Hall. by right.
Qed.

Lemma length_mapM_outcome {A B} (f : A → outcome B) l out :
  mapM f l = Ok out → length out = length l.
Proof.
  revert out. induction l as [|a l IH]; intros out.
  - by intros [= <-].
  - rewrite mapM_outcome_cons. destruct (f a) as [y|e]; [|done]. simpl.
    destruct (mapM f l) as [k|e]; [|done]. simpl.
    intros [= <-]. simpl. f_equal. by apply IH.
Qed.

Lemma mapM_outcome_app {A B} (f : A → outcome B) l1 l2 :
  mapM f (l1 ++ l2) = a ← mapM f l1; b ← mapM f l2; mret (a ++ b).
Proof.
  induction l1 as [|x l1 IH].
  - simpl. by destruct (mapM f l2).
  - rewrite <- app_comm_cons, !mapM_outcome_cons, IH.
    destruct (f x) as [y|e]; [|done]. simpl.
    destruct (mapM f l1) as [a|e]; [|done]. simpl.
    by destruct (mapM f l2).
Qed.

Section vocabulary.
Variable text : pystr.

Lemma chars_sorted : StronglySorted N.le (chars text).
Proof. apply StronglySorted_merge_sort; apply _. Qed.

Lemma chars_lookup_inj i j c :
  chars text !! i = Some c → chars text !! j = Some c → i = j.
Proof. apply NoDup_lookup, NoDup_chars. Qed.

Lemma stoi_lookup_None c : c ∉ text → stoi text !! c = None.
Proof.
  intros Hc. unfold stoi. apply dict_of_lookup_None.
  rewrite <- list_fmap_compose.
  rewrite (list_fmap_ext _ snd) by (by intros ? [??]).
  by rewrite enumerate_snd, elem_of_chars.
Qed.

Lemma itos_lookup_None i : vocab_size text ≤ i → itos text !! i = None.
Proof.
  intros Hi. unfold itos. apply dict_of_lookup_None.
  rewrite <- list_fmap_compose.
  rewrite (list_fmap_ext _ fst) by (by intros ? [??]).
  rewrite enumerate_fst, elem_of_seq. unfold vocab_size in Hi. lia.
Qed.

Lemma stoi_Some c i : stoi text !! c = Some i ↔ chars text !! i = Some c.
Proof.
  split; [|apply stoi_lookup].
  intros Hc. destruct (decide (c ∈ text)) as [Hin|Hout].
  - apply elem_of_chars, list_elem_of_lookup in Hin as [j Hj].
    rewrite (stoi_lookup _ _ _ Hj) in Hc. by injection Hc as <-.
  - by rewrite stoi_lookup_None in Hc.
Qed.

Lemma chars_lookup_below (s : pystr) (l : list nat) :
  Forall2 (fun c i => chars text !! i = Some c) s l →
  Forall (fun i => i < vocab_size text) l.
Proof.
  induction 1 as [|c i s l Hi _ IH]; constructor; [|done].
  by eapply lookup_lt_Some.
Qed.

Lemma chars_lookup_in (s : pystr) (l : list nat) :
  Forall2 (fun c i => chars text !! i = Some c) s l →
  Forall (fun c => c ∈ text) s.
Proof.
  induction 1 as [|c i s l Hi _ IH]; constructor; [|done].
  apply elem_of_chars. by eapply list_elem_of_lookup_2.
Qed.

Lemma getitem_stoi c :
  (c ∈ text ∧ ∃ i, getitem (stoi text) c = Ok i ∧ chars text !! i = Some c) ∨
  ((c ∉ text) ∧ getitem (stoi text) c = Raise KeyError).
Proof.
  destruct (decide (c ∈ text)) as [Hin|Hout].
  - left. split; [done|].
    apply elem_of_chars, list_elem_of_lookup in Hin as [i Hi].
    exists i. split; [|done]. by apply getitem_Some, stoi_lookup.
  - right. split; [done|]. unfold getitem. by rewrite stoi_lookup_None.
Qed.

Lemma getitem_itos i :
  (i < vocab_size text ∧
   ∃ c, getitem (itos text) i = Ok [c] ∧ chars text !! i = Some c) ∨
  (vocab_size text ≤ i ∧ getitem (itos text) i = Raise KeyError).
Proof.
  destruct (decide (i < vocab_size text)) as [Hlt|Hge].
  - left. split; [done|].
    destruct (lookup_lt_is_Some_2 (chars text) i Hlt) as [c Hc].
    exists c. split; [|done]. by apply getitem_Some, itos_lookup.
  - right. split; [lia|]. unfold getitem. rewrite itos_lookup_None; [done|lia].
Qed.

(** X1. [encode] returns exactly on the strings made of symbols of the
    corpus, one token below [vocab_size] per symbol; on any other
    string it raises [KeyError]. *)
Theorem encode_returns_iff (s : pystr) :
  ((∃ l, encode text s = Ok l) ↔ Forall (fun c => c ∈ text) s) ∧
  (encode text s = Raise KeyError ↔ Exists (fun c => c ∉ text) s) ∧
  (∀ l, encode text s = Ok l →
        length l = length s ∧ Forall (fun i => i < vocab_size text) l).
Proof.
  assert (Hok : Forall (fun c => c ∈ text) s →
                ∃ l, encode text s = Ok l ∧ length l = length s ∧
                     Forall (fun i => i < vocab_size text) l).
  { intros Hs. destruct (encode_in_vocab text s Hs) as (l & Hl & Hsl).
    exists l. split; [done|]. split.
    - symmetry. by eapply Forall2_length.
    - clear Hl Hs. induction Hsl as [|c i s l Hi _ IH]; constructor; [|done].
      by eapply lookup_lt_Some. }
  assert (Hraise : Exists (fun c => c ∉ text) s → encode text s = Raise KeyError).
  { intros Hex. apply Exists_exists in Hex as (c & Hc & Hout).
    unfold encode. apply mapM_outcome_Raise.
    - intros x _. destruct (getitem_stoi x) as [(_ & i & Hi & _)|[_ Hx]];
        [left; by exists i|by right].
    - exists c. split; [done|].
      by destruct (getitem_stoi c) as [[Hin _]|[_ Hx]]. }
  assert (Hdec : Forall (fun c => c ∈ text) s ∨ Exists (fun c => c ∉ text) s).
  { destruct (decide (Forall (fun c => c ∈ text) s)) as [?|Hn]; [by left|].
    right. by apply not_Forall_Exists in Hn; [|apply _]. }
  split; [|split].
  - split; [|intros Hs; destruct (Hok Hs) as (l & ? & _); by exists l].
    intros [l Hl]. destruct Hdec as [?|Hex]; [done|].
    by rewrite (Hraise Hex) in Hl.
  - split; [|done]. intros Hr. destruct Hdec as [Hs|?]; [|done].
    destruct (Hok Hs) as (l & Hl & _). by rewrite Hl in Hr.
  - intros l Hl. destruct Hdec as [Hs|Hex].
    + destruct (Hok Hs) as (l' & Hl' & ?). rewrite Hl in Hl'. by injection Hl' as <-.
    + by rewrite (Hraise Hex) in Hl.
Qed.

Lemma decode_chars (l : list nat) :
  Forall (fun i => i < vocab_size text) l →
  ∃ s, decode text l = Ok s ∧ Forall2 (fun c i => chars text !! i = Some c) s l.
Proof.
  induction 1 as [|i l Hi _ (s & Hs & IH)].
  - by exists [].
  - destruct (lookup_lt_is_Some_2 (chars text) i Hi) as [c Hc].
    exists (c :: s). split; [|by constructor].
    apply decode_of_chars. constructor; [done|exact IH].
Qed.

(** X2. [decode] returns exactly on the lists of tokens below
    [vocab_size], one symbol of the corpus per token; on any other
    list it raises [KeyError]. *)
Theorem decode_returns_iff (l : list nat) :
  ((∃ s, decode text l = Ok s) ↔ Forall (fun i => i < vocab_size text) l) ∧
  (decode text l = Raise KeyError ↔ Exists (fun i => vocab_size text ≤ i) l) ∧
  (∀ s, decode text l = Ok s →
        length s = length l ∧ Forall (fun c => c ∈ text) s).
Proof.
  assert (Hok : Forall (fun i => i < vocab_size text) l →
                ∃ s, decode text l = Ok s ∧ length s = length l ∧
                     Forall (fun c => c ∈ text) s).
  { intros Hl. destruct (decode_chars l Hl) as (s & Hs & Hsl).
    exists s. split; [done|]. split; [by eapply Forall2_length|].
    clear Hs Hl. induction Hsl as [|c i s l Hi _ IH]; constructor; [|done].
    apply elem_of_chars. by eapply list_elem_of_lookup_2. }
  assert (Hraise : Exists (fun i => vocab_size text ≤ i) l →
                   decode text l = Raise KeyError).
  { intros Hex. apply Exists_exists in Hex as (i & Hi & Hge).
    unfold decode. rewrite (mapM_outcome_Raise _ KeyError); [done| |].
    - intros x _. destruct (getitem_itos x) as [(_ & c & Hc & _)|[_ Hx]];
        [left; by exists [c]|by right].
    - exists i. split; [done|].
      destruct (getitem_itos i) as [[Hlt _]|[_ Hx]]; [lia|done]. }
  assert (Hdec : Forall (fun i => i < vocab_size text) l ∨
                 Exists (fun i => vocab_size text ≤ i) l).
  { destruct (decide (Forall (fun i => i < vocab_size text) l)) as [?|Hn]; [by left|].
    right. apply not_Forall_Exists in Hn; [|apply _].
    eapply Exists_impl; [exact Hn|]. simpl. intros; lia. }
  split; [|split].
  - split; [|intros Hl; destruct (Hok Hl) as (s & ? & _); by exists s].
    intros [s Hs]. destruct Hdec as [?|Hex]; [done|].
    by rewrite (Hraise Hex) in Hs.
  - split; [|done]. intros Hr. destruct Hdec as [Hl|?]; [|done].
    destruct (Hok Hl) as (s & Hs & _). by rewrite Hs in Hr.
  - intros s Hs. destruct Hdec as [Hl|Hex].
    + destruct (Hok Hl) as (s' & Hs' & ?). rewrite Hs in Hs'. by injection Hs' as <-.
    + by rewrite (Hraise Hex) in Hs.
Qed.

(** X4. Both directions go symbol by symbol, so they distribute over
    concatenation: encoding s1 + s2 is encoding s1, then s2, and
    joining the lists (raising where the first of them raises), and
    likewise for decoding. *)
Theorem encode_app (s1 s2 : pystr) (l1 l2 : list nat) :
  encode text (s1 ++ s2)
  = (a ← encode text s1; b ← encode text s2; mret (a ++ b)) ∧
  decode text (l1 ++ l2)
  = (a ← decode text l1; b ← decode text l2; mret (a ++ b)).
Proof.
  split; [apply mapM_outcome_app|].
  unfold decode. rewrite mapM_outcome_app.
  destruct (mapM (getitem (itos text)) l1) as [a|e]; [|done]. simpl.
  destruct (mapM (getitem (itos text)) l2) as [b|e]; [|done]. simpl.
  unfold mret, outcome_ret. f_equal. apply concat_app.
Qed.

(** X3. The round trip in the other direction: a list of tokens below
    [vocab_size] decodes to a string that encodes back to the list. *)
Theorem encode_decode (l : list nat) :
  Forall (fun i => i < vocab_size text) l →
  ∃ s, decode text l = Ok s ∧ encode text s = Ok l.
Proof.
  intros Hl. destruct (decode_chars l Hl) as (s & Hs & Hsl).
  exists s. split; [done|].
  assert (Hin : Forall (fun c => c ∈ text) s).
  { clear Hs Hl. induction Hsl as [|c i s l Hi _ IH]; constructor; [|done].
    apply elem_of_chars. by eapply list_elem_of_lookup_2. }
  destruct (encode_in_vocab text s Hin) as (l' & Hl' & Hsl').
  rewrite Hl'. f_equal.
  clear Hs Hl Hl' Hin. revert l' Hsl'.
  induction Hsl as [|c i s l Hi _ IH]; intros l' Hsl'.
  - by apply Forall2_nil_inv_l in Hsl'.
  - apply Forall2_cons_inv_l in Hsl' as (i' & k & Hi' & Hk & ->).
    f_equal; [by eapply chars_lookup_inj|by apply IH].
Qed.

(** X5. Token ids follow the order of the code points: of two symbols
    of the corpus, the smaller one has the smaller id. *)
Theorem stoi_monotone (c1 c2 : N) (i1 i2 : nat) :
  stoi text !! c1 = Some i1 → stoi text !! c2 = Some i2 →
  ((c1 < c2)%N ↔ i1 < i2).
Proof.
  intros H1%stoi_Some H2%stoi_Some.
  pose proof chars_sorted as Hs.
  split; intros Hlt.
  - destruct (decide (i1 < i2)) as [?|Hge]; [done|].
    destruct (decide (i1 = i2)) as [->|Hne].
    { rewrite H1 in H2. injection H2 as ->. lia. }
    assert (c2 ≤ c1)%N; [|lia].
    apply (StronglySorted_lookup_lt N.le (chars text) i2 i1); [done..|lia].
  - assert (c1 ≤ c2)%N.
    { by apply (StronglySorted_lookup_lt N.le (chars text) i1 i2). }
    assert (c1 ≠ c2); [|lia].
    intros ->. pose proof (chars_lookup_inj _ _ _ H1 H2). lia.
Qed.

Lemma elem_of_data i : i ∈ data text ↔ i < vocab_size text.
Proof.
  pose proof (encode_text text) as He.
  destruct (encode_in_vocab text text) as (l & Hl & Hsl).
  { apply Forall_forall. by intros. }
  rewrite He in Hl. injection Hl as <-.
  split.
  - intros Hi. apply list_elem_of_lookup in Hi as [j Hj].
    destruct (Forall2_lookup_r _ _ _ _ _ Hsl Hj) as (c & _ & Hc).
    by eapply lookup_lt_Some.
  - intros Hi.
    destruct (lookup_lt_is_Some_2 (chars text) i Hi) as [c Hc].
    assert (Hin : c ∈ text). { apply elem_of_chars. by eapply list_elem_of_lookup_2. }
    apply list_elem_of_lookup in Hin as [j Hj].
    destruct (Forall2_lookup_l _ _ _ _ _ Hsl Hj) as (i' & Hi' & Hc').
    rewrite (chars_lookup_inj _ _ _ Hc Hc').
    by eapply list_elem_of_lookup_2.
Qed.

(** X6. The encoded corpus uses every token id and no other: a number
    occurs in [data] exactly when it is below [vocab_size], and the
    vocabulary is no larger than the corpus. *)
Theorem data_covers_vocabulary :
  (∀ i, i ∈ data text ↔ i < vocab_size text) ∧
  vocab_size text ≤ length text ∧
  (vocab_size text = 0 ↔ text = []).
Proof.
  split; [apply elem_of_data|]. split.
  - unfold vocab_size. apply submseteq_length, NoDup_submseteq.
    + apply NoDup_chars.
    + intros c. by rewrite elem_of_chars.
  - unfold vocab_size. split.
    + intros Hnil%nil_length_inv. destruct text as [|c t] eqn:Ht; [done|].
      assert (Hc : c ∈ chars text). { apply elem_of_chars. rewrite Ht. by left. }
      rewrite Ht, Hnil in Hc. by apply elem_of_nil in Hc.
    + intros ->. reflexivity.
Qed.
End vocabulary.

(** ** The split and the batches *)

Section split_lengths.
Variable text : pystr.

Lemma length_train_data : length (train_data text) = 9 * length (data text) / 10.
Proof.
  pose proof (n_le text) as Hle. pose proof (n_floor text) as Hn.
  unfold train_data. rewrite length_take.
  replace (n text `min` length (data text)) with (n text) by lia.
  apply Nat2Z.inj. rewrite Hn, Nat2Z.inj_div, Nat2Z.inj_mul. reflexivity.
Qed.

Lemma length_val_data :
  length (val_data text) = length (data text) - 9 * length (data text) / 10.
Proof.
  pose proof length_train_data as Ht. unfold train_data in Ht.
  rewrite length_take in Ht. pose proof (n_le text).
  unfold val_data. rewrite length_drop. lia.
Qed.

Lemma data_in_vocabulary : Forall (fun i => i < vocab_size text) (data text).
Proof.
  apply Forall_forall. intros i Hi.
  by apply elem_of_data.
Qed.

(** X7. The validation split holds at least a tenth of the tokens, so it
    is empty for the empty corpus only; the training split holds at
    most nine tenths, and is empty for a corpus of fewer than two
    symbols. *)
Theorem split_sizes :
  length (data text) ≤ 10 * length (val_data text) ∧
  10 * length (train_data text) ≤ 9 * length (data text) ∧
  (val_data text = [] ↔ text = []) ∧
  (train_data text = [] ↔ length text < 2).
Proof.
  pose proof length_train_data as Ht. pose proof length_val_data as Hv.
  pose proof (length_data text) as Hd.
  pose proof (Nat.div_mod_eq (9 * length (data text)) 10) as Hdiv.
  pose proof (Nat.mod_upper_bound (9 * length (data text)) 10) as Hmod.
  split; [lia|]. split; [lia|]. split.
  - split.
    + intros Hnil%(f_equal length). simpl in Hnil. apply nil_length_inv. lia.
    + intros Hnil%(f_equal length). simpl in Hnil. apply nil_length_inv. lia.
  - split.
    + intros Hnil%(f_equal length). simpl in Hnil. lia.
    + intros Hlt. apply nil_length_inv. lia.
Qed.

(** X8. What Python computes in binary64 is the length of the training
    split, for every corpus shorter than 65,536 symbols and for one of
    1,115,394 symbols (the length of the corpus that cell 2
    downloads). *)
Theorem train_split_length_binary64 :
  (Z.of_nat (length text) < 65536)%Z ∨ Z.of_nat (length text) = 1115394%Z →
  Binary64.n_binary64 (Z.of_nat (length (data text)))
    = Z.of_nat (length (train_data text)).
Proof.
  intros Hlen. rewrite <- (n_as_python_computes text Hlen).
  pose proof (n_le text). unfold train_data. rewrite length_take. lia.
Qed.
End split_lengths.

Section batches.
Context `{Hyper} `{TorchRandom} `{!Optimizer rng}.
Variable text : list N.

Lemma split_data_in_vocabulary split :
  Forall (fun i => i < vocab_size text) (split_data text split).
Proof.
  unfold split_data, train_data, val_data.
  destruct (String.eqb split "train").
  - apply Forall_take, data_in_vocabulary.
  - apply Forall_drop, data_in_vocabulary.
Qed.

Lemma get_batch_empty split w :
  block_size < length (split_data text split) → batch_size = 0 →
  ∃ w', get_batch text split w = (Raise RuntimeError, w') ∧ frame w w'.
Proof.
  intros Hlen Hbs. unfold get_batch. cbv zeta.
  generalize dependent (split_data text split). intros d Hlen.
  pose proof (length_randint (length d - block_size) batch_size (gen w)) as Hl.
  destruct (randint (length d - block_size) batch_size (gen w))
    as [ix g'] eqn:Hix. simpl in Hl.
  rewrite Hbs in Hl. apply nil_length_inv in Hl. subst ix.
  exists {| model := model w; training := training w; gen := g';
            optimizer := optimizer w |}.
  split; [|by split].
  unfold torch_randint. rewrite decide_False by (clear -Hlen; lia).
  rewrite <- Nat2Z.inj_sub, Nat2Z.id by (clear -Hlen; lia).
  unfold mbind, ST_bind, with_gen, lift. rewrite Hix. done.
Qed.

(** X9. [get_batch] returns exactly when the split is longer than the
    context length and the batch size is positive; otherwise it
    raises [RuntimeError] (from [torch.randint] or from
    [torch.stack]).  Either way it changes nothing but the state of
    the random generator. *)
Theorem get_batch_returns_iff split w :
  ((∃ x y w', get_batch text split w = (Ok (x, y), w')) ↔
   block_size < length (split_data text split) ∧ 0 < batch_size) ∧
  ((∃ w', get_batch text split w = (Raise RuntimeError, w')) ↔
   length (split_data text split) ≤ block_size ∨ batch_size = 0) ∧
  frame w (get_batch text split w).2.
Proof.
  destruct (decide (block_size < length (split_data text split))) as [Hlen|Hlen].
  - destruct (decide (0 < batch_size)) as [Hbs|Hbs].
    + destruct (get_batch_spec text split w Hlen Hbs)
        as (ix & x & y & w' & Hrun & Hfr & _).
      split; [|split].
      * split; [done|]. intros _. by exists x, y, w'.
      * split; [|lia]. intros [w'' Hr]. by rewrite Hrun in Hr.
      * by rewrite Hrun.
    + destruct (get_batch_empty split w Hlen) as (w' & Hrun & Hfr); [lia|].
      split; [|split].
      * split; [|lia]. intros (x & y & w'' & Hr). by rewrite Hrun in Hr.
      * split; [|intros _; by exists w']. intros _. right. lia.
      * by rewrite Hrun.
  - rewrite (get_batch_short text split w) by lia.
    split; [|split].
    + split; [|lia]. by intros (x & y & w'' & Hr).
    + split; [|intros _; by exists w]. intros _. left. lia.
    + by split.
Qed.

Lemma get_batch_batch split w :
  block_size < length (split_data text split) → 0 < batch_size →
  ∃ x y w',
    get_batch text split w = (Ok (x, y), w') ∧ frame w w' ∧
    shape2 batch_size block_size x ∧ shape2 batch_size block_size y ∧
    below (vocab_size text) x ∧ below (vocab_size text) y ∧
    ∀ i xr yr j, x !! i = Some xr → y !! i = Some yr →
                 S j < block_size → yr !! j = xr !! S j.
Proof.
  intros Hlen Hbs.
  destruct (get_batch_spec text split w Hlen Hbs)
    as (ix & x & y & w' & Hrun & Hfr & Hdraw & Hxs & Hys & Hoff & Hwin).
  assert (Hix : length ix = batch_size).
  { pose proof (length_randint (length (split_data text split) - block_size)
                  batch_size (gen w)) as Hl.
    by rewrite Hdraw in Hl. }
  pose proof (split_data_in_vocabulary split) as Hvoc.
  assert (Hrows : ∀ i xr yr, x !! i = Some xr → y !! i = Some yr →
            ∃ off, ∀ j, j < block_size →
              ∃ a c, split_data text split !! (off + j) = Some a ∧
                     split_data text split !! (off + j + 1) = Some c ∧
                     xr !! j = Some a ∧ yr !! j = Some c).
  { intros i xr yr Hxr Hyr.
    destruct (lookup_lt_is_Some_2 ix i) as [off Hoffi].
    { apply lookup_lt_Some in Hxr. destruct Hxs as [Hxl _]. lia. }
    destruct (Hwin i off Hoffi) as (xr' & yr' & Hxr' & Hyr' & Hj).
    rewrite Hxr in Hxr'. injection Hxr' as <-.
    rewrite Hyr in Hyr'. injection Hyr' as <-.
    by exists off. }
  assert (Hbelow : ∀ z : list (list nat),
            shape2 batch_size block_size z →
            (∀ i zr, z !! i = Some zr → ∀ j, j < block_size →
               ∃ a k, split_data text split !! k = Some a ∧ zr !! j = Some a) →
            below (vocab_size text) z).
  { intros z [_ Hzs] Hz. apply Forall_forall. intros zr Hzr.
    apply list_elem_of_lookup in Hzr as [i Hi].
    apply Forall_forall. intros a Ha.
    apply list_elem_of_lookup in Ha as [j Hj].
    assert (Hjlt : j < block_size).
    { apply lookup_lt_Some in Hj.
      eapply Forall_forall in Hzs; [|by eapply list_elem_of_lookup_2].
      simpl in Hzs. lia. }
    destruct (Hz i zr Hi j Hjlt) as (a' & k & Hk & Hj').
    rewrite Hj in Hj'. injection Hj' as <-.
    eapply Forall_forall in Hvoc; [exact Hvoc|].
    by eapply list_elem_of_lookup_2. }
  exists x, y, w'. split; [done|]. split; [done|]. split; [done|]. split; [done|].
  split; [|split].
  - apply (Hbelow x Hxs). intros i xr Hxr j Hj.
    destruct (lookup_lt_is_Some_2 y i) as [yr Hyr].
    { apply lookup_lt_Some in Hxr. destruct Hxs as [Hxl _], Hys as [Hyl _]. lia. }
    destruct (Hrows i xr yr Hxr Hyr) as (off & Hrow).
    destruct (Hrow j Hj) as (a & c & Ha & _ & Hx & _).
    by exists a, (off + j).
  - apply (Hbelow y Hys). intros i yr Hyr j Hj.
    destruct (lookup_lt_is_Some_2 x i) as [xr Hxr].
    { apply lookup_lt_Some in Hyr. destruct Hxs as [Hxl _], Hys as [Hyl _]. lia. }
    destruct (Hrows i xr yr Hxr Hyr) as (off & Hrow).
    destruct (Hrow j Hj) as (a & c & _ & Hc & _ & Hy).
    by exists c, (off + j + 1).
  - intros i xr yr j Hxr Hyr Hj.
    destruct (Hrows i xr yr Hxr Hyr) as (off & Hrow).
    destruct (Hrow j) as (a & c & _ & Hc & _ & Hy); [lia|].
    destruct (Hrow (S j) Hj) as (a' & c' & Ha' & _ & Hx' & _).
    rewrite Hy, Hx'. rewrite <- Hc, <- Ha'. f_equal. lia.
Qed.
(** X10. In a batch, the targets are the inputs one position later: entry
    j of a target row is entry j + 1 of the input row, and every
    token of both is below [vocab_size]. *)
Theorem get_batch_targets_shifted split w :
  block_size < length (split_data text split) → 0 < batch_size →
  ∃ x y w',
    get_batch text split w = (Ok (x, y), w') ∧
    shape2 batch_size block_size x ∧ shape2 batch_size block_size y ∧
    below (vocab_size text) x ∧ below (vocab_size text) y ∧
    ∀ i xr yr j, x !! i = Some xr → y !! i = Some yr →
                 S j < block_size → yr !! j = xr !! S j.
Proof.
  intros Hlen Hbs.
  destruct (get_batch_batch split w Hlen Hbs) as (x & y & w' & Hrun & _ & Hrest).
  by exists x, y, w'.
Qed.
End batches.

(** ** What a forward pass touches *)

Section effects.
Context `{Hyper} `{TorchRandom} `{!Optimizer rng}.
Variable text : list N.

Lemma draws_ret {A} (a : A) : only_draws (mret a).
Proof. intros w. apply frame_refl. Qed.

Lemma draws_lift {A} (o : outcome A) : only_draws (lift o).
Proof. intros w. apply frame_refl. Qed.

Lemma draws_bind {A B} (m : M A) (f : A → M B) :
  only_draws m → (∀ a, only_draws (f a)) → only_draws (m ≫= f).
Proof.
  intros Hm Hf w. specialize (Hm w). unfold mbind, ST_bind.
  destruct (m w) as [[a|e] w']; simpl in *; [|done].
  eapply frame_trans; [exact Hm|apply Hf].
Qed.

Lemma draws_with_gen {A} (f : rng → A * rng) : only_draws (with_gen f).
Proof. intros w. unfold with_gen. by destruct (f (gen w)). Qed.

Lemma draws_get_model : only_draws get_model.
Proof. intros w. apply frame_refl. Qed.

Lemma draws_is_training : only_draws is_training.
Proof. intros w. apply frame_refl. Qed.

Lemma draws_mapM {A B} (f : A → M B) l :
  (∀ x, only_draws (f x)) → only_draws (mapM f l).
Proof.
  intros Hf. induction l as [|x l IH]; [apply draws_ret|].
  change (only_draws (y ← f x; k ← mapM f l; mret (y :: k))).
  apply draws_bind; [done|]. intros y.
  apply draws_bind; [done|]. intros k. apply draws_ret.
Qed.

Create HintDb draws discriminated.
Hint Resolve draws_ret draws_lift draws_with_gen draws_get_model
  draws_is_training : draws.

Ltac draws :=
  repeat first
    [ solve [auto with draws]
    | apply draws_bind; [|intros]
    | apply draws_mapM; intros
    | match goal with
      | |- only_draws (match ?x with _ => _ end) => destruct x
      | |- only_draws (let '(_, _) := ?x in _) => destruct x
      end ].

Lemma draws_Dropout_forward p x : only_draws (Dropout_forward p x).
Proof. unfold Dropout_forward, Dropout_row. draws. Qed.
Hint Resolve draws_Dropout_forward : draws.

Lemma draws_Head_forward h x : only_draws (Head_forward h x).
Proof. unfold Head_forward, Head_forward_trace. draws. Qed.
Hint Resolve draws_Head_forward : draws.

Lemma draws_MultiHeadAttention_forward m x :
  only_draws (MultiHeadAttention_forward m x).
Proof. unfold MultiHeadAttention_forward. draws. Qed.
Hint Resolve draws_MultiHeadAttention_forward : draws.

Lemma draws_FeedFoward_forward f x : only_draws (FeedFoward_forward f x).
Proof. unfold FeedFoward_forward. draws. Qed.
Hint Resolve draws_FeedFoward_forward : draws.

Lemma draws_Block_forward b x : only_draws (Block_forward b x).
Proof. unfold Block_forward. draws. Qed.
Hint Resolve draws_Block_forward : draws.

Lemma draws_Sequential_forward bs x : only_draws (Sequential_forward bs x).
Proof. revert x. induction bs as [|b bs IH]; intros x; simpl; draws. Qed.
Hint Resolve draws_Sequential_forward : draws.

Lemma draws_forward self idx targets : only_draws (forward self idx targets).
Proof. unfold forward. draws. Qed.
Hint Resolve draws_forward : draws.

Lemma draws_call_model idx targets : only_draws (call_model idx targets).
Proof. unfold call_model. draws. Qed.
Hint Resolve draws_call_model : draws.

Lemma draws_generate_body idx : only_draws (generate_body idx).
Proof. unfold generate_body, sample_next, torch_multinomial. draws. Qed.
Hint Resolve draws_generate_body : draws.

Lemma draws_generate idx k : only_draws (generate idx k).
Proof. revert idx. induction k as [|k IH]; intros idx; simpl; draws. Qed.

Lemma draws_get_batch split : only_draws (get_batch text split).
Proof. unfold get_batch, torch_randint. draws. Qed.

(** X11. A forward pass, [generate] and [get_batch] change nothing but
    the state of the random generator, on a normal return and on a
    raise: the parameters, the state of the optimizer and the mode
    stay.  In particular [generate] never switches the model to eval
    mode, so a model left in training mode samples with dropout. *)
Theorem inference_only_draws w :
  (∀ idx targets, frame w (call_model idx targets w).2) ∧
  (∀ idx k, frame w (generate idx k w).2) ∧
  (∀ idx k, training w = true → training (generate idx k w).2 = true) ∧
  (∀ split, frame w (get_batch text split w).2).
Proof.
  split; [|split; [|split]].
  - intros idx targets. apply draws_call_model.
  - intros idx k. apply draws_generate.
  - intros idx k Htr. destruct (draws_generate idx k w) as (_ & -> & _). done.
  - intros split. apply draws_get_batch.
Qed.

(** *** Eval mode *)

Lemma pure_ret {A} (a : A) : pure_in_eval (mret a).
Proof. by exists (Ok a). Qed.

Lemma pure_lift {A} (o : outcome A) : pure_in_eval (lift o).
Proof. by exists o. Qed.

Lemma pure_bind {A B} (m : M A) (f : A → M B) :
  pure_in_eval m → (∀ a, pure_in_eval (f a)) → pure_in_eval (m ≫= f).
Proof.
  intros [[a|e] Hm] Hf.
  - destruct (Hf a) as [o Ho]. exists o. intros w Hw.
    unfold mbind, ST_bind. rewrite Hm by done. by apply Ho.
  - exists (Raise e). intros w Hw.
    unfold mbind, ST_bind. by rewrite Hm.
Qed.

Lemma pure_mapM {A B} (f : A → M B) l :
  (∀ x, pure_in_eval (f x)) → pure_in_eval (mapM f l).
Proof.
  intros Hf. induction l as [|x l IH]; [apply pure_ret|].
  change (pure_in_eval (y ← f x; k ← mapM f l; mret (y :: k))).
  apply pure_bind; [done|]. intros y.
  apply pure_bind; [done|]. intros k. apply pure_ret.
Qed.

Lemma pure_Dropout_forward p x : pure_in_eval (Dropout_forward p x).
Proof.
  exists (Ok x). intros w Hw.
  unfold Dropout_forward, mbind, ST_bind, is_training. by rewrite Hw.
Qed.

Create HintDb pure discriminated.
Hint Resolve pure_ret pure_lift pure_Dropout_forward : pure.

Ltac pure :=
  repeat first
    [ solve [auto with pure]
    | apply pure_bind; [|intros]
    | apply pure_mapM; intros
    | match goal with
      | |- pure_in_eval (match ?x with _ => _ end) => destruct x
      | |- pure_in_eval (let '(_, _) := ?x in _) => destruct x
      end ].

Lemma pure_Head_forward h x : pure_in_eval (Head_forward h x).
Proof. unfold Head_forward, Head_forward_trace. pure. Qed.
Hint Resolve pure_Head_forward : pure.

Lemma pure_MultiHeadAttention_forward m x :
  pure_in_eval (MultiHeadAttention_forward m x).
Proof. unfold MultiHeadAttention_forward. pure. Qed.
Hint Resolve pure_MultiHeadAttention_forward : pure.

Lemma pure_FeedFoward_forward f x : pure_in_eval (FeedFoward_forward f x).
Proof. unfold FeedFoward_forward. pure. Qed.
Hint Resolve pure_FeedFoward_forward : pure.

Lemma pure_Block_forward b x : pure_in_eval (Block_forward b x).
Proof. unfold Block_forward. pure. Qed.
Hint Resolve pure_Block_forward : pure.

Lemma pure_Sequential_forward bs x : pure_in_eval (Sequential_forward bs x).
Proof. revert x. induction bs as [|b bs IH]; intros x; simpl; pure. Qed.
Hint Resolve pure_Sequential_forward : pure.

Lemma pure_forward self idx targets : pure_in_eval (forward self idx targets).
Proof. unfold forward. pure. Qed.

(** X12. In eval mode the forward pass draws nothing: it leaves the world
    as it was, the generator included, and its outcome (the logits
    and the loss, or the exception) is the same in every world, so it
    is a function of the parameters, the tokens and the targets.  The
    same holds for each layer. *)
Theorem forward_in_eval_mode self idx targets :
  (∃ o, ∀ w, training w = false → forward self idx targets w = (o, w)) ∧
  (∀ b x, ∃ o, ∀ w, training w = false → Block_forward b x w = (o, w)) ∧
  (∀ h x, ∃ o, ∀ w, training w = false → Head_forward h x w = (o, w)).
Proof.
  split; [apply pure_forward|]. split.
  - intros b x. apply pure_Block_forward.
  - intros h x. apply pure_Head_forward.
Qed.
End effects.

(** ** Inputs that a forward pass refuses *)

Lemma Embedding_forward_outcome num dim e (idx : list nat) :
  Embedding_ok num dim e →
  (Forall (fun i => i < num) idx ∧ ∃ y, Embedding_forward e idx = Ok y) ∨
  (Exists (fun i => num ≤ i) idx ∧ Embedding_forward e idx = Raise IndexError).
Proof.
  intros He.
  destruct (decide (Forall (fun i => i < num) idx)) as [Hall|Hn].
  - left. split; [done|].
    destruct (Embedding_forward_shape _ _ _ idx He Hall) as (y & Hy & _).
    by exists y.
  - right. apply not_Forall_Exists in Hn; [|apply _].
    assert (Hex : Exists (fun i => num ≤ i) idx).
    { eapply Exists_impl; [exact Hn|]. simpl. intros; lia. }
    split; [done|]. unfold Embedding_forward.
    apply mapM_outcome_Raise.
    + intros i _. destruct (emb_weight e !! i) as [row|]; [left; by exists row|by right].
    + apply Exists_exists in Hex as (i & Hi & Hge). exists i. split; [done|].
      destruct He as [Hlen _]. rewrite lookup_ge_None_2; [done|lia].
Qed.

Lemma masked_fill_mismatch (wei : tensor3) (mask : list (list bool)) :
  length mask ≠ dim1 wei → length mask ≠ 1 →
  masked_fill wei mask = Raise RuntimeError.
Proof.
  intros Hlen H1. unfold masked_fill.
  rewrite decide_False by (intros [? _]; done).
  by destruct mask as [|[|m [|m' r]] [|r' mask]].
Qed.

Lemma nll_outcome (row : list R) (t : nat) :
  (t < length row ∧ ∃ l, nll row t = Ok l) ∨
  (length row ≤ t ∧ nll row t = Raise IndexError).
Proof.
  unfold nll. destruct (log_softmax row !! t) as [l|] eqn:Hl.
  - left. apply lookup_lt_Some in Hl. unfold log_softmax in Hl.
    rewrite length_fmap in Hl. split; [done|]. by eexists.
  - right. apply lookup_ge_None in Hl. unfold log_softmax in Hl.
    by rewrite length_fmap in Hl.
Qed.

Section refusals.
Context `{Hyper} `{TorchRandom} `{!Optimizer rng}.
Variable text : list N.

(** The forward pass with targets runs the forward pass without
    them, from the same state, and then computes the loss on the
    flattened logits. *)
Lemma forward_with_targets m idx tg w x w' :
  forward m idx None w = (Ok (Logits3 x, None), w') →
  forward m idx (Some tg) w
  = (t ← view1 tg (length (concat x));
     loss ← cross_entropy (concat x) t;
     mret (Logits2 (concat x), Some loss), w').
Proof.
  intros Hrun. unfold forward in *. cbv zeta in *.
  apply bind_Ok_inv in Hrun as (tok & w1 & H1 & Hrun).
  rewrite (bind_Ok _ _ _ _ _ H1).
  apply bind_Ok_inv in Hrun as (pos & w2 & H2 & Hrun).
  rewrite (bind_Ok _ _ _ _ _ H2).
  apply bind_Ok_inv in Hrun as (y & w3 & H3 & Hrun).
  rewrite (bind_Ok _ _ _ _ _ H3).
  apply bind_Ok_inv in Hrun as (z & w4 & H4 & Hrun).
  rewrite (bind_Ok _ _ _ _ _ H4).
  apply bind_Ok_inv in Hrun as (logits & w5 & H5 & Hrun).
  rewrite (bind_Ok _ _ _ _ _ H5).
  injection Hrun as <- <-.
  unfold mbind, ST_bind, lift.
  destruct (view1 tg (length (concat logits))) as [t|e]; [|done]. simpl.
  by destruct (cross_entropy (concat logits) t).
Qed.

(** X13. A token that is not below [vocab_size] makes the forward pass
    raise [IndexError] at the token embedding, before anything is
    drawn. *)
Theorem forward_token_out_of_vocabulary m idx targets w :
  GPTLanguageModel_ok text m →
  ¬ below (vocab_size text) idx →
  forward m idx targets w = (Raise IndexError, w).
Proof.
  intros (Htok & _) Hbad. unfold forward. cbv zeta.
  apply bind_Raise. unfold lift. f_equal.
  apply not_Forall_Exists in Hbad; [|apply _].
  apply mapM_outcome_Raise.
  - intros row _.
    destruct (Embedding_forward_outcome _ _ _ row Htok) as [[_ [y Hy]]|[_ Hr]];
      [left; by exists y|by right].
  - apply Exists_exists in Hbad as (row & Hrow & Hn). exists row. split; [done|].
    destruct (Embedding_forward_outcome _ _ _ row Htok) as [[Hall _]|[_ Hr]]; done.
Qed.

(** X14. A batch whose rows are longer than [block_size] makes the forward
    pass raise [IndexError] at the position embedding, before
    anything is drawn: this is why [generate] crops. *)
Theorem forward_sequence_too_long m idx targets b t w :
  GPTLanguageModel_ok text m →
  shape2 b t idx → 0 < b → below (vocab_size text) idx →
  block_size < t →
  forward m idx targets w = (Raise IndexError, w).
Proof.
  intros (Htok & Hpos & _) Hidx Hb Hbelow Ht. unfold forward. cbv zeta.
  destruct (mapM_outcome_Ok (Embedding_forward (token_embedding_table m))
              (fun _ _ => True) idx) as (tok_emb & Htok_emb & _).
  { intros row Hin.
    destruct (Embedding_forward_shape _ _ _ row Htok) as (y & Hy & _).
    - eapply Forall_forall in Hbelow; [exact Hbelow|done].
    - by exists y. }
  rewrite (bind_Ok _ _ w tok_emb w) by (unfold lift; by rewrite Htok_emb).
  apply bind_Raise. unfold lift. f_equal.
  rewrite (dim1_shape2 _ _ _ Hidx Hb).
  destruct (Embedding_forward_outcome _ _ _ (seq 0 t) Hpos) as [[Hall _]|[_ Hr]];
    [|done].
  eapply Forall_forall in Hall; [|apply elem_of_seq; split; [|exact Ht]; lia].
  simpl in Hall. lia.
Qed.

(** X15. Targets that do not hold one entry per input token make the
    forward pass raise [RuntimeError] (at [targets.view(B*T)]); a
    target that is not below [vocab_size] makes it raise [IndexError]
    (in [F.cross_entropy]).  Both happen after the logits have been
    computed. *)
Theorem forward_bad_targets m idx tg b t w :
  GPTLanguageModel_ok text m → 0 < n_head → n_head ≤ n_embd →
  t ≤ block_size →
  shape2 b t idx → below (vocab_size text) idx →
  length (concat tg) ≠ b * t ∨ ¬ Forall (fun i => i < vocab_size text) (concat tg) →
  ∃ w', forward m idx (Some tg) w
        = (Raise (if decide (length (concat tg) = b * t)
                  then IndexError else RuntimeError), w').
Proof.
  intros Hm Hnh Hhs Ht Hidx Hbelow Hbad.
  destruct (forward_spec text m idx None b t w Hm Hnh Hhs Ht Hidx Hbelow)
    as ([logits loss] & w' & Hrun & (x & [= -> ->] & Hx) & _); [done|].
  exists w'. rewrite (forward_with_targets _ _ _ _ _ _ Hrun). f_equal.
  pose proof (shape2_concat _ _ _ _ Hx) as [Hlen Hrows].
  unfold view1. rewrite Hlen.
  destruct (decide (length (concat tg) = b * t)) as [Heq|Hne]; [|done].
  destruct Hbad as [?|Hbad]; [done|].
  unfold mbind at 1; unfold outcome_bind at 1; cbv beta iota.
  unfold cross_entropy. rewrite decide_True by lia.
  rewrite (mapM_outcome_Raise _ IndexError); [done| |].
  - intros [row tk] _. destruct (nll_outcome row tk) as [[_ [l Hl]]|[_ Hr]];
      [left; by exists l|by right].
  - apply not_Forall_Exists in Hbad; [|apply _].
    apply Exists_exists in Hbad as (tk & Htk & Hge).
    apply list_elem_of_lookup in Htk as [i Hi].
    destruct (lookup_lt_is_Some_2 (concat x) i) as [row Hrow].
    { apply lookup_lt_Some in Hi. lia. }
    exists (row, tk). split.
    + apply list_elem_of_lookup. exists i.
      apply lookup_zip_with_Some. by exists row, tk.
    + eapply Forall_forall in Hrows; [|by eapply list_elem_of_lookup_2].
      simpl in Hrows, Hge.
      destruct (nll_outcome row tk) as [[Hlt _]|[_ Hr]]; [lia|done].
Qed.

(** X16. A head refuses a sequence longer than [block_size]: the mask cut
    from [tril] is then smaller than the scores, and [masked_fill]
    raises [RuntimeError] (unless [block_size] is 1, when torch
    broadcasts the 1x1 mask). *)
Theorem Head_forward_sequence_too_long hs h b t x w :
  Head_ok hs h → 0 < hs → shape3 b t n_embd x → 0 < b →
  block_size < t → block_size ≠ 1 →
  Head_forward h x w = (Raise RuntimeError, w).
Proof.
  intros (Hkey & Hquery & _ & Htril) Hhs Hx Hb Ht Hbs.
  unfold Head_forward. apply bind_Raise.
  unfold Head_forward_trace. apply bind_Raise. unfold lift. f_equal.
  destruct (Linear_forward_shape _ _ _ _ _ _ _ Hkey Hx) as (k & Hk & _ & Hks).
  destruct (Linear_forward_shape _ _ _ _ _ _ _ Hquery Hx) as (q & Hq & _ & Hqs).
  unfold attention_weights. ostep Hk. ostep Hq.
  destruct Hkey as (_ & -> & _).
  unfold pow_neg_half. rewrite decide_False by lia.
  unfold mbind at 1; unfold outcome_bind at 1; cbv beta iota.
  set (wei0 := elems _ (zip_with matmul_nt q k)).
  assert (Hw0 : shape3 b t t wei0).
  { apply shape3_elems.
    eapply (shape3_zip_with matmul_nt); [|exact Hqs|exact Hks].
    intros mx my [Hmx _] [Hmy _]. by apply shape2_matmul_nt. }
  rewrite masked_fill_mismatch; [done| |].
  - rewrite (dim1_shape3 _ _ _ _ Hw0 Hb), (dim1_shape3 _ _ _ _ Hx Hb).
    unfold mask_of. rewrite length_fmap, length_take, Htril.
    unfold torch_tril, ones. rewrite length_imap, length_replicate. lia.
  - rewrite (dim1_shape3 _ _ _ _ Hx Hb).
    unfold mask_of. rewrite length_fmap, length_take, Htril.
    unfold torch_tril, ones. rewrite length_imap, length_replicate. lia.
Qed.
End refusals.

(** ** The shape of what the layers return *)

Section layer_shapes.
Context `{Hyper} `{TorchRandom} `{!Optimizer rng}.

(** X17. A block returns a tensor of the shape of its input, in either
    mode, and so do its attention layer and its feed-forward net: the
    heads concatenate to n_head * (n_embd // n_head) features, which
    the projection maps back to n_embd, also when n_head does not
    divide n_embd. *)
Theorem Block_forward_keeps_shape blk b t x w :
  Block_ok n_embd n_head blk → 0 < n_head → n_head ≤ n_embd →
  t ≤ block_size → shape3 b t n_embd x →
  (∃ y w', Block_forward blk x w = (Ok y, w') ∧ shape3 b t n_embd y) ∧
  (∃ a w', MultiHeadAttention_forward (sa blk) x w = (Ok a, w') ∧
           shape3 b t n_embd a) ∧
  (∃ f w', FeedFoward_forward (ffwd blk) x w = (Ok f, w') ∧
           shape3 b t n_embd f).
Proof.
  intros Hblk Hnh Hhs Ht Hx.
  assert (Hpos : 0 < n_embd / n_head) by (apply Nat.div_str_pos; lia).
  split; [|split].
  - destruct (Block_forward_spec n_head blk b t x w Hblk Hnh Hpos Ht Hx)
      as (y & w' & Hrun & Hy & _).
    by exists y, w'.
  - destruct Hblk as (Hsa & _).
    destruct (MultiHeadAttention_forward_spec _ _ _ b t x w Hsa Hnh Hpos Ht Hx)
      as (a & w' & Hrun & Ha & _).
    by exists a, w'.
  - destruct Hblk as (_ & Hff & _).
    destruct (FeedFoward_forward_spec _ b t x w Hff Hx)
      as (f & w' & Hrun & Hf & _).
    by exists f, w'.
Qed.
End layer_shapes.

(** ** The loss estimator and the training loop *)

Section training.
Context `{Hyper} `{TorchRandom} `{!Optimizer rng}.
Variable text : list N.

Lemma runs_foldM {A B} (f : B → A → M B) (I : B → Prop) l b w :
  I b →
  (∀ b0 x w', x ∈ l → frame w w' → I b0 → runs (f b0 x) w' I) →
  runs (foldM f b l) w I.
Proof.
  revert b w. induction l as [|x l IH]; intros b w Hb Hf; simpl.
  - by apply runs_ret.
  - eapply runs_bind.
    + apply Hf; [by left|apply frame_refl|done].
    + intros b' w' Hfr Hb'. apply IH; [done|].
      intros b0 y w'' Hy Hfr' Hb0. apply Hf; [by right| |done].
      by eapply frame_trans.
Qed.

Lemma draws_foldM {A B} (f : B → A → M B) b l :
  (∀ b x, only_draws (f b x)) → only_draws (foldM f b l).
Proof.
  intros Hf. revert b. induction l as [|x l IH]; intros b; [apply draws_ret|].
  simpl. by apply draws_bind.
Qed.

(** The body of the inner loop of [estimate_loss]. *)
Definition evaluate_batch (split : string) (losses : list pyfloat) (k : nat)
  : M (list pyfloat) :=
  '(X, Y) ← get_batch text split;
  '(logits, loss) ← call_model X (Some Y);
  l ← lift (item loss);
  mret (<[k := l]> losses).

Definition nonneg_floats (k : nat) (losses : list pyfloat) : Prop :=
  length losses = k ∧ Forall (fun f => ∃ r, f = Float r ∧ (0 <= r)%R) losses.

Lemma evaluate_batch_spec split losses k w :
  GPTLanguageModel_ok text (model w) → 0 < n_head → n_head ≤ n_embd →
  0 < block_size →
  block_size < length (split_data text split) → 0 < batch_size →
  nonneg_floats eval_iters losses →
  runs (evaluate_batch split losses k) w (nonneg_floats eval_iters).
Proof.
  intros Hm Hnh Hhs Hbs Hlen Hb [Hl Hlosses]. unfold evaluate_batch.
  destruct (get_batch_batch text split w Hlen Hb)
    as (x & y & w1 & Hrun & Hfr & Hxs & Hys & Hxb & Hyb & _).
  eapply runs_bind.
  { exists (x, y), w1. split; [exact Hrun|]. split; [|exact Hfr].
    instantiate (1 := fun xy => xy = (x, y)). reflexivity. }
  intros ? w2 Hfr2 ->. cbv beta iota.
  eapply runs_bind.
  { unfold call_model. eapply runs_bind; [by apply (runs_get_model _ (fun m => m = model w2))|].
    intros m w3 Hfr3 ->.
    apply (forward_spec text (model w2) x (Some y) batch_size block_size);
      [|done|done|lia|done|done|].
    - destruct Hfr2 as [-> _]. done.
    - intros tg [= <-]. by split. }
  intros [logits loss] w3 Hfr3 (lg & l & [= -> ->] & _ & Hloss).
  eapply runs_bind; [by apply (runs_lift _ _ l (fun a => a = l))|].
  intros ? w4 Hfr4 ->. apply runs_ret.
  assert (Hpos : ∃ k', batch_size * block_size = S k').
  { exists (batch_size * block_size - 1). nia. }
  destruct Hpos as [k' Hk']. rewrite Hk' in Hloss.
  split; [by rewrite length_insert|].
  destruct (decide (k < length losses)) as [Hk|Hk].
  - apply Forall_insert; done.
  - rewrite list_insert_ge by lia. done.
Qed.

Definition evaluate_split (out : gmap string pyfloat) (split : string)
  : M (gmap string pyfloat) :=
  losses ← foldM (evaluate_batch split)
              (replicate eval_iters (Float 0)) (seq 0 eval_iters);
  mret (<[split := mean losses]> out).

Lemma nonneg_floats_mean losses :
  nonneg_floats eval_iters losses → loss_of eval_iters (mean losses).
Proof.
  intros [Hl Hlosses].
  assert (Hrs : ∃ rs, losses = Float <$> rs ∧ Forall (fun r => (0 <= r)%R) rs).
  { clear Hl. induction Hlosses as [|f l (r & -> & Hr) _ (rs & -> & Hrs)].
    - by exists [].
    - exists (r :: rs). split; [done|]. by constructor. }
  destruct Hrs as (rs & -> & Hrs). rewrite length_fmap in Hl. rewrite <- Hl.
  by apply mean_nonneg.
Qed.

Lemma evaluate_split_spec out split w :
  GPTLanguageModel_ok text (model w) → 0 < n_head → n_head ≤ n_embd →
  0 < block_size →
  block_size < length (split_data text split) → 0 < batch_size →
  runs (evaluate_split out split) w
    (fun out' => ∃ l, out' = <[split := l]> out ∧ loss_of eval_iters l).
Proof.
  intros Hm Hnh Hhs Hbs Hlen Hb. unfold evaluate_split.
  eapply runs_bind.
  - apply (runs_foldM _ (nonneg_floats eval_iters)).
    + split; [by rewrite length_replicate|].
      apply Forall_replicate. exists 0%R. split; [done|lra].
    + intros losses k w' _ Hfr Hl. apply evaluate_batch_spec; try done.
      destruct Hfr as [-> _]. done.
  - intros losses w' _ Hl. apply runs_ret.
    exists (mean losses). split; [done|]. by apply nonneg_floats_mean.
Qed.

Lemma estimate_loss_spec w :
  GPTLanguageModel_ok text (model w) → 0 < n_head → n_head ≤ n_embd →
  0 < block_size →
  block_size < length (train_data text) → block_size < length (val_data text) →
  0 < batch_size →
  ∃ lt lv w',
    estimate_loss text w
      = (Ok (<["val" := lv]> (<["train" := lt]> ∅)), w') ∧
    loss_of eval_iters lt ∧ loss_of eval_iters lv ∧
    model w' = model w ∧ optimizer w' = optimizer w ∧ training w' = true.
Proof.
  intros Hm Hnh Hhs Hbs Htrain Hval Hb.
  set (w1 := {| model := model w; training := false; gen := gen w;
                optimizer := optimizer w |}).
  assert (Hloop : runs (out ← evaluate_split ∅ "train"; evaluate_split out "val") w1
            (fun out => ∃ lt lv, out = <["val" := lv]> (<["train" := lt]> ∅) ∧
                          loss_of eval_iters lt ∧ loss_of eval_iters lv)).
  { eapply runs_bind.
    - by apply (evaluate_split_spec ∅ "train").
    - intros out w2 Hfr (lt & -> & Hlt).
      eapply runs_mono.
      + apply (evaluate_split_spec _ "val"); try done.
        destruct Hfr as [-> _]. done.
      + intros out' (lv & -> & Hlv). by exists lt, lv. }
  destruct Hloop as (out & w2 & Hrun & (lt & lv & -> & Hlt & Hlv) & Hfr).
  exists lt, lv, {| model := model w2; training := true; gen := gen w2;
                    optimizer := optimizer w2 |}.
  split; [|destruct Hfr as (? & ? & ?); by repeat split].
  change (estimate_loss text w)
    with ((_ ← set_training false;
           out ← (out ← evaluate_split ∅ "train";
                  out ← evaluate_split out "val"; mret out);
           _ ← set_training true; mret out) w).
  rewrite (bind_Ok _ _ w tt w1) by reflexivity.
  apply bind_Ok_inv in Hrun as (out1 & w1' & Hr1 & Hr2).
  rewrite (bind_Ok _ _ w1 (<["val":=lv]> (<["train":=lt]> ∅)) w2); [reflexivity|].
  rewrite (bind_Ok _ _ _ _ _ Hr1).
  by rewrite (bind_Ok _ _ _ _ _ Hr2).
Qed.

(** X18. With at least one evaluation batch, [estimate_loss] returns a
    dictionary with exactly the keys 'train' and 'val', each a finite
    loss that is not negative, for a model of the constructed shape
    and splits longer than the context; the model is in training mode
    afterwards, with its parameters as they were. *)
Theorem estimate_loss_returns w :
  GPTLanguageModel_ok text (model w) → 0 < n_head → n_head ≤ n_embd →
  0 < block_size →
  block_size < length (train_data text) → block_size < length (val_data text) →
  0 < batch_size → 0 < eval_iters →
  ∃ lt lv w',
    estimate_loss text w
      = (Ok (<["val" := Float lv]> (<["train" := Float lt]> ∅)), w') ∧
    (0 <= lt)%R ∧ (0 <= lv)%R ∧
    model w' = model w ∧ training w' = true.
Proof.
  intros Hm Hnh Hhs Hbs Htrain Hval Hb Hk.
  destruct (estimate_loss_spec w Hm Hnh Hhs Hbs Htrain Hval Hb)
    as (lt & lv & w' & Hrun & Hlt & Hlv & Hmodel & _ & Htr).
  destruct eval_iters as [|k]; [lia|].
  destruct Hlt as (rt & -> & Hrt), Hlv as (rv & -> & Hrv).
  by exists rt, rv, w'.
Qed.

(** X19. With no evaluation batch ([eval_iters = 0]) nothing is sampled
    and nothing can raise: both entries are the mean of an empty
    tensor, NaN. *)
Theorem estimate_loss_no_batches w :
  eval_iters = 0 →
  estimate_loss text w
  = (Ok (<["val" := NaN]> (<["train" := NaN]> ∅)),
     {| model := model w; training := true; gen := gen w;
        optimizer := optimizer w |}).
Proof.
  intros Hz. unfold estimate_loss. rewrite Hz. reflexivity.
Qed.

(** X20. [estimate_loss] has no [finally]: when it raises, the model is
    left in eval mode (its parameters and the optimizer as they
    were). *)
Theorem estimate_loss_raise_leaves_eval_mode w e w' :
  estimate_loss text w = (Raise e, w') →
  training w' = false ∧ model w' = model w ∧ optimizer w' = optimizer w.
Proof.
  set (w1 := {| model := model w; training := false; gen := gen w;
                optimizer := optimizer w |}).
  unfold estimate_loss. rewrite (bind_Ok _ _ w tt w1) by reflexivity.
  match goal with
  | |- (?m ≫= ?f) w1 = _ → _ =>
      assert (Hfr : frame w1 (m w1).2);
      [|unfold mbind at 1; unfold ST_bind at 1;
        destruct (m w1) as [[out|e'] w2]]
  end.
  - apply draws_foldM. intros out split.
    apply draws_bind; [|intros; apply draws_ret].
    apply draws_foldM. intros losses k.
    apply draws_bind; [apply draws_get_batch|]. intros [X Y].
    apply draws_bind; [apply draws_call_model|]. intros [logits loss].
    apply draws_bind; [apply draws_lift|]. intros l. apply draws_ret.
  - done.
  - intros [= <- <-]. by destruct Hfr as (? & ? & ?).
Qed.

(** A training split that is not longer than the context makes the
    first evaluation batch raise. *)
Lemma estimate_loss_short w :
  length (train_data text) ≤ block_size → 0 < eval_iters →
  estimate_loss text w
  = (Raise RuntimeError,
     {| model := model w; training := false; gen := gen w;
        optimizer := optimizer w |}).
Proof.
  intros Hlen Hk.
  set (w1 := {| model := model w; training := false; gen := gen w;
                optimizer := optimizer w |}).
  unfold estimate_loss. rewrite (bind_Ok _ _ w tt w1) by reflexivity.
  apply bind_Raise. simpl foldM. apply bind_Raise. apply bind_Raise.
  destruct eval_iters as [|k]; [lia|]. simpl seq. simpl foldM.
  apply bind_Raise. apply bind_Raise.
  apply get_batch_short. by rewrite split_data_train.
Qed.
Lemma train_iteration_spec iter w :
  GPTLanguageModel_ok text (model w) → 0 < n_head → n_head ≤ n_embd →
  0 < block_size →
  block_size < length (train_data text) → block_size < length (val_data text) →
  0 < batch_size → 0 < eval_interval →
  (∀ m xb yb g o, GPTLanguageModel_ok text m →
                  GPTLanguageModel_ok text (adamw_step m xb yb g o).1) →
  iter = 0 ∨ training w = true →
  ∃ w', train_iteration text iter w = (Ok tt, w') ∧
        GPTLanguageModel_ok text (model w') ∧ training w' = true.
Proof.
  intros Hm Hnh Hhs Hbs Htrain Hval Hb Hei Hopt Hmode.
  unfold train_iteration.
  rewrite (bind_Ok _ _ w (iter mod eval_interval) w)
    by (unfold lift, pymod; rewrite decide_False by lia; done).
  assert (HA : ∃ wA,
    (if decide (iter mod eval_interval = 0 ∨ iter = max_iters - 1)
     then losses ← estimate_loss text; mret tt else mret tt) w = (Ok tt, wA) ∧
    model wA = model w ∧ training wA = true).
  { destruct (decide _) as [Hev|Hev].
    - destruct (estimate_loss_spec w Hm Hnh Hhs Hbs Htrain Hval Hb)
        as (lt & lv & wA & Hrun & _ & _ & Hmodel & _ & Htr).
      exists wA. split; [|done]. by rewrite (bind_Ok _ _ _ _ _ Hrun).
    - exists w. split; [done|]. split; [done|].
      destruct Hmode as [->|?]; [|done].
      exfalso. apply Hev. left. by apply Nat.Div0.mod_0_l. }
  destruct HA as (wA & HrunA & HmA & HtA).
  rewrite (bind_Ok _ _ _ _ _ HrunA).
  destruct (get_batch_batch text "train" wA)
    as (x & y & wB & HrunB & HfrB & Hxs & Hys & Hxb & Hyb & _); [done|done|].
  rewrite (bind_Ok _ _ _ _ _ HrunB). cbv beta iota.
  rewrite (bind_Ok _ _ wB (gen wB) wB) by reflexivity.
  destruct (forward_spec text (model wB) x (Some y) batch_size block_size wB)
    as ([logits loss] & wD & HrunD & _ & HfrD); [|done|done|lia|done|done| |].
  { destruct HfrB as [-> _]. by rewrite HmA. }
  { intros tg [= <-]. by split. }
  rewrite (bind_Ok _ _ wB (logits, loss) wD)
    by (unfold call_model; by rewrite (bind_Ok _ _ wB (model wB) wB)).
  cbv beta iota. unfold optimizer_step.
  pose proof (Hopt (model wD) x y (gen wB) (optimizer wD)) as Hok.
  destruct (adamw_step (model wD) x y (gen wB) (optimizer wD)) as [m' o'].
  eexists. split; [reflexivity|]. simpl. split.
  - apply Hok. destruct HfrD as [-> _], HfrB as [-> _]. by rewrite HmA.
  - destruct HfrD as (_ & -> & _), HfrB as (_ & -> & _). done.
Qed.

Lemma train_loop_spec n k w :
  GPTLanguageModel_ok text (model w) → 0 < n_head → n_head ≤ n_embd →
  0 < block_size →
  block_size < length (train_data text) → block_size < length (val_data text) →
  0 < batch_size → 0 < eval_interval →
  (∀ m xb yb g o, GPTLanguageModel_ok text m →
                  GPTLanguageModel_ok text (adamw_step m xb yb g o).1) →
  k = 0 ∨ training w = true →
  ∃ w', foldM (fun _ iter => train_iteration text iter) tt (seq k n) w = (Ok tt, w') ∧
        GPTLanguageModel_ok text (model w') ∧
        (0 < n ∨ training w = true → training w' = true).
Proof.
  intros Hm Hnh Hhs Hbs Htrain Hval Hb Hei Hopt. revert k w Hm.
  induction n as [|n IH]; intros k w Hm Hmode.
  - exists w. split; [done|]. split; [done|]. intros [?|?]; [lia|done].
  - destruct (train_iteration_spec k w) as (w1 & Hrun1 & Hm1 & Ht1); try done.
    destruct (IH (S k) w1 Hm1) as (w' & Hrun & Hm' & Ht'); [by right|].
    exists w'. split; [|split; [done|]].
    + simpl. by rewrite (bind_Ok _ _ _ _ _ Hrun1).
    + intros _. apply Ht'. by right.
Qed.

(** X21. The training loop runs to completion, for a model of the
    constructed shape, splits longer than the context, a positive
    batch size and evaluation interval, and an optimizer step that
    keeps the shapes of the parameters; the model still has the
    constructed shape afterwards, and after at least one iteration it
    is in training mode. *)
Theorem train_returns w :
  GPTLanguageModel_ok text (model w) → 0 < n_head → n_head ≤ n_embd →
  0 < block_size →
  block_size < length (train_data text) → block_size < length (val_data text) →
  0 < batch_size → 0 < eval_interval →
  (∀ m xb yb g o, GPTLanguageModel_ok text m →
                  GPTLanguageModel_ok text (adamw_step m xb yb g o).1) →
  ∃ w', train text w = (Ok tt, w') ∧
        GPTLanguageModel_ok text (model w') ∧
        (0 < max_iters → training w' = true).
Proof.
  intros Hm Hnh Hhs Hbs Htrain Hval Hb Hei Hopt.
  destruct (train_loop_spec max_iters 0 w) as (w' & Hrun & Hm' & Ht'); try done.
  { by left. }
  exists w'. split; [done|]. split; [done|]. intros Hn. apply Ht'. by left.
Qed.

(** X22. With [eval_interval = 0] the loop raises [ZeroDivisionError] in
    its first iteration, at [iter % eval_interval], before anything
    is sampled or changed. *)
Theorem train_zero_eval_interval w :
  eval_interval = 0 → 0 < max_iters →
  train text w = (Raise ZeroDivisionError, w).
Proof.
  intros Hei Hn. unfold train.
  destruct max_iters as [|k]; [lia|]. simpl.
  apply bind_Raise. unfold train_iteration. apply bind_Raise.
  unfold lift, pymod. by rewrite decide_True.
Qed.
End training.

(** ** Generation and sampling *)

Section sampling.
Context `{Hyper} `{TorchRandom} `{!Optimizer rng}.
Variable text : list N.

(** X23. Generating a + b tokens is generating a tokens and then b more
    from the result, in the state the first run left: the loop keeps
    no state of its own besides the running sequence. *)
Theorem generate_add idx a b w :
  generate idx (a + b) w = (generate idx a ≫= fun idx' => generate idx' b) w.
Proof.
  revert idx w. induction a as [|a IH]; intros idx w; [done|].
  change (generate idx (S a + b) w)
    with ((generate_body idx ≫= fun idx' => generate idx' (a + b)) w).
  change (generate idx (S a))
    with (generate_body idx ≫= fun idx' => generate idx' a).
  unfold mbind, ST_bind.
  destruct (generate_body idx w) as [[idx1|e] w1]; [|done].
  apply IH.
Qed.

Lemma chars_lookup_functional (s1 s2 : pystr) (l : list nat) :
  Forall2 (fun c i => chars text !! i = Some c) s1 l →
  Forall2 (fun c i => chars text !! i = Some c) s2 l →
  s1 = s2.
Proof.
  intros H1. revert s2. induction H1 as [|c i s l Hc _ IH]; intros s2 H2.
  - by apply Forall2_nil_inv_r in H2.
  - apply Forall2_cons_inv_r in H2 as (c' & s' & Hc' & Hs' & ->).
    f_equal; [congruence|by apply IH].
Qed.

(** X24. Cells 26 and 27: for a prompt made of symbols of the corpus that
    is not empty (or when no token is asked for), encoding the
    prompt, generating k tokens and decoding the first row gives a
    text of length len(prompt) + k that starts with the prompt and
    is made of symbols of the corpus. *)
Theorem sample_text_extends_prompt prompt k w :
  GPTLanguageModel_ok text (model w) → 0 < n_head → n_head ≤ n_embd →
  0 < block_size →
  Forall (fun c => c ∈ text) prompt → k = 0 ∨ prompt ≠ [] →
  ∃ s w',
    sample_text text prompt k w = (Ok s, w') ∧
    length s = length prompt + k ∧ prompt `prefix_of` s ∧
    Forall (fun c => c ∈ text) s.
Proof.
  intros Hm Hnh Hhs Hbs Hprompt Hk.
  destruct (encode_in_vocab text prompt Hprompt) as (l & Hl & Hpl).
  assert (Hlen : length l = length prompt).
  { symmetry. by eapply Forall2_length. }
  assert (Hlb : Forall (fun i => i < vocab_size text) l).
  { by eapply chars_lookup_below. }
  destruct (generate_spec text k 1 (length l) [l] w)
    as (out & w' & Hrun & (Hs & Hb & Hp) & _); try done.
  { destruct Hk as [->|Hne]; [by left|right].
    rewrite Hlen. destruct prompt; [done|simpl; lia]. }
  { split; [done|]. by constructor. }
  { by constructor. }
  apply Forall2_cons_inv_l in Hp as (row & out' & [rest ->] & Hout' & ->).
  apply Forall2_nil_inv_l in Hout' as ->.
  apply Forall_cons in Hb as [Hrow _].
  destruct Hs as [_ Hs]. apply Forall_cons in Hs as [Hrl _].
  destruct (decode_chars text (l ++ rest) Hrow) as (s & Hdec & Hsl).
  exists s, w'. split; [|split; [|split]].
  - unfold sample_text.
    rewrite (bind_Ok _ _ w l w) by (unfold lift; by rewrite Hl).
    rewrite (bind_Ok _ _ _ _ _ Hrun). simpl.
    rewrite (bind_Ok _ _ w' (l ++ rest) w') by reflexivity.
    unfold lift. by rewrite Hdec.
  - rewrite (Forall2_length _ _ _ Hsl), Hrl. lia.
  - apply Forall2_app_inv_r in Hsl as (s1 & s2 & Hs1 & _ & ->).
    rewrite (chars_lookup_functional _ _ _ Hpl Hs1). by exists s2.
  - by eapply chars_lookup_in.
Qed.
End sampling.

(** ** Construction and the parameter count *)

Lemma sumN_constant {A} (f : A → N) (c : N) (l : list A) :
  Forall (fun x => f x = c) l → sumN (f <$> l) = (N.of_nat (length l) * c)%N.
Proof.
  induction 1 as [|x l Hx _ IH]; [done|].
  rewrite fmap_cons.
  change (sumN (f x :: (f <$> l))) with (f x + sumN (f <$> l))%N.
  rewrite IH, Hx. simpl length. rewrite Nat2N.inj_succ. lia.
Qed.

Lemma numel2_shape (o i : nat) (w : list (list R)) :
  length w = o → Forall (fun row => length row = i) w →
  numel2 w = (N.of_nat o * N.of_nat i)%N.
Proof.
  intros Ho Hi. unfold numel2.
  rewrite (length_concat_shape2 o i) by done. lia.
Qed.

Section construction.
Context `{Hyper} `{TorchRandom} `{!Optimizer rng}.
Variable text : list N.

Lemma Embedding_init_Ok num dim g :
  ∃ e g', Embedding_init num dim g = (Ok e, g').
Proof.
  destruct (Embedding_init_spec num dim g) as (e & g' & He & _). by exists e, g'.
Qed.

Lemma Linear_init_Ok i o b g : ∃ l g', Linear_init i o b g = (Ok l, g').
Proof.
  destruct (Linear_init_spec i o b g) as (l & g' & Hl & _). by exists l, g'.
Qed.

Lemma Dropout_init_ValueError p g :
  ¬ (0 <= p <= 1)%R → Dropout_init p g = (Raise ValueError, g).
Proof.
  intros Hp. unfold Dropout_init.
  destruct (Rle_dec 0 p); [|done]. destruct (Rle_dec p 1); [|done].
  exfalso. apply Hp. by split.
Qed.

Lemma Head_init_ValueError hs g :
  ¬ (0 <= dropout <= 1)%R → ∃ g', Head_init hs g = (Raise ValueError, g').
Proof.
  intros Hp. unfold Head_init.
  destruct (Linear_init_Ok n_embd hs false g) as (k & g1 & Hk).
  rewrite (bind_Ok _ _ _ _ _ Hk).
  destruct (Linear_init_Ok n_embd hs false g1) as (q & g2 & Hq).
  rewrite (bind_Ok _ _ _ _ _ Hq).
  destruct (Linear_init_Ok n_embd hs false g2) as (v & g3 & Hv).
  rewrite (bind_Ok _ _ _ _ _ Hv).
  exists g3. apply bind_Raise. by apply Dropout_init_ValueError.
Qed.

Lemma Block_init_ValueError d nh g :
  0 < nh → ¬ (0 <= dropout <= 1)%R →
  ∃ g', Block_init d nh g = (Raise ValueError, g').
Proof.
  intros Hnh Hp. unfold Block_init.
  rewrite (bind_Ok _ _ g (d / nh) g)
    by (unfold lift, floordiv; rewrite decide_False by lia; done).
  unfold MultiHeadAttention_init.
  destruct nh as [|nh]; [lia|]. simpl seq.
  destruct (Head_init_ValueError (d / S nh) g Hp) as (g' & Hh).
  exists g'. apply bind_Raise. apply bind_Raise.
  change ((y ← Head_init (d / S nh);
           k ← mapM (fun _ => Head_init (d / S nh)) (seq 1 nh);
           mret (y :: k)) g = (Raise ValueError, g')).
  by apply bind_Raise.
Qed.

Lemma GPTLanguageModel_init_cases g :
  ((n_layer = 0 ∨ (0 < n_head ∧ (0 <= dropout <= 1)%R)) ∧
   ∃ m g', GPTLanguageModel_init text g = (Ok m, g')) ∨
  (0 < n_layer ∧ n_head = 0 ∧
   ∃ g', GPTLanguageModel_init text g = (Raise ZeroDivisionError, g')) ∨
  (0 < n_layer ∧ 0 < n_head ∧ ¬ (0 <= dropout <= 1)%R ∧
   ∃ g', GPTLanguageModel_init text g = (Raise ValueError, g')).
Proof.
  destruct (Embedding_init_Ok (vocab_size text) n_embd g) as (tok & g1 & Htok).
  destruct (Embedding_init_Ok block_size n_embd g1) as (pos & g2 & Hpos).
  destruct (decide (n_layer = 0)) as [Hnl|Hnl].
  { left. split; [by left|].
    destruct (Linear_init_Ok n_embd (vocab_size text) true g2) as (lm & g3 & Hlm).
    eexists _, g3. unfold GPTLanguageModel_init.
    rewrite (bind_Ok _ _ _ _ _ Htok), (bind_Ok _ _ _ _ _ Hpos), Hnl.
    rewrite (bind_Ok _ _ g2 [] g2) by reflexivity.
    by rewrite (bind_Ok _ _ _ _ _ Hlm). }
  destruct (decide (n_head = 0)) as [Hnh|Hnh].
  { right; left. split; [lia|]. split; [done|]. exists g2.
    unfold GPTLanguageModel_init.
    rewrite (bind_Ok _ _ _ _ _ Htok), (bind_Ok _ _ _ _ _ Hpos), Hnh.
    apply bind_Raise. destruct n_layer as [|k]; [done|]. simpl seq.
    change ((y ← Block_init n_embd 0;
             bs ← mapM (fun _ => Block_init n_embd 0) (seq 1 k);
             mret (y :: bs)) g2 = (Raise ZeroDivisionError, g2)).
    apply bind_Raise. apply Block_init_zero_heads. }
  assert (Hdec : (0 <= dropout <= 1)%R ∨ ¬ (0 <= dropout <= 1)%R).
  { destruct (Rle_dec 0 dropout), (Rle_dec dropout 1); [left|right..]; lra. }
  destruct Hdec as [Hp|Hp].
  { left. split; [right; split; [lia|done]|].
    destruct (GPTLanguageModel_init_spec text g) as (m & g' & Hinit & _);
      [lia|done|].
    by exists m, g'. }
  right; right. split; [lia|]. split; [lia|]. split; [done|].
  destruct (Block_init_ValueError n_embd n_head g2) as (g' & Hb); [lia|done|].
  exists g'. unfold GPTLanguageModel_init.
  rewrite (bind_Ok _ _ _ _ _ Htok), (bind_Ok _ _ _ _ _ Hpos).
  apply bind_Raise. destruct n_layer as [|k]; [done|]. simpl seq.
  change ((y ← Block_init n_embd n_head;
           bs ← mapM (fun _ => Block_init n_embd n_head) (seq 1 k);
           mret (y :: bs)) g2 = (Raise ValueError, g')).
  by apply bind_Raise.
Qed.

(** X25. Constructing the model returns exactly when there is no block to
    build, or there is at least one head and the dropout probability
    is in [0, 1].  Otherwise it raises [ZeroDivisionError] (from
    [n_embd // n_head]) when [n_head] is 0, and [ValueError] (from
    [nn.Dropout]) when it is not. *)
Theorem construction_returns_iff g :
  ((∃ m g', GPTLanguageModel_init text g = (Ok m, g')) ↔
   n_layer = 0 ∨ (0 < n_head ∧ (0 <= dropout <= 1)%R)) ∧
  (∀ e g', GPTLanguageModel_init text g = (Raise e, g') →
           e = if decide (n_head = 0) then ZeroDivisionError else ValueError).
Proof.
  destruct (GPTLanguageModel_init_cases g)
    as [[Hc (m & g' & Hrun)]|[(Hnl & Hnh & g' & Hrun)|(Hnl & Hnh & Hp & g' & Hrun)]].
  - split; [split; [done|intros _; by exists m, g']|].
    intros e g'' Hr. by rewrite Hrun in Hr.
  - split.
    + split; [intros (m & g'' & Hr); by rewrite Hrun in Hr|].
      intros [?|[? _]]; lia.
    + intros e g'' Hr. rewrite Hrun in Hr. injection Hr as <- _.
      by rewrite decide_True.
  - split.
    + split; [intros (m & g'' & Hr); by rewrite Hrun in Hr|].
      intros [?|[_ ?]]; [lia|done].
    + intros e g'' Hr. rewrite Hrun in Hr. injection Hr as <- _.
      rewrite decide_False; [done|lia].
Qed.

Lemma Linear_numel_ok i o b l :
  Linear_ok i o b l →
  Linear_numel l
  = (N.of_nat o * N.of_nat i + if b then N.of_nat o else 0)%N.
Proof.
  intros (_ & _ & Hw & Hrows & Hb). unfold Linear_numel.
  rewrite (numel2_shape o i) by done.
  destruct (bias l) as [bv|]; [destruct Hb as [-> ->]|rewrite Hb]; done.
Qed.

Lemma LayerNorm_numel_ok d ln :
  LayerNorm_ok d ln → LayerNorm_numel ln = (2 * N.of_nat d)%N.
Proof. intros (_ & Hw & Hb). unfold LayerNorm_numel. rewrite Hw, Hb. lia. Qed.

Lemma Head_numel_ok hs h :
  Head_ok hs h → Head_numel h = (3 * (N.of_nat hs * N.of_nat n_embd))%N.
Proof.
  intros (Hk & Hq & Hv & _). unfold Head_numel.
  rewrite (Linear_numel_ok _ _ _ _ Hk), (Linear_numel_ok _ _ _ _ Hq),
    (Linear_numel_ok _ _ _ _ Hv). lia.
Qed.

Lemma Block_numel_ok blk :
  Block_ok n_embd n_head blk →
  Block_numel blk
  = (let d := N.of_nat n_embd in
     let nh := N.of_nat n_head in
     let hs := N.of_nat (n_embd / n_head) in
     nh * (3 * (hs * d)) + (d * (hs * nh) + d)
     + ((4 * d) * d + 4 * d + (d * (4 * d) + d))
     + 2 * d + 2 * d)%N.
Proof.
  intros ((Hlen & Hheads & Hproj) & (Hn0 & Hn2) & Hl1 & Hl2).
  unfold Block_numel, MultiHeadAttention_numel, FeedFoward_numel.
  rewrite (sumN_constant _ (3 * (N.of_nat (n_embd / n_head) * N.of_nat n_embd))%N).
  2:{ eapply Forall_impl; [exact Hheads|]. intros h. apply Head_numel_ok. }
  rewrite Hlen, (Linear_numel_ok _ _ _ _ Hproj), (Linear_numel_ok _ _ _ _ Hn0),
    (Linear_numel_ok _ _ _ _ Hn2), (LayerNorm_numel_ok _ _ Hl1),
    (LayerNorm_numel_ok _ _ Hl2).
  rewrite !Nat2N.inj_mul. simpl N.of_nat. cbv zeta. lia.
Qed.

(** X26. The number printed in cell 24.  For a model of the constructed
    shape, with d = n_embd, v = vocab_size and hs = n_embd // n_head,
    the parameters are: the two embedding tables (v*d and
    block_size*d); in each of the n_layer blocks, n_head heads of
    three hs x d matrices without bias, the projection
    (d x (hs*n_head), and d), the two layers of the feed-forward net
    (4d x d and 4d, d x 4d and d) and two layer norms (2d each); the
    final layer norm (2d); and the output layer (v x d, and v).  The
    buffer [tril] is not counted. *)
Theorem num_parameters_formula m :
  GPTLanguageModel_ok text m →
  num_parameters m
  = (let d := N.of_nat n_embd in
     let v := N.of_nat (vocab_size text) in
     let nh := N.of_nat n_head in
     let hs := N.of_nat (n_embd / n_head) in
     v * d + N.of_nat block_size * d
     + N.of_nat n_layer
       * (nh * (3 * (hs * d)) + (d * (hs * nh) + d)
          + ((4 * d) * d + 4 * d + (d * (4 * d) + d))
          + 2 * d + 2 * d)
     + 2 * d + (v * d + v))%N.
Proof.
  intros ([Ht1 Ht2] & [Hp1 Hp2] & Hnl & Hblocks & Hln & Hlm).
  unfold num_parameters.
  rewrite (numel2_shape _ _ _ Ht1 Ht2), (numel2_shape _ _ _ Hp1 Hp2).
  erewrite sumN_constant.
  2:{ eapply Forall_impl; [exact Hblocks|]. intros blk. apply Block_numel_ok. }
  rewrite Hnl, (LayerNorm_numel_ok _ _ Hln), (Linear_numel_ok _ _ _ _ Hlm).
  cbv zeta. lia.
Qed.
End construction.

(** ** The model is causal and treats the rows of a batch alike

    In eval mode the forward pass is a function of the tokens.  It is
    written here for one sequence at a time ([Head_seq], ...,
    [model_seq]); these functions commute with taking a prefix of the
    sequence, and the forward pass of the notebook applies them to
    every row of the batch. *)

Lemma take_imap {A B} (f : nat → A → B) k l :
  take k (imap f l) = imap f (take k l).
Proof.
  revert f k. induction l as [|x l IH]; intros f k; [by destruct k|].
  destruct k as [|k]; [done|]. simpl. by rewrite IH.
Qed.

Lemma zip_with_fmap_seq {A B C} (f : A → B → C) (g : nat → A) n (l : list B) :
  zip_with f (g <$> seq n (length l)) l = imap (fun i s => f (g (n + i)) s) l.
Proof.
  revert n. induction l as [|x l IH]; intros n; [done|].
  simpl. rewrite Nat.add_0_r. f_equal. rewrite IH.
  apply imap_ext. intros i y _. simpl. f_equal. f_equal. lia.
Qed.

Lemma zip_with_fmap_both {A B C D} (f : B → C → D) (g1 : A → B) (g2 : A → C)
    (l : list A) :
  zip_with f (g1 <$> l) (g2 <$> l) = (fun a => f (g1 a) (g2 a)) <$> l.
Proof. by rewrite zip_with_fmap_l, zip_with_fmap_r, zip_with_diag. Qed.

Lemma Rsum_zeros (l : list R) : Forall (fun x => x = 0%R) l → Rsum l = 0%R.
Proof. induction 1 as [|x l -> _ IH]; [done|]. simpl. rewrite IH. lra. Qed.

(** A softmax ignores masked entries: cutting a row after the last
    entry that is not masked cuts its softmax. *)
Lemma softmax_take k (row : list xreal) :
  (∀ j, k ≤ j → j < length row → row !! j = Some NegInf) →
  softmax (take k row) = take k (softmax row).
Proof.
  intros Hmask. unfold softmax. cbv zeta.
  rewrite !fmap_take.
  assert (Hsum : Rsum (take k (xexp <$> row)) = Rsum (xexp <$> row)).
  { rewrite <- (take_drop k (xexp <$> row)) at 2.
    rewrite Rsum_app, (Rsum_zeros (drop k _)); [lra|].
    apply Forall_forall. intros x Hx.
    apply list_elem_of_lookup in Hx as [j Hj].
    rewrite lookup_drop, list_lookup_fmap in Hj.
    destruct (row !! (k + j)) as [y|] eqn:Hy; [|done].
    rewrite Hmask in Hy; [|lia|by eapply lookup_lt_Some].
    injection Hy as <-. by injection Hj as <-. }
  by rewrite Hsum.
Qed.

Lemma weighted_sum_take c k i (row : list R) (vb : mat) :
  (∀ j, i < j → j < length row → row !! j = Some 0%R) →
  Forall (fun r => length r = c) vb →
  length row = length vb → i < k →
  weighted_sum (take k row) (take k vb) = weighted_sum row vb.
Proof.
  intros Hz Hvb Hlen Hik.
  destruct (decide (length row ≤ k)) as [Hk|Hk].
  { rewrite !take_ge by lia. done. }
  rewrite (weighted_sum_causal c i row vb); [|done|done|done|lia].
  rewrite (weighted_sum_causal c i (take k row) (take k vb)).
  - rewrite !take_take. by replace (S i `min` k) with (S i) by lia.
  - intros j Hij Hj. rewrite length_take in Hj.
    rewrite lookup_take_lt by lia. apply Hz; lia.
  - by apply Forall_take.
  - rewrite !length_take. lia.
  - rewrite length_take. lia.
Qed.

Lemma length_Linear_row_any (l : Linear) (row : list R) :
  length (Linear_row l row) = length (Linear_row l []).
Proof.
  unfold Linear_row. destruct (bias l) as [b|].
  - unfold vadd. by rewrite !length_zip_with, !length_fmap.
  - by rewrite !length_fmap.
Qed.

(** *** One sequence at a time *)

Definition mask_row (i n : nat) : list bool :=
  (fun j => bool_decide (i < j)) <$> seq 0 n.

Definition scores_seq (h : Head) (m : mat) : mat :=
  (fun r : list R =>
     (fun s => (s * / sqrt (INR (out_features (key h))))%R) <$> r)
  <$> matmul_nt (Linear_row (query h) <$> m) (Linear_row (key h) <$> m).

Definition weights_seq (h : Head) (m : mat) : mat :=
  softmax <$> zip_with fill_row (causal_mask (length m)) (scores_seq h m).

Definition Head_seq (h : Head) (m : mat) : mat :=
  matmul (weights_seq h m) (Linear_row (value h) <$> m).

Definition cat_seq (outs : list mat) : mat :=
  match outs with
  | [] => []
  | o :: os => foldl (zip_with app) o os
  end.

Definition MultiHeadAttention_seq (a : MultiHeadAttention) (m : mat) : mat :=
  Linear_row (proj a) <$> cat_seq ((fun h => Head_seq h m) <$> heads a).

Definition FeedFoward_seq (f : FeedFoward) (m : mat) : mat :=
  Linear_row (net_2 f)
  <$> ((fun row : list R => Rmax 0 <$> row) <$> (Linear_row (net_0 f) <$> m)).

Definition Block_seq (b : Block) (m : mat) : mat :=
  let x := madd m (MultiHeadAttention_seq (sa b) (LayerNorm_row (ln1 b) <$> m)) in
  madd x (FeedFoward_seq (ffwd b) (LayerNorm_row (ln2 b) <$> x)).

Definition Blocks_seq (bs : list Block) (m : mat) : mat :=
  foldl (fun m b => Block_seq b m) m bs.

Definition embed_seq (self : GPTLanguageModel) (row : list nat) : mat :=
  madd ((fun i => default [] (emb_weight (token_embedding_table self) !! i)) <$> row)
       ((fun j => default [] (emb_weight (position_embedding_table self) !! j))
        <$> seq 0 (length row)).

Definition model_seq (self : GPTLanguageModel) (row : list nat) : mat :=
  Linear_row (lm_head self)
  <$> (LayerNorm_row (ln_f self)
       <$> Blocks_seq (blocks self) (embed_seq self row)).

(** *** Prefixes *)

Lemma length_scores_seq h m : length (scores_seq h m) = length m.
Proof. unfold scores_seq, matmul_nt. by rewrite !length_fmap. Qed.

Lemma scores_seq_rows h m s :
  s ∈ scores_seq h m → length s = length m.
Proof.
  unfold scores_seq, matmul_nt. rewrite <- list_fmap_compose.
  intros (r & -> & _)%list_elem_of_fmap. simpl. by rewrite !length_fmap.
Qed.

Lemma scores_seq_take h k m :
  scores_seq h (take k m) = take k <$> take k (scores_seq h m).
Proof.
  unfold scores_seq, matmul_nt.
  repeat rewrite <- fmap_take. repeat rewrite <- list_fmap_compose.
  apply list_fmap_ext. intros i row _. simpl.
  by rewrite !fmap_take.
Qed.

Lemma Head_seq_imap h m :
  Head_seq h m
  = imap (fun i s =>
            weighted_sum (softmax (fill_row (mask_row i (length m)) s))
                         (Linear_row (value h) <$> m))
         (scores_seq h m).
Proof.
  unfold Head_seq, weights_seq, matmul, causal_mask.
  rewrite <- (length_scores_seq h m) at 1.
  rewrite (zip_with_fmap_seq fill_row
             (fun i => (fun j => bool_decide (i < j)) <$> seq 0 (length m))).
  rewrite !fmap_imap. apply imap_ext. intros i s _. reflexivity.
Qed.

Lemma Head_seq_take h k m : Head_seq h (take k m) = take k (Head_seq h m).
Proof.
  destruct (decide (length m ≤ k)) as [Hk|Hk].
  { rewrite take_ge by done. rewrite take_ge; [done|].
    rewrite Head_seq_imap, length_imap, length_scores_seq. done. }
  rewrite !Head_seq_imap, take_imap, scores_seq_take, imap_fmap.
  rewrite length_take. replace (k `min` length m) with k by lia.
  apply imap_ext. intros i s Hs. simpl.
  assert (Hik : i < k).
  { apply lookup_lt_Some in Hs. rewrite length_take in Hs. lia. }
  rewrite lookup_take_lt in Hs by done.
  assert (Hlen : length s = length m).
  { eapply scores_seq_rows. by eapply list_elem_of_lookup_2. }
  assert (Hfill : fill_row (mask_row i k) (take k s)
                  = take k (fill_row (mask_row i (length m)) s)).
  { unfold fill_row, mask_row. rewrite zip_with_take, <- fmap_take, take_seq.
    by replace (k `min` length m) with k by lia. }
  rewrite Hfill, softmax_take, fmap_take.
  - apply (weighted_sum_take (length (Linear_row (value h) [])) k i).
    + intros j Hij Hj. rewrite length_softmax in Hj.
      unfold mask_row in *. rewrite length_fill_row in Hj by done.
      destruct (lookup_lt_is_Some_2 s j) as [y Hy]; [lia|].
      apply softmax_NegInf.
      rewrite (fill_row_lookup (length m) i s j y Hlen Hy).
      by rewrite bool_decide_eq_true_2.
    + apply Forall_fmap, Forall_forall. intros row _. simpl.
      apply length_Linear_row_any.
    + unfold mask_row. rewrite length_softmax, length_fill_row, length_fmap; done.
    + done.
  - intros j Hkj Hj. unfold mask_row in *.
    rewrite length_fill_row in Hj by done.
    destruct (lookup_lt_is_Some_2 s j) as [y Hy]; [lia|].
    rewrite (fill_row_lookup (length m) i s j y Hlen Hy).
    rewrite bool_decide_eq_true_2; [done|lia].
Qed.

Lemma cat_seq_take k (outs : list mat) :
  cat_seq (take k <$> outs) = take k (cat_seq outs).
Proof.
  destruct outs as [|o os]; [by destruct k|]. simpl.
  revert o. induction os as [|o' os IH]; intros o; [done|].
  simpl. rewrite <- zip_with_take. apply IH.
Qed.

Lemma MultiHeadAttention_seq_take a k m :
  MultiHeadAttention_seq a (take k m) = take k (MultiHeadAttention_seq a m).
Proof.
  unfold MultiHeadAttention_seq. rewrite <- fmap_take, <- cat_seq_take.
  f_equal. f_equal. rewrite <- list_fmap_compose.
  apply list_fmap_ext. intros i h _. simpl. apply Head_seq_take.
Qed.

Lemma FeedFoward_seq_take f k m :
  FeedFoward_seq f (take k m) = take k (FeedFoward_seq f m).
Proof. unfold FeedFoward_seq. by rewrite !fmap_take. Qed.

Lemma Block_seq_take b k m : Block_seq b (take k m) = take k (Block_seq b m).
Proof.
  unfold Block_seq, madd. cbv zeta.
  rewrite !zip_with_take, <- FeedFoward_seq_take.
  repeat rewrite <- fmap_take.
  rewrite !zip_with_take, <- MultiHeadAttention_seq_take.
  repeat rewrite <- fmap_take.
  done.
Qed.

Lemma Blocks_seq_take bs k m : Blocks_seq bs (take k m) = take k (Blocks_seq bs m).
Proof.
  unfold Blocks_seq. revert m. induction bs as [|b bs IH]; intros m; [done|].
  simpl. rewrite Block_seq_take. apply IH.
Qed.

Lemma embed_seq_take self k row :
  embed_seq self (take k row) = take k (embed_seq self row).
Proof.
  unfold embed_seq, madd.
  rewrite zip_with_take. repeat rewrite <- fmap_take.
  by rewrite take_seq, length_take.
Qed.

Lemma model_seq_take self k row :
  model_seq self (take k row) = take k (model_seq self row).
Proof.
  unfold model_seq.
  by rewrite embed_seq_take, Blocks_seq_take, !fmap_take.
Qed.

(** *** The forward pass in eval mode, layer by layer *)

Lemma mapM_outcome_eval {A B} (f : A → outcome B) (g : A → B) l :
  (∀ a, a ∈ l → f a = Ok (g a)) → mapM f l = Ok (g <$> l).
Proof.
  induction l as [|a l IH]; intros Hf; [done|].
  rewrite mapM_outcome_cons, Hf by (by left).
  rewrite IH by (intros a' Ha'; apply Hf; by right). done.
Qed.

Lemma Embedding_forward_lookup num dim e (idx : list nat) :
  Embedding_ok num dim e → Forall (fun i => i < num) idx →
  Embedding_forward e idx = Ok ((fun i => default [] (emb_weight e !! i)) <$> idx).
Proof.
  intros [Hlen _] Hidx. unfold Embedding_forward.
  apply mapM_outcome_eval. intros i Hi.
  eapply Forall_forall in Hidx; [|exact Hi]. simpl in Hidx.
  destruct (lookup_lt_is_Some_2 (emb_weight e) i) as [row Hrow]; [lia|].
  by rewrite Hrow.
Qed.

Lemma shape2_Embedding_lookup num dim e (idx : list nat) :
  Embedding_ok num dim e → Forall (fun i => i < num) idx →
  shape2 (length idx) dim ((fun i => default [] (emb_weight e !! i)) <$> idx).
Proof.
  intros He Hidx.
  destruct (Embedding_forward_shape _ _ _ idx He Hidx) as (y & Hy & Hys & _).
  rewrite (Embedding_forward_lookup _ _ _ _ He Hidx) in Hy. by injection Hy as <-.
Qed.

Section eval_mode.
Context `{Hyper} `{TorchRandom} `{!Optimizer rng}.
Variable text : list N.

Lemma runs_det {A} (m : M A) w (P : A → Prop) a w' :
  runs m w P → m w = (Ok a, w') → P a.
Proof.
  intros (a' & w'' & Hrun & HP & _) Heq. rewrite Heq in Hrun.
  by injection Hrun as -> _.
Qed.

Lemma mapM_eval {A B} (f : A → M B) (g : A → B) l w :
  (∀ a, a ∈ l → f a w = (Ok (g a), w)) → mapM f l w = (Ok (g <$> l), w).
Proof.
  induction l as [|a l IH]; intros Hf; [done|].
  change (mapM f (a :: l) w) with ((y ← f a; k ← mapM f l; mret (y :: k)) w).
  rewrite (bind_Ok _ _ w (g a) w) by (apply Hf; by left).
  rewrite (bind_Ok _ _ w (g <$> l) w); [done|].
  apply IH. intros a' Ha'. apply Hf. by right.
Qed.

Lemma Dropout_forward_eval p x w :
  training w = false → Dropout_forward p x w = (Ok x, w).
Proof.
  intros Hw. unfold Dropout_forward, mbind, ST_bind, is_training. by rewrite Hw.
Qed.

Lemma attention_weights_seq hs h b t x :
  Head_ok hs h → 0 < hs → t ≤ block_size → shape3 b t n_embd x →
  attention_weights h x = Ok (weights_seq h <$> x).
Proof.
  intros (Hkey & Hquery & _ & Htril) Hhs Ht Hx.
  destruct (shape3_dim1 _ _ _ _ Hx) as [Hx' Hcase].
  assert (Ht' : dim1 x ≤ block_size).
  { destruct Hcase as [->| ->]; [unfold dim1; simpl; lia|done]. }
  destruct (Linear_forward_shape _ _ _ _ _ _ _ Hkey Hx') as (k & Hk & Hkv & Hks).
  destruct (Linear_forward_shape _ _ _ _ _ _ _ Hquery Hx') as (q & Hq & Hqv & Hqs).
  set (wei0 := elems (fun s => (s * / sqrt (INR hs))%R) (zip_with matmul_nt q k)).
  assert (Hw0 : shape3 b (dim1 x) (dim1 x) wei0).
  { apply shape3_elems.
    eapply (shape3_zip_with matmul_nt); [|exact Hqs|exact Hks].
    intros mx my [Hmx _] [Hmy _]. by apply shape2_matmul_nt. }
  pose proof (dim1_same _ _ _ _ _ Hx' Hw0) as Hdim.
  assert (Hval : attention_weights h x
            = Ok (rows softmax
                    ((fun w => zip_with fill_row (causal_mask (dim1 x)) w) <$> wei0))).
  { unfold attention_weights. ostep Hk. ostep Hq.
    destruct Hkey as (_ & -> & _).
    unfold pow_neg_half. rewrite decide_False by lia.
    unfold mbind at 1; unfold outcome_bind at 1; cbv beta iota.
    fold wei0. rewrite Htril, mask_of_tril by done.
    unfold masked_fill. rewrite Hdim. fold (causal_mask (dim1 x)).
    rewrite decide_True; [done|]. split.
    + unfold causal_mask. by rewrite length_fmap, length_seq.
    + unfold causal_mask. apply Forall_fmap, Forall_forall. intros i _. simpl.
      by rewrite length_fmap, length_seq. }
  rewrite Hval. f_equal. unfold wei0. rewrite Hkv, Hqv.
  unfold elems, rows. rewrite zip_with_fmap_both.
  repeat rewrite <- list_fmap_compose.
  apply list_fmap_ext. intros i m Hm. simpl.
  unfold weights_seq, scores_seq.
  destruct Hkey as (_ & -> & _).
  assert (Hlen : dim1 x = length m).
  { destruct Hcase as [-> | ->]; [done|].
    destruct Hx as [_ Hx]. eapply Forall_forall in Hx; [|by eapply list_elem_of_lookup_2].
    by destruct Hx as [-> _]. }
  by rewrite Hlen.
Qed.

Lemma Head_forward_seq hs h b t x w :
  Head_ok hs h → 0 < hs → t ≤ block_size → shape3 b t n_embd x →
  training w = false →
  Head_forward h x w = (Ok (Head_seq h <$> x), w).
Proof.
  intros Hh Hhs Ht Hx Hw.
  pose proof (attention_weights_seq hs h b t x Hh Hhs Ht Hx) as Hatt.
  destruct Hh as (_ & _ & Hvalue & _).
  destruct (Linear_forward_shape _ _ _ _ _ _ _ Hvalue Hx) as (v & Hv & Hvv & _).
  unfold Head_forward, Head_forward_trace.
  unfold mbind, ST_bind, lift. rewrite Hatt, (Dropout_forward_eval _ _ _ Hw), Hv.
  simpl. f_equal. f_equal. rewrite Hvv. unfold rows.
  by rewrite zip_with_fmap_both.
Qed.

Lemma foldl_cat_fmap {A} (G : A → mat → mat) (F0 : mat → mat) (hs : list A)
    (x : tensor3) :
  foldl (zip_with (zip_with app)) (F0 <$> x) ((fun h => G h <$> x) <$> hs)
  = (fun m => foldl (zip_with app) (F0 m) ((fun h => G h m) <$> hs)) <$> x.
Proof.
  revert F0. induction hs as [|h hs IH]; intros F0; [done|].
  simpl. rewrite zip_with_fmap_both.
  apply (IH (fun m => zip_with app (F0 m) (G h m))).
Qed.

Lemma MultiHeadAttention_forward_seq nh hs a b t x w :
  MultiHeadAttention_ok nh hs a → 0 < nh → 0 < hs → t ≤ block_size →
  shape3 b t n_embd x → training w = false →
  MultiHeadAttention_forward a x w = (Ok (MultiHeadAttention_seq a <$> x), w).
Proof.
  intros (Hlen & Hheads & Hproj) Hnh Hhs Ht Hx Hw.
  assert (Hrun : mapM (fun h => Head_forward h x) (heads a) w
                 = (Ok ((fun h => Head_seq h <$> x) <$> heads a), w)).
  { apply mapM_eval. intros h Hh.
    eapply Forall_forall in Hheads; [|exact Hh].
    by apply (Head_forward_seq hs h b t). }
  assert (Hshapes : Forall (shape3 b t hs) ((fun h => Head_seq h <$> x) <$> heads a)).
  { apply Forall_fmap, Forall_forall. intros h Hh. simpl.
    eapply Forall_forall in Hheads; [|exact Hh].
    eapply runs_det; [by apply (Head_forward_spec hs h b t x w)|].
    by apply (Head_forward_seq hs h b t). }
  destruct (torch_cat_shape b t hs ((fun h => Head_seq h <$> x) <$> heads a))
    as (cat & Hcat & Hcs); [|done|].
  { destruct (heads a); [simpl in Hlen; lia|done]. }
  rewrite length_fmap, Hlen in Hcs.
  destruct (Linear_forward_shape _ _ _ _ _ _ _ Hproj Hcs) as (y & Hy & Hyv & _).
  unfold MultiHeadAttention_forward.
  rewrite (bind_Ok _ _ _ _ _ Hrun).
  rewrite (bind_Ok _ _ w cat w) by (unfold lift; by rewrite Hcat).
  rewrite (bind_Ok _ _ w y w) by (unfold lift; by rewrite Hy).
  rewrite (Dropout_forward_eval _ _ _ Hw). f_equal. f_equal.
  rewrite Hyv. unfold rows, MultiHeadAttention_seq.
  assert (Hc : cat = (fun m => cat_seq ((fun h => Head_seq h m) <$> heads a)) <$> x).
  { destruct (heads a) as [|h0 hs']; [simpl in Hlen; lia|].
    simpl in Hcat. injection Hcat as <-.
    apply (foldl_cat_fmap Head_seq (Head_seq h0)). }
  rewrite Hc, <- list_fmap_compose. done.
Qed.

Lemma FeedFoward_forward_seq f b t x w :
  FeedFoward_ok n_embd f → shape3 b t n_embd x → training w = false →
  FeedFoward_forward f x w = (Ok (FeedFoward_seq f <$> x), w).
Proof.
  intros [H0f H2f] Hx Hw.
  destruct (Linear_forward_shape _ _ _ _ _ _ _ H0f Hx) as (y & Hy & Hyv & Hys).
  destruct (Linear_forward_shape _ _ _ _ _ _ _ H2f (shape3_ReLU _ _ _ _ Hys))
    as (z & Hz & Hzv & _).
  unfold FeedFoward_forward.
  rewrite (bind_Ok _ _ w y w) by (unfold lift; by rewrite Hy).
  rewrite (bind_Ok _ _ w z w) by (unfold lift; by rewrite Hz).
  rewrite (Dropout_forward_eval _ _ _ Hw). f_equal. f_equal.
  rewrite Hzv, Hyv. unfold ReLU, elems, rows, FeedFoward_seq.
  by repeat rewrite <- list_fmap_compose.
Qed.

Lemma LayerNorm_forward_rows d ln b t x :
  LayerNorm_ok d ln → shape3 b t d x →
  LayerNorm_forward ln x = Ok (rows (LayerNorm_row ln) x) ∧
  shape3 b t d (rows (LayerNorm_row ln) x).
Proof.
  intros Hln Hx.
  destruct (LayerNorm_forward_shape _ _ _ _ _ Hln Hx) as (y & Hy & Hys).
  assert (y = rows (LayerNorm_row ln) x) as ->; [|done].
  unfold LayerNorm_forward in Hy.
  destruct (decide _); [by injection Hy as <-|done].
Qed.

Lemma tadd_fmap (F : mat → mat) (x : tensor3) :
  tadd x (F <$> x) = (fun m => madd m (F m)) <$> x.
Proof. unfold tadd. by rewrite zip_with_fmap_r, zip_with_diag. Qed.

Lemma Block_forward_seq nh blk b t x w :
  Block_ok n_embd nh blk → 0 < nh → 0 < n_embd / nh → t ≤ block_size →
  shape3 b t n_embd x → training w = false →
  Block_forward blk x w = (Ok (Block_seq blk <$> x), w).
Proof.
  intros (Hsa & Hff & Hl1 & Hl2) Hnh Hhs Ht Hx Hw.
  destruct (LayerNorm_forward_rows _ _ _ _ _ Hl1 Hx) as [Hn1 Hn1s].
  pose proof (MultiHeadAttention_forward_seq nh _ _ b t _ w Hsa Hnh Hhs Ht Hn1s Hw)
    as Hatt.
  assert (Has : shape3 b t n_embd
            (MultiHeadAttention_seq (sa blk) <$> rows (LayerNorm_row (ln1 blk)) x)).
  { eapply runs_det; [|exact Hatt].
    by apply (MultiHeadAttention_forward_spec nh (n_embd / nh)). }
  pose proof (shape3_tadd _ _ _ _ _ Hx Has) as Hx1.
  destruct (LayerNorm_forward_rows _ _ _ _ _ Hl2 Hx1) as [Hn2 Hn2s].
  pose proof (FeedFoward_forward_seq _ b t _ w Hff Hn2s Hw) as Hffw.
  unfold Block_forward.
  rewrite (bind_Ok _ _ w _ w) by (unfold lift; by rewrite Hn1).
  rewrite (bind_Ok _ _ _ _ _ Hatt). cbv zeta.
  rewrite (bind_Ok _ _ w _ w) by (unfold lift; by rewrite Hn2).
  rewrite (bind_Ok _ _ _ _ _ Hffw).
  unfold mret, ST_ret. f_equal. f_equal.
  unfold rows. repeat rewrite <- list_fmap_compose.
  rewrite tadd_fmap. repeat rewrite <- list_fmap_compose.
  rewrite tadd_fmap. repeat rewrite <- list_fmap_compose.
  done.
Qed.

Lemma Sequential_forward_seq nh bs b t x w :
  Forall (Block_ok n_embd nh) bs →
  (bs ≠ [] → 0 < nh ∧ 0 < n_embd / nh) → t ≤ block_size →
  shape3 b t n_embd x → training w = false →
  Sequential_forward bs x w = (Ok (Blocks_seq bs <$> x), w).
Proof.
  intros Hbs Hne Ht Hx Hw. revert x Hx.
  induction Hbs as [|blk bs Hblk Hbs IH]; intros x Hx.
  { simpl. unfold Blocks_seq. simpl. by rewrite list_fmap_id. }
  destruct Hne as [Hnh Hhs]; [done|].
  pose proof (Block_forward_seq nh blk b t x w Hblk Hnh Hhs Ht Hx Hw) as Hrun.
  assert (Hxs : shape3 b t n_embd (Block_seq blk <$> x)).
  { eapply runs_det; [|exact Hrun]. by apply (Block_forward_spec nh). }
  simpl. rewrite (bind_Ok _ _ _ _ _ Hrun).
  rewrite IH; [|done|done]. f_equal. f_equal.
  by rewrite <- list_fmap_compose.
Qed.

Lemma shape3_embed_seq m b t idx :
  GPTLanguageModel_ok text m → t ≤ block_size →
  shape2 b t idx → below (vocab_size text) idx →
  shape3 b t n_embd (embed_seq m <$> idx).
Proof.
  intros (Htok & Hpos & _) Ht [Hb Hrows] Hbelow.
  split; [by rewrite length_fmap|].
  apply Forall_fmap, Forall_forall. intros row Hrow. simpl.
  eapply Forall_forall in Hrows; [|exact Hrow].
  eapply Forall_forall in Hbelow; [|exact Hrow]. simpl in Hrows.
  unfold embed_seq, madd. apply (shape2_zip_with Rplus).
  - rewrite <- Hrows. by apply (shape2_Embedding_lookup _ _ _ _ Htok).
  - pose proof (shape2_Embedding_lookup _ _ _ (seq 0 (length row)) Hpos) as Hs.
    rewrite length_seq in Hs. rewrite <- Hrows. apply Hs.
    apply Forall_forall. intros j Hj%elem_of_seq. lia.
Qed.

(** In eval mode, and for a batch that the model accepts, the logits
    are [model_seq] of each row, and nothing is drawn. *)
Lemma forward_seq m idx b t w :
  GPTLanguageModel_ok text m → 0 < n_head → n_head ≤ n_embd →
  t ≤ block_size →
  shape2 b t idx → below (vocab_size text) idx → training w = false →
  forward m idx None w = (Ok (Logits3 (model_seq m <$> idx), None), w).
Proof.
  intros Hm Hnh Hhs Ht Hidx Hbelow Hw.
  pose proof (shape3_embed_seq m b t idx Hm Ht Hidx Hbelow) as Hx0.
  destruct Hm as (Htok & Hpos & Hnl & Hblocks & Hln & Hlm).
  assert (Htoks : mapM (Embedding_forward (token_embedding_table m)) idx
            = Ok ((fun row : list nat => (fun i => default []
                      (emb_weight (token_embedding_table m) !! i)) <$> row) <$> idx)).
  { apply mapM_outcome_eval. intros row Hrow.
    apply (Embedding_forward_lookup _ _ _ _ Htok).
    by eapply Forall_forall in Hbelow. }
  assert (Hdim : idx = [] ∨ dim1 idx = t).
  { destruct idx as [|row idx]; [by left|right].
    destruct Hidx as [_ Hrows]. by apply Forall_cons in Hrows as [? _]. }
  assert (Hposs : Embedding_forward (position_embedding_table m) (seq 0 (dim1 idx))
            = Ok ((fun j => default []
                     (emb_weight (position_embedding_table m) !! j))
                  <$> seq 0 (dim1 idx))).
  { apply (Embedding_forward_lookup _ _ _ _ Hpos).
    apply Forall_forall. intros j Hj%elem_of_seq.
    destruct Hdim as [->|Hd]; [unfold dim1 in Hj; simpl in Hj; lia|lia]. }
  pose proof (Sequential_forward_seq n_head (blocks m) b t (embed_seq m <$> idx)
                w Hblocks) as Hseq.
  specialize (Hseq (fun _ => conj Hnh (Nat.div_str_pos _ _ (conj Hnh Hhs))) Ht Hx0 Hw).
  assert (Hxs : shape3 b t n_embd (Blocks_seq (blocks m) <$> (embed_seq m <$> idx))).
  { eapply runs_det; [|exact Hseq].
    apply (Sequential_forward_spec n_head); [done| |done|done].
    intros _. split; [done|]. apply Nat.div_str_pos. lia. }
  destruct (LayerNorm_forward_rows _ _ _ _ _ Hln Hxs) as [Hnf Hnfs].
  destruct (Linear_forward_shape _ _ _ _ _ _ _ Hlm Hnfs) as (logits & Hl & Hlv & _).
  unfold forward. cbv zeta.
  rewrite (bind_Ok _ _ w _ w) by (unfold lift; by rewrite Htoks).
  rewrite (bind_Ok _ _ w _ w) by (unfold lift; by rewrite Hposs).
  assert (Hemb : (fun tb => madd tb ((fun j => default []
                     (emb_weight (position_embedding_table m) !! j))
                  <$> seq 0 (dim1 idx)))
                 <$> ((fun row : list nat => (fun i => default []
                        (emb_weight (token_embedding_table m) !! i)) <$> row) <$> idx)
                 = embed_seq m <$> idx).
  { rewrite <- list_fmap_compose. apply list_fmap_ext. intros i row Hrow. simpl.
    unfold embed_seq. destruct Hdim as [-> | ->]; [done|].
    destruct Hidx as [_ Hrows].
    eapply Forall_forall in Hrows; [|by eapply list_elem_of_lookup_2].
    by rewrite Hrows. }
  rewrite Hemb, (bind_Ok _ _ _ _ _ Hseq).
  rewrite (bind_Ok _ _ w _ w) by (unfold lift; by rewrite Hnf).
  rewrite (bind_Ok _ _ w logits w) by (unfold lift; by rewrite Hl).
  unfold mret, ST_ret. f_equal. f_equal. f_equal.
  rewrite Hlv. unfold rows, model_seq.
  by repeat rewrite <- list_fmap_compose.
Qed.

(** X27. The model is causal.  In eval mode, for a batch that the model
    accepts, the logits of the first k positions are the logits that
    the first k tokens give on their own; so two batches that agree on
    their first k tokens have the same logits at these positions,
    whatever follows. *)
Theorem forward_causal m idx b t k w :
  GPTLanguageModel_ok text m → 0 < n_head → n_head ≤ n_embd →
  t ≤ block_size →
  shape2 b t idx → below (vocab_size text) idx → training w = false →
  k ≤ t →
  ∃ x,
    forward m idx None w = (Ok (Logits3 x, None), w) ∧
    forward m (take k <$> idx) None w = (Ok (Logits3 (take k <$> x), None), w) ∧
    ∀ idx' t',
      t' ≤ block_size → shape2 b t' idx' → below (vocab_size text) idx' →
      take k <$> idx' = take k <$> idx →
      ∃ x', forward m idx' None w = (Ok (Logits3 x', None), w) ∧
            take k <$> x' = take k <$> x.
Proof.
  intros Hm Hnh Hhs Ht Hidx Hbelow Hw Hk.
  assert (Hpre : ∀ idx0 : list (list nat), take k <$> (model_seq m <$> idx0)
                         = model_seq m <$> (take k <$> idx0)).
  { intros idx0. rewrite <- !list_fmap_compose.
    apply list_fmap_ext. intros i row _. simpl. by rewrite model_seq_take. }
  exists (model_seq m <$> idx). split; [|split].
  - by apply (forward_seq m idx b t).
  - rewrite Hpre. apply (forward_seq m _ b k); try done; [lia| |].
    + destruct Hidx as [Hb Hrows]. split; [by rewrite length_fmap|].
      apply Forall_fmap. eapply Forall_impl; [exact Hrows|].
      intros row Hrow. simpl in *. rewrite length_take. lia.
    + apply Forall_fmap. eapply Forall_impl; [exact Hbelow|].
      intros row Hrow. simpl. by apply Forall_take.
  - intros idx' t' Ht' Hidx' Hbelow' Heq.
    exists (model_seq m <$> idx'). split; [by apply (forward_seq m idx' b t')|].
    by rewrite !Hpre, Heq.
Qed.

(** X28. The rows of a batch do not see each other.  In eval mode, for a
    batch that the model accepts, the logits of row i are the logits
    that the forward pass gives for row i alone. *)
Theorem forward_batch_independent m idx b t w :
  GPTLanguageModel_ok text m → 0 < n_head → n_head ≤ n_embd →
  t ≤ block_size →
  shape2 b t idx → below (vocab_size text) idx → training w = false →
  ∃ x,
    forward m idx None w = (Ok (Logits3 x, None), w) ∧ length x = b ∧
    ∀ i row, idx !! i = Some row →
      ∃ xi, x !! i = Some xi ∧
            forward m [row] None w = (Ok (Logits3 [xi], None), w).
Proof.
  intros Hm Hnh Hhs Ht Hidx Hbelow Hw.
  exists (model_seq m <$> idx). split; [by apply (forward_seq m idx b t)|].
  split; [rewrite length_fmap; by destruct Hidx|].
  intros i row Hrow. exists (model_seq m row).
  split; [by rewrite list_lookup_fmap, Hrow|].
  apply (forward_seq m [row] 1 t); try done.
  - split; [done|]. constructor; [|done].
    destruct Hidx as [_ Hrows].
    eapply Forall_forall in Hrows; [exact Hrows|by eapply list_elem_of_lookup_2].
  - constructor; [|done].
    eapply Forall_forall in Hbelow; [exact Hbelow|by eapply list_elem_of_lookup_2].
Qed.
End eval_mode.

(** ** The further properties at concrete inputs *)

Lemma vocab_size_symbols65 : vocab_size symbols65 = 65.
Proof. vm_compute. reflexivity. Qed.

Lemma encode_decode_witness :
  Forall (fun i => i < vocab_size abab) [0; 1; 0] ∧
  ∃ s, decode abab [0; 1; 0] = Ok s ∧ encode abab s = Ok [0; 1; 0].
Proof.
  assert (Hl : Forall (fun i => i < vocab_size abab) [0; 1; 0]).
  { rewrite vocab_size_abab. repeat constructor. }
  split; [exact Hl|]. exact (encode_decode abab [0; 1; 0] Hl).
Defined.

Lemma stoi_monotone_witness :
  stoi abab !! 97%N = Some 0 ∧ stoi abab !! 98%N = Some 1 ∧
  ((97 < 98)%N ↔ 0 < 1).
Proof.
  assert (H1 : stoi abab !! 97%N = Some 0) by (vm_compute; reflexivity).
  assert (H2 : stoi abab !! 98%N = Some 1) by (vm_compute; reflexivity).
  split; [exact H1|]. split; [exact H2|].
  exact (stoi_monotone abab 97 98 0 1 H1 H2).
Defined.

Lemma train_split_length_binary64_witness :
  (Z.of_nat (length abab) < 65536)%Z ∧
  Binary64.n_binary64 (Z.of_nat (length (data abab)))
    = Z.of_nat (length (train_data abab)).
Proof.
  assert (Hlen : (Z.of_nat (length abab) < 65536)%Z) by reflexivity.
  split; [exact Hlen|].
  exact (train_split_length_binary64 abab (or_introl Hlen)).
Defined.

Section further_with_a_small_configuration.
#[local] Existing Instance tiny_hyper.
#[local] Existing Instance lcg.
#[local] Existing Instance frozen.

Lemma get_batch_targets_shifted_witness :
  ∃ x y w',
    get_batch abab "train" (start (filled_model abab 1) seed idle) = (Ok (x, y), w') ∧
    shape2 batch_size block_size x ∧ shape2 batch_size block_size y ∧
    below (vocab_size abab) x ∧ below (vocab_size abab) y ∧
    ∀ i xr yr j, x !! i = Some xr → y !! i = Some yr →
                 S j < block_size → yr !! j = xr !! S j.
Proof.
  apply (get_batch_targets_shifted abab "train"
           (start (filled_model abab 1) seed idle)).
  - rewrite split_data_train. destruct data_abab as [-> _].
    unfold block_size, tiny_hyper. lia.
  - unfold batch_size, tiny_hyper. lia.
Defined.

Lemma forward_sequence_too_long_witness :
  forward (filled_model abab 1) [[0; 1; 0]] None
    (start (filled_model abab 1) seed idle)
  = (Raise IndexError, start (filled_model abab 1) seed idle).
Proof.
  apply (forward_sequence_too_long abab (filled_model abab 1) [[0; 1; 0]] None 1 3).
  - apply filled_model_ok.
  - split; [done|]. repeat constructor.
  - lia.
  - apply below_abab. repeat constructor.
  - unfold block_size, tiny_hyper. lia.
Defined.

Lemma Head_forward_sequence_too_long_witness :
  Head_forward (filled_Head 1 2) [replicate 3 (replicate 2 1%R)]
    (start (filled_model abab 1) seed idle)
  = (Raise RuntimeError, start (filled_model abab 1) seed idle).
Proof.
  apply (Head_forward_sequence_too_long 2 (filled_Head 1 2) 1 3).
  - apply filled_Head_ok.
  - lia.
  - split; [done|]. repeat constructor.
  - lia.
  - unfold block_size, tiny_hyper. lia.
  - unfold block_size, tiny_hyper. lia.
Defined.

Lemma estimate_loss_returns_witness :
  ∃ lt lv w',
    estimate_loss abab (start (filled_model abab 1) seed idle)
      = (Ok (<["val" := Float lv]> (<["train" := Float lt]> ∅)), w') ∧
    (0 <= lt)%R ∧ (0 <= lv)%R ∧
    model w' = filled_model abab 1 ∧ training w' = true.
Proof.
  apply (estimate_loss_returns abab (start (filled_model abab 1) seed idle)).
  - apply filled_model_ok.
  - unfold n_head, tiny_hyper. lia.
  - unfold n_head, n_embd, tiny_hyper. lia.
  - unfold block_size, tiny_hyper. lia.
  - destruct data_abab as [-> _]. unfold block_size, tiny_hyper. lia.
  - destruct data_abab as [_ ->]. unfold block_size, tiny_hyper. lia.
  - unfold batch_size, tiny_hyper. lia.
  - unfold eval_iters, tiny_hyper. lia.
Defined.

Lemma train_returns_witness :
  ∃ w', train abab (start (filled_model abab 1) seed idle) = (Ok tt, w') ∧
        GPTLanguageModel_ok abab (model w') ∧
        (0 < max_iters → training w' = true).
Proof.
  apply (train_returns abab (start (filled_model abab 1) seed idle)).
  - apply filled_model_ok.
  - unfold n_head, tiny_hyper. lia.
  - unfold n_head, n_embd, tiny_hyper. lia.
  - unfold block_size, tiny_hyper. lia.
  - destruct data_abab as [-> _]. unfold block_size, tiny_hyper. lia.
  - destruct data_abab as [_ ->]. unfold block_size, tiny_hyper. lia.
  - unfold batch_size, tiny_hyper. lia.
  - unfold eval_interval, tiny_hyper. lia.
  - intros m xb yb g o Hm. exact Hm.
Defined.
End further_with_a_small_configuration.

Section further_with_the_notebook_configuration.
#[local] Existing Instance notebook_hyper.
#[local] Existing Instance lcg.
#[local] Existing Instance frozen.

Lemma forward_token_out_of_vocabulary_witness :
  forward (filled_model abab 1) [[0; 5]] None
    (start (filled_model abab 1) seed idle)
  = (Raise IndexError, start (filled_model abab 1) seed idle).
Proof.
  apply (forward_token_out_of_vocabulary abab (filled_model abab 1) [[0; 5]] None).
  - apply filled_model_ok.
  - unfold below. rewrite vocab_size_abab. intros Hb.
    apply Forall_cons in Hb as [Hrow _].
    apply Forall_cons in Hrow as [_ Hrow].
    apply Forall_cons in Hrow as [Hlt _]. lia.
Defined.

Lemma forward_bad_targets_witness :
  ∃ w', forward (filled_model abab 1) [[0; 1]] (Some [[1]])
          (start (filled_model abab 1) seed idle)
        = (Raise RuntimeError, w').
Proof.
  apply (forward_bad_targets abab (filled_model abab 1) [[0; 1]] [[1]] 1 2).
  - apply filled_model_ok.
  - simpl. lia.
  - simpl. lia.
  - simpl. lia.
  - split; [done|]. repeat constructor.
  - apply below_abab. repeat constructor.
  - left. simpl. lia.
Defined.

Lemma estimate_loss_raise_leaves_eval_mode_witness :
  ∃ w',
    estimate_loss abab (start (filled_model abab 1) seed idle)
      = (Raise RuntimeError, w') ∧
    training w' = false ∧ model w' = filled_model abab 1 ∧ optimizer w' = idle.
Proof.
  eexists. split.
  - apply estimate_loss_short.
    + destruct data_abab as [-> _]. simpl. lia.
    + simpl. lia.
  - eapply (estimate_loss_raise_leaves_eval_mode abab
              (start (filled_model abab 1) seed idle)).
    apply estimate_loss_short.
    + destruct data_abab as [-> _]. simpl. lia.
    + simpl. lia.
Defined.

Lemma sample_text_extends_prompt_witness :
  ∃ s w',
    sample_text abab (py "ab") 3 (start (filled_model abab 1) seed idle)
      = (Ok s, w') ∧
    length s = length (py "ab") + 3 ∧ py "ab" `prefix_of` s ∧
    Forall (fun c => c ∈ abab) s.
Proof.
  apply (sample_text_extends_prompt abab (py "ab") 3
           (start (filled_model abab 1) seed idle)).
  - apply filled_model_ok.
  - simpl. lia.
  - simpl. lia.
  - simpl. lia.
  - repeat constructor.
  - by right.
Defined.

Lemma Block_forward_keeps_shape_witness :
  (∃ y w', Block_forward (filled_Block 1 384 6) [replicate 2 (replicate 384 1%R)]
             (start (filled_model abab 1) seed idle) = (Ok y, w') ∧
           shape3 1 2 n_embd y) ∧
  (∃ a w', MultiHeadAttention_forward (sa (filled_Block 1 384 6))
             [replicate 2 (replicate 384 1%R)]
             (start (filled_model abab 1) seed idle) = (Ok a, w') ∧
           shape3 1 2 n_embd a) ∧
  (∃ f w', FeedFoward_forward (ffwd (filled_Block 1 384 6))
             [replicate 2 (replicate 384 1%R)]
             (start (filled_model abab 1) seed idle) = (Ok f, w') ∧
           shape3 1 2 n_embd f).
Proof.
  apply (Block_forward_keeps_shape (filled_Block 1 384 6) 1 2).
  - apply filled_Block_ok.
  - simpl. lia.
  - simpl. lia.
  - simpl. lia.
  - split; [done|]. repeat constructor.
Defined.

Lemma forward_causal_witness :
  ∃ x,
    forward (filled_model abab 1) [[0; 1; 0]] None
      (evaluating (filled_model abab 1) seed idle)
    = (Ok (Logits3 x, None), evaluating (filled_model abab 1) seed idle) ∧
    forward (filled_model abab 1) [[0; 1]] None
      (evaluating (filled_model abab 1) seed idle)
    = (Ok (Logits3 (take 2 <$> x), None),
       evaluating (filled_model abab 1) seed idle) ∧
    ∀ idx' t',
      t' ≤ block_size → shape2 1 t' idx' → below (vocab_size abab) idx' →
      take 2 <$> idx' = [[0; 1]] →
      ∃ x', forward (filled_model abab 1) idx' None
              (evaluating (filled_model abab 1) seed idle)
            = (Ok (Logits3 x', None), evaluating (filled_model abab 1) seed idle) ∧
            take 2 <$> x' = take 2 <$> x.
Proof.
  apply (forward_causal abab (filled_model abab 1) [[0; 1; 0]] 1 3 2
           (evaluating (filled_model abab 1) seed idle)).
  - apply filled_model_ok.
  - simpl. lia.
  - simpl. lia.
  - simpl. lia.
  - split; [done|]. repeat constructor.
  - apply below_abab. repeat constructor.
  - reflexivity.
  - lia.
Defined.

Lemma forward_batch_independent_witness :
  ∃ x,
    forward (filled_model abab 1) [[0; 1]; [1; 1]] None
      (evaluating (filled_model abab 1) seed idle)
    = (Ok (Logits3 x, None), evaluating (filled_model abab 1) seed idle) ∧
    length x = 2 ∧
    ∀ i row, [[0; 1]; [1; 1]] !! i = Some row →
      ∃ xi, x !! i = Some xi ∧
            forward (filled_model abab 1) [row] None
              (evaluating (filled_model abab 1) seed idle)
            = (Ok (Logits3 [xi], None),
               evaluating (filled_model abab 1) seed idle).
Proof.
  apply (forward_batch_independent abab (filled_model abab 1)
           [[0; 1]; [1; 1]] 2 2
           (evaluating (filled_model abab 1) seed idle)).
  - apply filled_model_ok.
  - simpl. lia.
  - simpl. lia.
  - simpl. lia.
  - split; [done|]. repeat constructor.
  - apply below_abab. repeat constructor.
  - reflexivity.
Defined.

(** With the hyperparameters of the notebook and its 65 symbols, the
    count is the 10.788929 M that cell 24 prints. *)
Lemma num_parameters_formula_witness :
  GPTLanguageModel_ok symbols65 (filled_model symbols65 1) ∧
  num_parameters (filled_model symbols65 1) = 10788929%N.
Proof.
  split; [apply filled_model_ok|].
  rewrite (num_parameters_formula symbols65 (filled_model symbols65 1)
             (filled_model_ok symbols65 1)).
  rewrite vocab_size_symbols65. reflexivity.
Defined.
End further_with_the_notebook_configuration.

Section further_without_evaluation.
#[local] Existing Instance no_eval_hyper.
#[local] Existing Instance lcg.
#[local] Existing Instance frozen.

Lemma estimate_loss_no_batches_witness :
  estimate_loss abab (start (filled_model abab 1) seed idle)
  = (Ok (<["val" := NaN]> (<["train" := NaN]> ∅)),
     start (filled_model abab 1) seed idle).
Proof.
  exact (estimate_loss_no_batches abab (start (filled_model abab 1) seed idle)
           eq_refl).
Defined.

Lemma train_zero_eval_interval_witness :
  train abab (start (filled_model abab 1) seed idle)
  = (Raise ZeroDivisionError, start (filled_model abab 1) seed idle).
Proof.
  apply (train_zero_eval_interval abab (start (filled_model abab 1) seed idle)).
  - reflexivity.
  - unfold max_iters, no_eval_hyper. lia.
Defined.
End further_without_evaluation.
